(** * FilmShell: film frame scanner, motion accumulation, fire-event scanner,
      octahedral aim decoder and Bond Compact Binary v2 parser.

    A shallow embedding of the decoders of the repository and the
    properties its specification states about them. *)

From Stdlib Require Import ZArith Lia String Ascii PrimFloat Uint63.
From stdpp Require Import base option list strings pretty gmap.

Local Open Scope Z_scope.

(** ** JavaScript numbers restricted to the integer operations the decoders use.

    Array cells are read with [l !! i]; [None] is JavaScript's [undefined].
    The bitwise operators work on the 32-bit two's complement image of their
    operands, written out here. *)
Module JS.

(** ToInt32 of an integer-valued number. *)
Definition toInt32 (z : Z) : Z := (z + 2 ^ 31) mod 2 ^ 32 - 2 ^ 31.

(** ToUint32 of an integer-valued number. *)
Definition toUint32 (z : Z) : Z := z mod 2 ^ 32.

(** ToInt32 of a cell that may be [undefined] (NaN maps to 0). *)
Definition int32_of (v : option Z) : Z :=
  match v with Some z => toInt32 z | None => 0 end.

(** [a << n], [a >> n], [a >>> n], [a | b], [a & b] for [0 <= n < 32]. *)
Definition shl (a n : Z) : Z := toInt32 (Z.shiftl (toInt32 a) n).
Definition shr (a n : Z) : Z := Z.shiftr (toInt32 a) n.
Definition ushr (a n : Z) : Z := Z.shiftr (toUint32 a) n.
Definition bor (a b : Z) : Z := Z.lor (toInt32 a) (toInt32 b).
Definition band (a b : Z) : Z := Z.land (toInt32 a) (toInt32 b).

(** Hexadecimal digit of a value in [0, 15]. *)
Definition hexDigit (d : Z) : ascii :=
  match d with
  | 0 => "0" | 1 => "1" | 2 => "2" | 3 => "3" | 4 => "4" | 5 => "5"
  | 6 => "6" | 7 => "7" | 8 => "8" | 9 => "9" | 10 => "a" | 11 => "b"
  | 12 => "c" | 13 => "d" | 14 => "e" | _ => "f"
  end%char.

(** Digits of a non-negative integer in base 16, most significant first. *)
Fixpoint hexDigits (fuel : nat) (n : Z) (acc : string) : string :=
  let acc' := String (hexDigit (n mod 16)) acc in
  match fuel with
  | O => acc'
  | S fuel' => if n <? 16 then acc' else hexDigits fuel' (n / 16) acc'
  end.

(** [n.toString(16)] for an integer [n]. *)
Definition toString16 (n : Z) : string :=
  if n <? 0
  then String "-" (hexDigits (Z.to_nat (Z.log2 (- n))) (- n) EmptyString)
  else hexDigits (Z.to_nat (Z.log2 n)) n EmptyString.

(** [s.padStart(2, '0')]. *)
Definition padStart2 (s : string) : string :=
  match s with
  | EmptyString => "00"
  | String c EmptyString => String "0" (String c EmptyString)
  | _ => s
  end%string.

(** [n.toString(16).padStart(2, '0')]; calling it on [undefined] throws. *)
Definition toHex2 (n : Z) : string := padStart2 (toString16 n).

End JS.

(** The cells of a [Uint8Array] or a [Buffer] are bytes. *)
Definition byteArray (data : list Z) : Prop := Forall (λ b, 0 ≤ b < 256) data.

#[global] Instance byteArray_dec data : Decision (byteArray data).
Proof. unfold byteArray. apply _. Defined.

(** ** Outcome of a run: a value, a thrown exception, or a model that ran out
    of fuel before the program finished. *)
Inductive res (A : Type) : Type :=
| Ok (a : A)
| Throw
| OutOfFuel.
Arguments Ok {A} a.
Arguments Throw {A}.
Arguments OutOfFuel {A}.

(** ** Frame scanner (viewer/film-parser.ts) *)
Module FilmParser.

Record ParsedFrame := mkParsedFrame {
  index : nat;
  offset : Z;
  chunkIndex : nat;
  tick : Z;
  byte5 : option Z;
  byte6 : option Z;
  byte7 : option Z;
  byte8 : option Z;
  playerIndex : Z;
  baseType : Z;
  formatByte : option Z;
  dataBytes : list Z;
  frameTypeHex : string;
  subtypeHex : string;
  isPositionFrame : bool;
  hasPlayer : bool;
  coord1 : option Z;
  coord2 : option Z
}.

(** The three bytes A0 7B 42 sit at [i], [i+1], [i+2]. *)
Definition markerAt (data : list Z) (i : nat) : Prop :=
  data !! i = Some 0xa0 ∧ data !! (i + 1)%nat = Some 0x7b
  ∧ data !! (i + 2)%nat = Some 0x42.

#[global] Instance markerAt_dec data i : Decision (markerAt data i).
Proof. unfold markerAt. apply _. Defined.

(** [for (i = 0; i < data.length - 2; i++) if (...) positions.push(i)]. *)
Definition findMarkers (data : list Z) : list nat :=
  filter (markerAt data) (seq 0 (length data - 2)).

(** [for (i = chunkOffsets.length - 1; i >= 0; i--)
      if (offset >= chunkOffsets[i]) return i;  return 0]. *)
Fixpoint getChunkIndex_from (n : nat) (off : Z) (chunkOffsets : list Z) : nat :=
  match n with
  | O => O
  | S i =>
      match chunkOffsets !! i with
      | Some c => if bool_decide (c ≤ off) then i
                  else getChunkIndex_from i off chunkOffsets
      | None => getChunkIndex_from i off chunkOffsets
      end
  end.

Definition getChunkIndex (off : Z) (chunkOffsets : list Z) : nat :=
  getChunkIndex_from (length chunkOffsets) off chunkOffsets.

(** [toHex2] of a cell; [None] is the TypeError of calling a method on
    [undefined]. *)
Definition toHex2 (v : option Z) : option string := JS.toHex2 <$> v.

(** [dataBytes.push(pos + 10 + d < data.length ? data[pos + 10 + d] : 0)]. *)
Definition dataByte (data : list Z) (pos d : nat) : Z :=
  if bool_decide (pos + 10 + d < length data)%nat
  then default 0 (data !! (pos + 10 + d)%nat)
  else 0.

Definition jsEq (v : option Z) (z : Z) : bool := bool_decide (v = Some z).

(** Body of the loop of [parseFrames] after the length guard, for the marker
    at [pos] when [idx] frames were pushed so far. *)
Definition frameAt (data chunkOffsets : list Z) (idx pos : nat)
  : option ParsedFrame :=
  let tick := JS.bor (JS.shl (JS.int32_of (data !! (pos + 3)%nat)) 8)
                     (JS.int32_of (data !! (pos + 4)%nat)) in
  let byte5 := data !! (pos + 5)%nat in
  let byte6 := data !! (pos + 6)%nat in
  let byte7 := data !! (pos + 7)%nat in
  let byte8 := data !! (pos + 8)%nat in
  let formatByte := data !! (pos + 9)%nat in
  let playerIndex := JS.band (JS.shr (JS.int32_of byte6) 5) 0x07 in
  let baseType := JS.band (JS.int32_of byte6) 0x1f in
  let dataBytes := (λ d, dataByte data pos d) <$> seq 0 10 in
  h5 ← toHex2 byte5;
  h6 ← toHex2 byte6;
  h7 ← toHex2 byte7;
  h8 ← toHex2 byte8;
  let frameTypeHex := (h5 +:+ h6 +:+ h7 +:+ h8)%string in
  let subtypeHex := (h7 +:+ h8)%string in
  let d0 := dataByte data pos 0 in
  let d1 := dataByte data pos 1 in
  let d2 := dataByte data pos 2 in
  let d3 := dataByte data pos 3 in
  let d0HiNib := JS.shr d0 4 in
  let isPositionFrame :=
    jsEq byte5 0x40 && bool_decide (baseType = 0x09)
    && bool_decide (d0HiNib = 4) in
  let hasPlayer :=
    jsEq byte5 0x40
    && (bool_decide (baseType = 0x09) || bool_decide (baseType = 0x08)) in
  let coord1 := if isPositionFrame then Some (d0 * 256 + d1) else None in
  let coord2 := if isPositionFrame
                then Some (JS.bor (JS.shl (JS.band d2 0x0f) 8) d3)
                else None in
  Some {| index := idx; offset := Z.of_nat pos;
          chunkIndex := getChunkIndex (Z.of_nat pos) chunkOffsets;
          tick := tick; byte5 := byte5; byte6 := byte6; byte7 := byte7;
          byte8 := byte8; playerIndex := playerIndex; baseType := baseType;
          formatByte := formatByte; dataBytes := dataBytes;
          frameTypeHex := frameTypeHex; subtypeHex := subtypeHex;
          isPositionFrame := isPositionFrame; hasPlayer := hasPlayer;
          coord1 := coord1; coord2 := coord2 |}.

(** One iteration of the loop over the markers; [None] is a thrown
    exception, which ends the scan. *)
Definition parseFrames_step (data chunkOffsets : list Z)
    (acc : option (list ParsedFrame)) (pos : nat)
  : option (list ParsedFrame) :=
  frames ← acc;
  if bool_decide (length data < pos + 20)%nat then Some frames
  else f ← frameAt data chunkOffsets (length frames) pos;
       Some (frames ++ [f]).

Definition parseFrames (data chunkOffsets : list Z)
  : option (list ParsedFrame) :=
  foldl (parseFrames_step data chunkOffsets) (Some []) (findMarkers data).

(** A marker that passes the length guard of [parseFrames]. *)
Definition fits (data : list Z) (pos : nat) : Prop :=
  (pos + 20 ≤ length data)%nat.

#[global] Instance fits_dec data pos : Decision (fits data pos).
Proof. unfold fits. apply _. Defined.

(** [f] is the frame the loop body builds for the marker at [pos]. *)
Definition emitted (data chunkOffsets : list Z) (f : ParsedFrame) (pos : nat)
  : Prop :=
  fits data pos ∧ ∃ idx, frameAt data chunkOffsets idx pos = Some f.

(** The span [offset, offset + 19] of a frame holds [off]. *)
Definition spans (f : ParsedFrame) (off : Z) : Prop :=
  offset f ≤ off ≤ offset f + 19.

(** Frames in ascending order whose 20-byte spans do not overlap. *)
Definition disjointAscending (frames : list ParsedFrame) : Prop :=
  ∀ i j f g, (i < j)%nat → frames !! i = Some f → frames !! j = Some g →
             offset f + 19 < offset g.

(** The check of [disjointAscending] on neighbouring frames. *)
Fixpoint disjointb (frames : list ParsedFrame) : bool :=
  match frames with
  | f :: rest =>
      match rest with
      | g :: _ => bool_decide (offset f + 19 < offset g) && disjointb rest
      | [] => true
      end
  | [] => true
  end.

(** The binary search of [frameAtOffset]; [frames[mid]] outside the array
    is [undefined], whose [.offset] throws. *)
Fixpoint frameAtOffset_loop (fuel : nat) (off : Z)
    (frames : list ParsedFrame) (lo hi : Z) : res (option Z) :=
  match fuel with
  | O => OutOfFuel
  | S fuel' =>
      if bool_decide (lo ≤ hi) then
        let mid := JS.ushr (lo + hi) 1 in
        match frames !! Z.to_nat mid with
        | None => Throw
        | Some f =>
            let start := offset f in
            let end_ := start + 19 in
            if bool_decide (off < start)
            then frameAtOffset_loop fuel' off frames lo (mid - 1)
            else if bool_decide (end_ < off)
                 then frameAtOffset_loop fuel' off frames (mid + 1) hi
                 else Ok (Some mid)
        end
      else Ok None
  end.

(** [frameAtOffset(offset, frames)]: [Ok None] is [null]. Every round of
    the loop shrinks [hi - lo], so [length frames] rounds and the closing
    test are all the search can take. *)
Definition frameAtOffset (off : Z) (frames : list ParsedFrame)
  : res (option Z) :=
  frameAtOffset_loop (S (length frames)) off frames 0
                     (Z.of_nat (length frames) - 1).

(** Frames in strictly ascending order of offset. *)
Definition ascending (frames : list ParsedFrame) : Prop :=
  ∀ i j f g, (i < j)%nat → frames !! i = Some f → frames !! j = Some g →
             offset f < offset g.

(** [const enum FieldType]. *)
Inductive FieldType :=
| FNone | Marker | Tick | FrameType | FormatByte | DataPos | DataState | DataExt.

(** [map[i] = v] on a typed array: an index outside it is ignored. *)
Definition setLabel (i : Z) (v : FieldType) (map : list FieldType)
  : list FieldType :=
  if bool_decide (0 ≤ i) then <[ Z.to_nat i := v ]> map else map.

(** The body of the loop of [buildFieldMap] for one frame; [len] is
    [data.length]. *)
Definition labelFrame (len : Z) (map : list FieldType) (frame : ParsedFrame)
  : list FieldType :=
  let pos := offset frame in
  let map := if bool_decide (pos + 2 < len)
             then setLabel (pos + 2) Marker
                    (setLabel (pos + 1) Marker (setLabel pos Marker map))
             else map in
  let map := if bool_decide (pos + 4 < len)
             then setLabel (pos + 4) Tick (setLabel (pos + 3) Tick map)
             else map in
  let map := if bool_decide (pos + 8 < len)
             then setLabel (pos + 8) FrameType
                    (setLabel (pos + 7) FrameType
                       (setLabel (pos + 6) FrameType
                          (setLabel (pos + 5) FrameType map)))
             else map in
  let map := if bool_decide (pos + 9 < len)
             then setLabel (pos + 9) FormatByte map else map in
  let dataFieldType := if isPositionFrame frame then DataPos else DataState in
  let map := foldl (λ map d, if bool_decide (pos + 10 + d < len)
                             then setLabel (pos + 10 + d) dataFieldType map
                             else map) map [0; 1; 2; 3] in
  foldl (λ map d, if bool_decide (pos + 10 + d < len)
                  then setLabel (pos + 10 + d) DataExt map
                  else map) map [4; 5; 6; 7; 8; 9].

Definition buildFieldMap (data : list Z) (frames : list ParsedFrame)
  : list FieldType :=
  foldl (labelFrame (Z.of_nat (length data)))
        (replicate (length data) FNone) frames.

(** The structural role of the byte at distance [k] from the marker. *)
Definition roleOf (frame : ParsedFrame) (k : Z) : FieldType :=
  if bool_decide (k < 3) then Marker
  else if bool_decide (k < 5) then Tick
  else if bool_decide (k < 9) then FrameType
  else if bool_decide (k = 9) then FormatByte
  else if bool_decide (k < 14)
       then (if isPositionFrame frame then DataPos else DataState)
       else DataExt.

End FilmParser.

(** ** Motion extraction (cli/motion-extractor.ts) *)
Module MotionExtractor.

Record MotionPoint := mkMotionPoint {
  frame : nat;
  cumCoord1 : Z;
  cumCoord2 : Z;
  raw1 : Z;
  raw2 : Z
}.

Definition getPlayerIndex (frameTypeByte1 : Z) : Z :=
  JS.band (JS.shr frameTypeByte1 5) 0x07.

Definition getBaseType (frameTypeByte1 : Z) : Z :=
  JS.band frameTypeByte1 0x1f.

(** [buildFrameTypeHex] on the bytes of [Buffer.from(baseHex, 'hex')]: the
    bytes whose hexadecimal text it returns. A store into a Buffer keeps the
    low eight bits, and is dropped when the index is out of range. *)
Definition buildFrameTypeHex (bytes : list Z) (playerIndex : Z) : list Z :=
  <[ 1%nat := JS.bor (JS.band (JS.int32_of (bytes !! 1%nat)) 0x1f)
                     (JS.shl (JS.band playerIndex 0x07) 5) `mod` 256 ]> bytes.

(** [for (i = 0; i < buffer.length - 3; i++) ...]. *)
Definition findMarkers (buffer : list Z) : list nat :=
  filter (FilmParser.markerAt buffer) (seq 0 (length buffer - 3)).

(** The mutable variables of [extractBase09Position]. *)
Record AccState := mkAccState {
  prevC1 : option Z;
  prevC2 : option Z;
  accCum1 : Z;
  accCum2 : Z;
  frameCount : nat;
  positions : list MotionPoint
}.

Definition initState : AccState :=
  {| prevC1 := None; prevC2 := None; accCum1 := 0; accCum2 := 0;
     frameCount := 0; positions := [] |}.

Definition DISCONTINUITY_THRESHOLD : Z := 4000.

(** 16-bit wraparound for coord1, then the discontinuity filter. *)
Definition correctedDelta1 (prev c1 : Z) : Z :=
  let delta1 := c1 - prev in
  let delta1 := if bool_decide (32768 < delta1) then delta1 - 65536 else delta1 in
  let delta1 := if bool_decide (delta1 < -32768) then delta1 + 65536 else delta1 in
  if bool_decide (DISCONTINUITY_THRESHOLD < Z.abs delta1) then 0 else delta1.

(** 12-bit wraparound for coord2, then the discontinuity filter. *)
Definition correctedDelta2 (prev c2 : Z) : Z :=
  let delta2 := c2 - prev in
  let delta2 := if bool_decide (2048 < delta2) then delta2 - 4096 else delta2 in
  let delta2 := if bool_decide (delta2 < -2048) then delta2 + 4096 else delta2 in
  if bool_decide (DISCONTINUITY_THRESHOLD < Z.abs delta2) then 0 else delta2.

(** The part of the loop body that follows the computation of [c1], [c2]. *)
Definition accumulate (st : AccState) (c : Z * Z) : AccState :=
  let '(c1, c2) := c in
  let '(cum1, cum2) :=
    match prevC1 st, prevC2 st with
    | Some p1, Some p2 =>
        (accCum1 st + correctedDelta1 p1 c1, accCum2 st + correctedDelta2 p2 c2)
    | _, _ => (accCum1 st, accCum2 st)
    end in
  {| prevC1 := Some c1; prevC2 := Some c2;
     accCum1 := cum1; accCum2 := cum2;
     frameCount := S (frameCount st);
     positions := positions st ++
       [ {| frame := frameCount st; cumCoord1 := cum1; cumCoord2 := cum2;
            raw1 := c1; raw2 := c2 |} ] |}.

(** A cell of a chunk at an index the length guard has checked. *)
Definition cell (chunk : list Z) (i : nat) : Z := default 0 (chunk !! i).

(** The filters of the loop body: [None] is [continue], [Some (c1, c2)] the
    raw pair of a position frame of [playerIndex]. *)
Definition base09Sample (chunk : list Z) (playerIndex : Z) (pos : nat)
  : option (Z * Z) :=
  if bool_decide (length chunk ≤ pos + 13)%nat then None
  else
    let byte5 := cell chunk (pos + 5) in
    let byte6 := cell chunk (pos + 6) in
    if bool_decide (byte5 ≠ 0x40) then None
    else if bool_decide (getPlayerIndex byte6 ≠ playerIndex) then None
    else if bool_decide (getBaseType byte6 ≠ 0x09) then None
    else
      let b0 := cell chunk (pos + 10) in
      if bool_decide (JS.shr b0 4 ≠ 4) then None
      else
        let b1 := cell chunk (pos + 11) in
        let b2 := cell chunk (pos + 12) in
        let b3 := cell chunk (pos + 13) in
        let c1 := b0 * 256 + b1 in
        let c2 := JS.bor (JS.shl (JS.band b2 0x0f) 8) b3 in
        Some (c1, c2).

Definition markerStep (chunk : list Z) (playerIndex : Z)
    (st : AccState) (pos : nat) : AccState :=
  match base09Sample chunk playerIndex pos with
  | None => st
  | Some c => accumulate st c
  end.

Definition chunkStep (playerIndex : Z) (st : AccState) (chunk : list Z)
  : AccState :=
  foldl (markerStep chunk playerIndex) st (findMarkers chunk).

Definition extractBase09Position (chunks : list (list Z)) (playerIndex : Z)
  : list MotionPoint :=
  positions (foldl (chunkStep playerIndex) initState chunks).

(** The raw pairs of the position frames of [playerIndex], in scan order. *)
Definition base09Samples (chunks : list (list Z)) (playerIndex : Z)
  : list (Z * Z) :=
  chunks ≫= λ chunk, omap (base09Sample chunk playerIndex) (findMarkers chunk).

(** Replaying the accumulation over raw pairs from a given state. *)
Definition replay (st : AccState) (samples : list (Z * Z)) : AccState :=
  foldl accumulate st samples.

(** The state a replay from sample [k] starts in: the raw values of sample
    [k] as the previous raws, its running totals, its sample index. *)
Definition restartAt (p : MotionPoint) : AccState :=
  {| prevC1 := Some (raw1 p); prevC2 := Some (raw2 p);
     accCum1 := cumCoord1 p; accCum2 := cumCoord2 p;
     frameCount := frame p; positions := [] |}.

(** The state with [ps] put in front of the positions pushed so far. *)
Definition addPositions (ps : list MotionPoint) (st : AccState) : AccState :=
  {| prevC1 := prevC1 st; prevC2 := prevC2 st; accCum1 := accCum1 st;
     accCum2 := accCum2 st; frameCount := frameCount st;
     positions := ps ++ positions st |}.

(** The state with an empty output array. *)
Definition clearPositions (st : AccState) : AccState :=
  {| prevC1 := prevC1 st; prevC2 := prevC2 st; accCum1 := accCum1 st;
     accCum2 := accCum2 st; frameCount := frameCount st; positions := [] |}.

(** *** [extract40088064]: frames of one exact type, full 16-bit coord1 *)

(** [chunk.subarray(pos + 5, pos + 9).toString('hex')], read where the
    length guard has passed: two lower-case digits per byte. *)
Definition typeBytes (chunk : list Z) (pos : nat) : string :=
  (JS.toHex2 (cell chunk (pos + 5)) +:+ JS.toHex2 (cell chunk (pos + 6))
   +:+ JS.toHex2 (cell chunk (pos + 7)) +:+ JS.toHex2 (cell chunk (pos + 8)))%string.

(** The filters of the loop body of [extract40088064] and its raw pair. *)
Definition sample88064 (chunk : list Z) (targetType : string) (pos : nat)
  : option (Z * Z) :=
  if bool_decide (length chunk ≤ pos + 13)%nat then None
  else if bool_decide (typeBytes chunk pos ≠ targetType) then None
  else
    let b0 := cell chunk (pos + 10) in
    let b1 := cell chunk (pos + 11) in
    let b2 := cell chunk (pos + 12) in
    let b3 := JS.band (cell chunk (pos + 13)) 0x7f in
    Some (b0 * 256 + b1, b2 * 256 + b3).

(** The adaptive wraparound of coord1: [if (delta1 > 16384) ... else if
    (delta1 < -32768) ...]. *)
Definition adaptiveDelta1 (prev c1 : Z) : Z :=
  let delta1 := c1 - prev in
  if bool_decide (16384 < delta1) then delta1 - 65536
  else if bool_decide (delta1 < -32768) then delta1 + 65536
  else delta1.

(** The wraparound of coord2: two [if ... else if ...] in a row. *)
Definition adaptiveDelta2 (prev c2 : Z) : Z :=
  let delta2 := c2 - prev in
  let delta2 :=
    if bool_decide (32768 < delta2) then delta2 - 65536
    else if bool_decide (16384 < delta2) then delta2 - 32768
    else delta2 in
  if bool_decide (delta2 < -32768) then delta2 + 65536
  else if bool_decide (delta2 < -16384) then delta2 + 32768
  else delta2.

(** The part of the loop body that follows the computation of the raw
    pair; there is no discontinuity filter here. *)
Definition accumulate88064 (st : AccState) (c : Z * Z) : AccState :=
  let '(c1, c2) := c in
  let '(cum1, cum2) :=
    match prevC1 st, prevC2 st with
    | Some p1, Some p2 =>
        (accCum1 st + adaptiveDelta1 p1 c1, accCum2 st + adaptiveDelta2 p2 c2)
    | _, _ => (accCum1 st, accCum2 st)
    end in
  {| prevC1 := Some c1; prevC2 := Some c2;
     accCum1 := cum1; accCum2 := cum2;
     frameCount := S (frameCount st);
     positions := positions st ++
       [ {| frame := frameCount st; cumCoord1 := cum1; cumCoord2 := cum2;
            raw1 := c1; raw2 := c2 |} ] |}.

Definition markerStep88064 (chunk : list Z) (targetType : string)
    (st : AccState) (pos : nat) : AccState :=
  match sample88064 chunk targetType pos with
  | None => st
  | Some c => accumulate88064 st c
  end.

Definition extract40088064 (chunks : list (list Z)) (targetType : string)
  : list MotionPoint :=
  positions
    (foldl (λ st chunk,
              foldl (markerStep88064 chunk targetType) st (findMarkers chunk))
           initState chunks).

(** The points pushed so far form a chain under the adaptive deltas, and the
    loop variables are those of the last point. *)
Definition chained88064 (st : AccState) : Prop :=
  (∀ k p q, positions st !! k = Some p → positions st !! S k = Some q →
            cumCoord1 q = cumCoord1 p + adaptiveDelta1 (raw1 p) (raw1 q)
            ∧ cumCoord2 q = cumCoord2 p + adaptiveDelta2 (raw2 p) (raw2 q))
  ∧ match last (positions st) with
    | None => prevC1 st = None ∧ prevC2 st = None
    | Some l => prevC1 st = Some (raw1 l) ∧ prevC2 st = Some (raw2 l)
                ∧ accCum1 st = cumCoord1 l ∧ accCum2 st = cumCoord2 l
    end.

End MotionExtractor.

(** ** Cumulative coordinates of the aim page (viewer, [scalePositions]) *)
Module AimPage.

Record ScaleState := mkScaleState {
  cumC1 : Z;
  cumC2 : Z;
  prevRaw1 : option Z;
  prevRaw2 : option Z;
  points : list (Z * Z)
}.

Definition wrap16 (delta1 : Z) : Z :=
  let delta1 := if bool_decide (32768 < delta1) then delta1 - 65536 else delta1 in
  if bool_decide (delta1 < -32768) then delta1 + 65536 else delta1.

Definition wrap12 (delta2 : Z) : Z :=
  let delta2 := if bool_decide (2048 < delta2) then delta2 - 4096 else delta2 in
  if bool_decide (delta2 < -2048) then delta2 + 4096 else delta2.

(** One round of the loop over [posFrames] that builds [points]; the frames
    passed in are position frames, whose [coord1] and [coord2] are set.
    [prevRaw2] is set whenever [prevRaw1] is ([raw2 - null] would be
    [raw2]). *)
Definition pointStep (st : ScaleState) (raw : Z * Z) : ScaleState :=
  let '(raw1, raw2) := raw in
  match prevRaw1 st with
  | None =>
      {| cumC1 := cumC1 st; cumC2 := cumC2 st;
         prevRaw1 := Some raw1; prevRaw2 := Some raw2;
         points := points st ++ [(0, 0)] |}
  | Some p1 =>
      let c1 := cumC1 st + wrap16 (raw1 - p1) in
      let c2 := cumC2 st + wrap12 (raw2 - default 0 (prevRaw2 st)) in
      {| cumC1 := c1; cumC2 := c2;
         prevRaw1 := Some raw1; prevRaw2 := Some raw2;
         points := points st ++ [(c1, c2)] |}
  end.

Definition cumulativePoints (raws : list (Z * Z)) : list (Z * Z) :=
  points (foldl pointStep
            {| cumC1 := 0; cumC2 := 0; prevRaw1 := None; prevRaw2 := None;
               points := [] |} raws).

(** [frames.filter(f => f.isPositionFrame && f.playerIndex === 0)]. *)
Definition posFrames (frames : list FilmParser.ParsedFrame)
  : list FilmParser.ParsedFrame :=
  filter (λ f, FilmParser.isPositionFrame f = true
               ∧ FilmParser.playerIndex f = 0) frames.

(** [f.coord1!] and [f.coord2!] of the frames handed to [scalePositions]. *)
Definition rawsOf (frames : list FilmParser.ParsedFrame) : list (Z * Z) :=
  (λ f, (default 0 (FilmParser.coord1 f), default 0 (FilmParser.coord2 f)))
    <$> frames.

(** No step after [p] is a discontinuity: every wrapped difference between
    neighbours stays within 4000. *)
Fixpoint smoothAfter (p : Z * Z) (raws : list (Z * Z)) : Prop :=
  match raws with
  | [] => True
  | x :: raws' =>
      (Z.abs (wrap16 (x.1 - p.1)) ≤ 4000 ∧ Z.abs (wrap12 (x.2 - p.2)) ≤ 4000)
      ∧ smoothAfter x raws'
  end.

Definition smooth (raws : list (Z * Z)) : Prop :=
  match raws with
  | [] => True
  | x :: raws' => smoothAfter x raws'
  end.

(** The viewer's loop state and the CLI's loop state after the same raw
    pairs. *)
Definition pathsAgree (sa : ScaleState) (sc : MotionExtractor.AccState) : Prop :=
  prevRaw1 sa = MotionExtractor.prevC1 sc
  ∧ prevRaw2 sa = MotionExtractor.prevC2 sc
  ∧ (MotionExtractor.prevC1 sc = None ↔ MotionExtractor.prevC2 sc = None)
  ∧ cumC1 sa = MotionExtractor.accCum1 sc
  ∧ cumC2 sa = MotionExtractor.accCum2 sc
  ∧ (MotionExtractor.prevC1 sc = None →
     MotionExtractor.accCum1 sc = 0 ∧ MotionExtractor.accCum2 sc = 0)
  ∧ points sa
    = (λ p, (MotionExtractor.cumCoord1 p, MotionExtractor.cumCoord2 p))
        <$> MotionExtractor.positions sc.

End AimPage.

(** ** Octahedral aim decoder (viewer/octahedral-decode.ts)

    JavaScript numbers are IEEE-754 binary64 values, as are Rocq's primitive
    floats. *)
Module Octahedral.

Record Vec3 := mkVec3 { x : float; y : float; z : float }.

(** [Math.max(0, a)]. *)
Definition max0 (a : float) : float :=
  if PrimFloat.is_nan a then a
  else if PrimFloat.ltb 0 a then a else 0%float.

(** An integer in [0, 255] as a number. *)
Definition ofByte (u : Z) : float := PrimFloat.of_uint63 (Uint63.of_Z u).

Definition EPS : float := 1e-10%float.

(** The vector before normalisation: [{x, y, z}] of the source. *)
Definition faceVector (octantByte aimUint16 : Z) : Vec3 :=
  let octant := JS.band octantByte 0x07 in
  let u := JS.band (JS.shr aimUint16 8) 0xff in
  let v := JS.band aimUint16 0xff in
  let fu := (ofByte u / 255)%float in
  let fv := (ofByte v / 255)%float in
  let a := fu in
  let b := fv in
  let c := max0 (1 - a - b)%float in
  let sx := if bool_decide (JS.band octant 1 ≠ 0) then (-1)%float else 1%float in
  let sy := if bool_decide (JS.band octant 2 ≠ 0) then (-1)%float else 1%float in
  let sz := if bool_decide (JS.band octant 4 ≠ 0) then (-1)%float else 1%float in
  {| x := (sx * a)%float; y := (sy * b)%float; z := (sz * c)%float |}.

(** [Math.sqrt(x * x + y * y + z * z)]. *)
Definition vlen (w : Vec3) : float :=
  PrimFloat.sqrt (x w * x w + y w * y w + z w * z w)%float.

(** The closing normalisation, with its guard against a vanishing length. *)
Definition normalize (w : Vec3) : Vec3 :=
  let len := vlen w in
  if PrimFloat.ltb len EPS then {| x := 0; y := 0; z := 1 |}
  else {| x := (x w / len)%float; y := (y w / len)%float;
          z := (z w / len)%float |}.

Definition decodeOctahedralAim (octantByte aimUint16 : Z) : Vec3 :=
  normalize (faceVector octantByte aimUint16).





End Octahedral.

(** ** Fire-event scanner (viewer/fire-scanner.ts) *)
Module FireScanner.

Record FireEvent := mkFireEvent {
  offset : nat;
  chunkIndex : nat;
  counter : Z;
  slot : Z;
  weaponId : string;
  weaponName : string;
  octantByte : Z;
  aimUint16 : Z;
  aimDirection : Octahedral.Vec3
}.

Record FireScanResult := mkFireScanResult {
  events : list FireEvent;
  weaponCounts : gmap string nat
}.

Definition WEAPON_IDS : gmap string string :=
  list_to_map [
    ("48c19d2d42c9679f", "MA40 AR");
    ("f408190f42c9679f", "Mk51 Sidekick");
    ("2b1824d542c9679f", "BR75");
    ("2fb21c8742c9679f", "M392 Bandit");
    ("fd98554c42c9679f", "VK78 Commando");
    ("0a1992bc42c9679f", "S7 Sniper");
    ("b619d84a42c9679f", "CQS48 Bulldog");
    ("71ab0a2c42c9679f", "M41 SPNKr");
    ("b533957e42c9679f", "Needler");
    ("7e53b3c642c9679f", "Pulse Carbine");
    ("04e7f00b42c9679f", "Plasma Pistol");
    ("c24e549e42c9679f", "Sentinel Beam");
    ("3d34488542c9679f", "Heatwave");
    ("f5ef3bdb42c9679f", "Stalker Rifle");
    ("fcc6aa7642c9679f", "Shock Rifle");
    ("7deb133f42c9679f", "Mangler");
    ("cb30ec5e42c9679f", "Disruptor");
    ("2b1d61e442c9679f", "Ravager");
    ("7a11aeef42c9679f", "Skewer");
    ("c2a6d5e042c9679f", "Cindershot");
    ("1f6ae65542c9679f", "Hydra");
    ("8afc085542c9679f", "Gravity Hammer");
    ("1488d0bb42c9679f", "Energy Sword");
    ("b6dbead842c9679f", "Frag Grenade");
    ("c1e1bab042c9679f", "Plasma Grenade")
  ]%string.

Definition WEAPON_SUFFIX : string := "42c9679f".

(** The nibble-shifted byte [((data[i] << 4) | (data[i+1] >> 4)) & 0xff]. *)
Definition shifted (data : list Z) (i : nat) : Z :=
  JS.band (JS.bor (JS.shl (JS.int32_of (data !! i)) 4)
                  (JS.shr (JS.int32_of (data !! (i + 1)%nat)) 4)) 0xff.

Definition readShifted (data : list Z) (pos : nat) : Z :=
  if bool_decide (length data ≤ pos + 1)%nat then 0 else shifted data pos.

Definition readShiftedHex (data : list Z) (pos count : nat) : string :=
  foldl (λ hex i, (hex +:+ JS.toHex2 (readShifted data (pos + i)))%string)
        EmptyString (seq 0 count).

Definition readShiftedU16 (data : list Z) (pos : nat) : Z :=
  let hi := readShifted data pos in
  let lo := readShifted data (pos + 1) in
  JS.bor (JS.shl hi 8) lo.

Definition getChunkIndex (off : nat) (chunkOffsets : list Z) : nat :=
  FilmParser.getChunkIndex (Z.of_nat off) chunkOffsets.

(** [s.endsWith(suffix)]. *)
Definition endsWith (s suffix : string) : bool :=
  bool_decide (String.length suffix ≤ String.length s)%nat
  && String.eqb
       (substring (String.length s - String.length suffix)
                  (String.length suffix) s)
       suffix.

(** The checks a position goes through before its fields are decoded; each
    [false] is one [continue] of the loop. *)
Definition leadMatches (data : list Z) (i : nat) : bool :=
  bool_decide (shifted data i = 0x0d)
  && bool_decide (shifted data (i + 1) = 0x26)
  && bool_decide (JS.band (shifted data (i + 3)) 0xfc = 0x40).

Definition eventAt (data chunkOffsets : list Z) (i : nat) : option FireEvent :=
  if negb (leadMatches data i) then None
  else if bool_decide (length data ≤ i + 17)%nat then None
  else
    let counter := readShifted data (i + 4) in
    let slot := readShifted data (i + 5) in
    if bool_decide (slot ≠ 0x01) && bool_decide (slot ≠ 0x03) then None
    else if bool_decide (Z.rem counter 4 ≠ 0) then None
    else
      let weaponId := readShiftedHex data (i + 6) 8 in
      if negb (endsWith weaponId WEAPON_SUFFIX) then None
      else
        let octantByte := readShifted data (i + 14) in
        let aimUint16 := readShiftedU16 data (i + 15) in
        let weaponName := default "Unknown"%string (WEAPON_IDS !! weaponId) in
        let aimDirection := Octahedral.decodeOctahedralAim octantByte aimUint16 in
        Some {| offset := i; chunkIndex := getChunkIndex i chunkOffsets;
                counter := counter; slot := slot; weaponId := weaponId;
                weaponName := weaponName; octantByte := octantByte;
                aimUint16 := aimUint16; aimDirection := aimDirection |}.

(** One round of the scan loop on the pair of results it fills. *)
Definition scanStep (data chunkOffsets : list Z)
    (r : FireScanResult) (i : nat) : FireScanResult :=
  match eventAt data chunkOffsets i with
  | None => r
  | Some e =>
      {| events := events r ++ [e];
         weaponCounts :=
           <[ weaponName e := S (default O (weaponCounts r !! weaponName e)) ]>
             (weaponCounts r) |}
  end.

Definition scanFireEvents (data chunkOffsets : list Z) : FireScanResult :=
  foldl (scanStep data chunkOffsets)
        {| events := []; weaponCounts := ∅ |}
        (seq 0 (length data - 20)).

(** The number of events that carry the weapon name [name]. *)
Definition eventsNamed (name : string) (es : list FireEvent) : nat :=
  length (filter (λ e, weaponName e = name) es).

End FireScanner.

(** ** Bond Compact Binary v2 parser (cli/bond-parser.ts) *)
Module BondParser.

Module BondType.
Definition stop : Z := 0.
Definition stop_base : Z := 1.
Definition bool : Z := 2.
Definition uint8 : Z := 3.
Definition uint16 : Z := 4.
Definition uint32 : Z := 5.
Definition uint64 : Z := 6.
Definition float : Z := 7.
Definition double : Z := 8.
Definition string : Z := 9.
Definition struct : Z := 10.
Definition list : Z := 11.
Definition set : Z := 12.
Definition map : Z := 13.
Definition int8 : Z := 14.
Definition int16 : Z := 15.
Definition int32 : Z := 16.
Definition int64 : Z := 17.
Definition wstring : Z := 18.
End BondType.

Definition TypeName : gmap Z string :=
  list_to_map [
    (BondType.stop, "stop"); (BondType.stop_base, "stop_base");
    (BondType.bool, "bool"); (BondType.uint8, "uint8");
    (BondType.uint16, "uint16"); (BondType.uint32, "uint32");
    (BondType.uint64, "uint64"); (BondType.float, "float");
    (BondType.double, "double"); (BondType.string, "string");
    (BondType.struct, "struct"); (BondType.list, "list");
    (BondType.set, "set"); (BondType.map, "map");
    (BondType.int8, "int8"); (BondType.int16, "int16");
    (BondType.int32, "int32"); (BondType.int64, "int64");
    (BondType.wstring, "wstring")
  ]%string.

(** [TypeName[type] || `type_${type}`]. *)
Definition typeNameOf (type : Z) : string :=
  default ("type_" +:+ pretty type)%string (TypeName !! type).

(** An entry of the blob side table; [blob_data] holds the bytes whose
    base64 text the source stores. *)
Record Blob := mkBlob {
  blob_index : nat;
  blob_length : Z;
  blob_data : list Z
}.

(** The object [readList] returns: [l_data], [l_blobRef] and [l_items] are
    the optional properties [data], [_blobRef] and [items]. *)
Record BondList (V : Type) := mkBondList {
  l_isSet : bool;
  l_elemType : string;
  l_count : Z;
  l_data : option string;
  l_blobRef : option nat;
  l_items : option (list V)
}.
Arguments mkBondList {V}.
Arguments l_isSet {V}.
Arguments l_elemType {V}.
Arguments l_count {V}.
Arguments l_data {V}.
Arguments l_blobRef {V}.
Arguments l_items {V}.

Record BondMap (V : Type) := mkBondMap {
  m_keyType : string;
  m_valType : string;
  m_count : Z;
  m_entries : list (V * V)
}.
Arguments mkBondMap {V}.

Record BondStruct (V : Type) := mkBondStruct {
  fields : gmap string (string * V);
  hasBaseClass : bool
}.
Arguments mkBondStruct {V}.
Arguments fields {V}.
Arguments hasBaseClass {V}.

(** Decoded values. Floats keep their bit pattern and strings their bytes:
    the IEEE-754 and UTF decoders belong to the runtime. *)
Inductive BondValue :=
| VUndefined
| VBool (b : bool)
| VNumber (n : Z)
| VFloat (bits : Z)
| VDouble (bits : Z)
| VString (bytes : list Z)
| VWString (bytes : list Z)
| VStruct (s : BondStruct BondValue)
| VList (l : BondList BondValue)
| VMap (m : BondMap BondValue)
| VUnknown (type : Z).

(** The reader's cursor and the unpacker's blob table. *)
Record RState := mkRState {
  pos : nat;
  blobs : list Blob
}.

Definition M (A : Type) : Type := RState → res (A * RState).

Definition ret {A} (a : A) : M A := λ st, Ok (a, st).

Definition bind {A B} (m : M A) (k : A → M B) : M B :=
  λ st, match m st with
        | Ok (a, st') => k a st'
        | Throw => Throw
        | OutOfFuel => OutOfFuel
        end.

Declare Scope reader_scope.
Delimit Scope reader_scope with reader.
Notation "'let*' x ':=' m 'in' k" := (bind m (λ x, k))
  (at level 10, x name, m at level 100, k at level 200) : reader_scope.
Local Open Scope reader_scope.

Definition getPos : M nat := λ st, Ok (pos st, st).
Definition setPos (p : nat) : M unit :=
  λ st, Ok (tt, {| pos := p; blobs := blobs st |}).
Definition getBlobs : M (list Blob) := λ st, Ok (blobs st, st).
Definition pushBlob (b : Blob) : M unit :=
  λ st, Ok (tt, {| pos := pos st; blobs := blobs st ++ [b] |}).
Definition throw {A} : M A := λ _, Throw.

(** Little-endian and big-endian integers of a byte sequence. *)
Fixpoint le_int (bs : list Z) : Z :=
  match bs with
  | [] => 0
  | b :: bs' => b + 256 * le_int bs'
  end.

Definition be_int (bs : list Z) : Z := le_int (reverse bs).

Definition printable (b : Z) : bool :=
  (bool_decide (32 ≤ b) && bool_decide (b < 127))
  || bool_decide (b = 10) || bool_decide (b = 13) || bool_decide (b = 9)
  || bool_decide (b = 0).

(** [bytes.toString('utf8').replace(/\0/g, '')] for bytes that passed
    [printable]. *)
Definition textOf (bytes : list Z) : string :=
  string_of_list_ascii
    ((λ b, ascii_of_nat (Z.to_nat b)) <$> filter (λ b, b ≠ 0) bytes).

(** The loop of [leb128u] over the bytes left: the value and the number of
    bytes taken. The BigInt accumulator is exact, and so is [Number(result)]
    for a value below 2^53; from 2^53 on the source rounds to a double and
    this model does not, so statements about the value, or about a count, a
    length or a cursor computed from it, carry that bound. *)
Fixpoint leb128u_go (bs : list Z) (result shift : Z) (n : nat) : Z * nat :=
  match bs with
  | [] => (result, n)
  | byte :: bs' =>
      let result := Z.lor result (Z.shiftl (Z.land byte 0x7f) shift) in
      if bool_decide (Z.land byte 0x80 = 0) then (result, S n)
      else leb128u_go bs' result (shift + 7) (S n)
  end.

(** The bytes one varint takes: up to and with the first byte whose high
    bit is clear, or all the bytes left when there is none. *)
Fixpoint varintBytes (bs : list Z) : list Z :=
  match bs with
  | [] => []
  | b :: bs' =>
      if bool_decide (Z.land b 0x80 = 0) then [b] else b :: varintBytes bs'
  end.

(** The value of 7-bit groups, least significant first. *)
Fixpoint base128 (bs : list Z) : Z :=
  match bs with
  | [] => 0
  | b :: bs' => Z.land b 0x7f + 128 * base128 bs'
  end.

(** A blob table whose entries carry their own position as index. *)
Definition indexed (bl : list Blob) : Prop :=
  ∀ i b, bl !! i = Some b → blob_index b = i.

(** From [st] to [st']: the cursor did not move back, and the blob table was
    only extended, keeping its entries indexed by position. *)
Definition extends (st st' : RState) : Prop :=
  (pos st ≤ pos st')%nat
  ∧ blobs st `prefix_of` blobs st'
  ∧ (indexed (blobs st) → indexed (blobs st')).

(** A reader step that, when it returns, leaves an extended state. *)
Definition extending {A} (m : M A) : Prop :=
  ∀ st a st', m st = Ok (a, st') → extends st st'.

(** A reader step that finishes within the model's fuel. *)
Definition finishes {A} (m : M A) (st : RState) : Prop := m st ≠ OutOfFuel.

Section Reader.
Variable buf : list Z.

Definition eof (st : RState) : bool := bool_decide (length buf ≤ pos st)%nat.

Definition remaining (st : RState) : Z :=
  Z.of_nat (length buf) - Z.of_nat (pos st).

(** [this.buf[this.pos++]]: [None] past the end. *)
Definition u8 : M (option Z) :=
  λ st, Ok (buf !! pos st, {| pos := S (pos st); blobs := blobs st |}).

(** Node's [readInt8], [readUInt16LE], ... throw a RangeError when the
    read does not fit in the buffer. *)
Definition fixed (n : nat) : M (list Z) :=
  λ st, if bool_decide (pos st + n ≤ length buf)%nat
        then Ok (take n (drop (pos st) buf),
                 {| pos := pos st + n; blobs := blobs st |})
        else Throw.

Definition i8 : M Z :=
  let* bs := fixed 1 in
  let v := le_int bs in ret (if bool_decide (128 ≤ v) then v - 256 else v).

Definition u16 : M Z := let* bs := fixed 2 in ret (le_int bs).

Definition i32be : M Z :=
  let* bs := fixed 4 in
  let v := be_int bs in
  ret (if bool_decide (2 ^ 31 ≤ v) then v - 2 ^ 32 else v).

Definition f32 : M Z := let* bs := fixed 4 in ret (le_int bs).
Definition f64 : M Z := let* bs := fixed 8 in ret (le_int bs).

(** [subarray(pos, pos + n)] clamps to the buffer; the cursor moves by
    [n] all the same. *)
Definition bytes (n : Z) : M (list Z) :=
  λ st, Ok (take (Z.to_nat n) (drop (pos st) buf),
            {| pos := pos st + Z.to_nat n; blobs := blobs st |}).

Definition leb128u : M Z :=
  λ st, let '(r, n) := leb128u_go (drop (pos st) buf) 0 0 0 in
        Ok (r, {| pos := pos st + n; blobs := blobs st |}).

(** Zig-zag: [(u >> 1n) ^ -(u & 1n)]. *)
Definition leb128 : M Z :=
  let* u := leb128u in ret (Z.lxor (Z.shiftr u 1) (- Z.land u 1)).

(** The [while] loop of [readStruct]. Every round takes the tag byte, so
    [n] bounds the rounds by the bytes left at entry. [rv] is
    [readValue]. *)
Fixpoint readStruct_loop (rv : Z → M BondValue) (n : nat) (startPos : nat)
    (maxLen : Z) (flds : gmap string (string * BondValue)) (hasBase : bool)
    (st : RState) : res (BondStruct BondValue * RState) :=
  if eof st || negb (bool_decide (Z.of_nat (pos st) - Z.of_nat startPos < maxLen))
  then Ok ({| fields := flds; hasBaseClass := hasBase |}, st)
  else
    match n with
    | O => OutOfFuel
    | S n' =>
        let b := JS.int32_of (buf !! pos st) in
        let st1 := {| pos := S (pos st); blobs := blobs st |} in
        let type := JS.band b 0x1f in
        let fieldId := JS.shr b 5 in
        if bool_decide (type = BondType.stop)
        then Ok ({| fields := flds; hasBaseClass := hasBase |}, st1)
        else if bool_decide (type = BondType.stop_base)
        then readStruct_loop rv n' startPos maxLen flds true st1
        else
          let readId : M (option Z) :=
            if bool_decide (fieldId = 6) then u8
            else if bool_decide (fieldId = 7) then (let* v := u16 in ret (Some v))
            else ret (Some fieldId) in
          match (let* fid := readId in let* value := rv type in ret (fid, value)) st1 with
          | Ok ((fid, value), st2) =>
              let key := ("field_" +:+
                match fid with Some i => pretty i | None => "undefined" end)%string in
              readStruct_loop rv n' startPos maxLen
                (<[ key := (typeNameOf type, value) ]> flds) hasBase st2
          | Throw => Throw
          | OutOfFuel => OutOfFuel
          end
    end.

Definition readStruct (rv : Z → M BondValue) (maxLen : Z)
  : M (BondStruct BondValue) :=
  λ st, readStruct_loop rv (length buf - pos st) (pos st) maxLen ∅ false st.

(** [for (i = 0; i < count; i++) items.push(this.readValue(elemType))]. *)
Fixpoint readItems (rv : Z → M BondValue) (count : nat) (elemType : Z)
  : M (list BondValue) :=
  match count with
  | O => ret []
  | S count' =>
      let* v := rv elemType in let* vs := readItems rv count' elemType in ret (v :: vs)
  end.

(** The head of [readList]: the element type and the count. *)
Definition readListHeader : M (Z * Z) :=
  let* tc := u8 in
  let tc := JS.int32_of tc in
  let elemType := JS.band tc 0x1f in
  let count := JS.shr tc 5 in
  let* count := (if bool_decide (count = 0) then leb128u else ret (count - 1)) in
  ret (elemType, count).

Definition readList (rv : Z → M BondValue) (isSet : bool)
  : M (BondList BondValue) :=
  let* header := readListHeader in
  let '(elemType, count) := header in
  let typeName := typeNameOf elemType in
  if bool_decide (elemType = BondType.uint8)
     || bool_decide (elemType = BondType.int8)
  then
    let* bs := bytes count in
    let isText := bool_decide (0 < count) && bool_decide (count < 1000)
                  && forallb printable bs in
    if isText
    then ret {| l_isSet := isSet; l_elemType := typeName; l_count := count;
                l_data := Some (textOf bs); l_blobRef := None;
                l_items := None |}
    else
      let* bl := getBlobs in
      let blobIndex := length bl in
      let* pushed := pushBlob {| blob_index := blobIndex; blob_length := count;
                                 blob_data := bs |} in
      ret {| l_isSet := isSet; l_elemType := typeName; l_count := count;
             l_data := None; l_blobRef := Some blobIndex;
             l_items := None |}
  else
    let* items := readItems rv (Z.to_nat count) elemType in
    ret {| l_isSet := isSet; l_elemType := typeName; l_count := count;
           l_data := None; l_blobRef := None; l_items := Some items |}.

Fixpoint readEntries (rv : Z → M BondValue) (count : nat)
    (keyType valType : Z) : M (list (BondValue * BondValue)) :=
  match count with
  | O => ret []
  | S count' =>
      let* k := rv keyType in let* v := rv valType in
      let* es := readEntries rv count' keyType valType in ret ((k, v) :: es)
  end.

Definition readMap (rv : Z → M BondValue) : M (BondMap BondValue) :=
  let* kt := u8 in let keyType := JS.band (JS.int32_of kt) 0x1f in
  let* vt := u8 in let valType := JS.band (JS.int32_of vt) 0x1f in
  let* count := leb128u in
  let* entries := readEntries rv (Z.to_nat count) keyType valType in
  ret {| m_keyType := typeNameOf keyType; m_valType := typeNameOf valType;
         m_count := count; m_entries := entries |}.

(** The [switch] of [readValue], with [rv] for its recursive calls. *)
Definition readValue_body (rv : Z → M BondValue) (type : Z) : M BondValue :=
  if bool_decide (type = BondType.bool) then
    let* b := u8 in ret (VBool (negb (bool_decide (b = Some 0))))
  else if bool_decide (type = BondType.uint8) then
    let* b := u8 in ret (match b with Some v => VNumber v | None => VUndefined end)
  else if bool_decide (type = BondType.int8) then
    let* v := i8 in ret (VNumber v)
  else if bool_decide (type = BondType.uint16)
          || bool_decide (type = BondType.uint32)
          || bool_decide (type = BondType.uint64) then
    let* v := leb128u in ret (VNumber v)
  else if bool_decide (type = BondType.int16)
          || bool_decide (type = BondType.int32)
          || bool_decide (type = BondType.int64) then
    let* v := leb128 in ret (VNumber v)
  else if bool_decide (type = BondType.float) then
    let* v := f32 in ret (VFloat v)
  else if bool_decide (type = BondType.double) then
    let* v := f64 in ret (VDouble v)
  else if bool_decide (type = BondType.string) then
    let* len := leb128u in
    if bool_decide (len = 0) then ret (VString [])
    else (let* bs := bytes len in ret (VString bs))
  else if bool_decide (type = BondType.wstring) then
    let* len := leb128u in
    if bool_decide (len = 0) then ret (VWString [])
    else (let* bs := bytes (len * 2) in ret (VWString bs))
  else if bool_decide (type = BondType.struct) then
    let* len := leb128u in
    let* p := getPos in
    let endPos := (p + Z.to_nat len)%nat in
    let* result := readStruct rv len in
    let* moved := setPos endPos in
    ret (VStruct result)
  else if bool_decide (type = BondType.list)
          || bool_decide (type = BondType.set) then
    let* l := readList rv (bool_decide (type = BondType.set)) in ret (VList l)
  else if bool_decide (type = BondType.map) then
    let* m := readMap rv in ret (VMap m)
  else ret (VUnknown type).

(** [readValue]: [fuel] bounds the nesting depth of the values. *)
Fixpoint readValue (fuel : nat) : Z → M BondValue :=
  match fuel with
  | O => λ _ _, OutOfFuel
  | S fuel' => readValue_body (readValue fuel')
  end.

End Reader.

(** The object stored under [_compressedData]. *)
Record Compressed (D : Type) := mkCompressed {
  compression : string;
  compressedSize : Z;
  decompressedSize : nat;
  inner : D
}.
Arguments mkCompressed {D}.
Arguments compression {D}.
Arguments compressedSize {D}.
Arguments decompressedSize {D}.
Arguments inner {D}.

Inductive BondDocument :=
| mkBondDocument (format : string) (fileSize : Z) (outerLength : Z)
    (content : BondStruct BondValue) (docBlobs : list Blob)
    (compressedData : option (Compressed BondDocument)).

Definition doc_content (d : BondDocument) : BondStruct BondValue :=
  let 'mkBondDocument _ _ _ c _ _ := d in c.
Definition doc_outerLength (d : BondDocument) : Z :=
  let 'mkBondDocument _ _ l _ _ _ := d in l.
Definition doc_blobs (d : BondDocument) : list Blob :=
  let 'mkBondDocument _ _ _ _ b _ := d in b.
Definition doc_compressedData (d : BondDocument)
  : option (Compressed BondDocument) :=
  let 'mkBondDocument _ _ _ _ _ c := d in c.

(** The document [unpack] builds around the outer struct. *)
Definition outerDoc (buf : list Z) (outerLen : Z) (ms : BondStruct BondValue)
    (st : RState) (nested : option (Compressed BondDocument)) : BondDocument :=
  mkBondDocument "Bond Compact Binary v2" (Z.of_nat (length buf)) outerLen ms
                 (blobs st) nested.

Section Unpack.
(** [inflateRawSync] and [inflateSync] of node:zlib; [None] is the error
    they throw on input they cannot decompress. *)
Variable inflateRawSync : list Z → option (list Z).
Variable inflateSync : list Z → option (list Z).

(** [new BondUnpacker(decompressed).unpack()] inside a [try]: a thrown
    exception is caught ([None]). *)
Definition tryInflate (unpackInner : list Z → res BondDocument)
    (inflate : list Z → option (list Z)) (kind : string) (size : Z)
    (compressed : list Z) : res (option (Compressed BondDocument)) :=
  match inflate compressed with
  | None => Ok None
  | Some decompressed =>
      match unpackInner decompressed with
      | Ok innerData =>
          Ok (Some {| compression := kind; compressedSize := size;
                      decompressedSize := length decompressed;
                      inner := innerData |})
      | Throw => Ok None
      | OutOfFuel => OutOfFuel
      end
  end.

(** The head of [readCompressedBlob]: the big-endian size and the bytes it
    announces; [None] when the size cannot be read, is not positive, or
    exceeds what is left ([return null]). *)
Definition compressedPayload (buf : list Z) (st : RState)
  : option (Z * list Z) :=
  match i32be buf st with
  | Ok (size, st1) =>
      if bool_decide (size ≤ 0) || bool_decide (remaining buf st1 < size)
      then None
      else
        match bytes buf size st1 with
        | Ok (compressed, _) => Some (size, compressed)
        | _ => None
        end
  | _ => None
  end.

Definition readCompressedBlob (unpackInner : list Z → res BondDocument)
    (buf : list Z) (st : RState) : res (option (Compressed BondDocument)) :=
  match compressedPayload buf st with
  | None => Ok None
  | Some (size, compressed) =>
      match tryInflate unpackInner inflateRawSync "deflate" size compressed with
      | Ok (Some blob) => Ok (Some blob)
      | Ok None => tryInflate unpackInner inflateSync "zlib" size compressed
      | Throw => Throw
      | OutOfFuel => OutOfFuel
      end
  end.

(** The scan for padding: among the first [min(remaining, 100)] bytes
    left, all are zero. *)
Definition allZeros (buf : list Z) (st : RState) : bool :=
  forallb (λ b, bool_decide (b = 0))
          (take (Z.to_nat (Z.min (remaining buf st) 100)) (drop (pos st) buf)).

(** [unpack] with [unpackInner] for the unpacker of a nested document. *)
Definition unpack_body (unpackInner : list Z → res BondDocument)
    (buf : list Z) : res BondDocument :=
  match leb128u buf {| pos := 0; blobs := [] |} with
  | Ok (outerLen, st1) =>
      let contentStart := pos st1 in
      match readStruct buf (readValue buf (S (length buf))) outerLen st1 with
      | Ok (mainStruct, st2) =>
          let bytesRead := Z.of_nat (pos st2) - Z.of_nat contentStart in
          let blob :=
            if bool_decide (bytesRead < outerLen)
               && bool_decide (0 < remaining buf st2)
            then
              if allZeros buf st2 then Ok None
              else readCompressedBlob unpackInner buf st2
            else Ok None in
          match blob with
          | Ok compressedData =>
              Ok (outerDoc buf outerLen mainStruct st2 compressedData)
          | Throw => Throw
          | OutOfFuel => OutOfFuel
          end
      | Throw => Throw
      | OutOfFuel => OutOfFuel
      end
  | Throw => Throw
  | OutOfFuel => OutOfFuel
  end.

(** [unpack]: [depth] bounds the nesting of compressed documents. *)
Fixpoint unpack (depth : nat) (buf : list Z) : res BondDocument :=
  match depth with
  | O => OutOfFuel
  | S depth' => unpack_body (unpack depth') buf
  end.

Definition parseBond (depth : nat) (buffer : list Z) : res BondDocument :=
  unpack depth buffer.

End Unpack.

End BondParser.

(** ** Sample inputs used to run the decoders *)
Module Samples.

(** Two markers three bytes apart, then seventeen more bytes. *)
Definition twoMarkers : list Z :=
  [0xa0; 0x7b; 0x42; 0xa0; 0x7b; 0x42] ++ replicate 17 0.

(** A marker at offset 100 followed by [n] more bytes. *)
Definition markerAt100 (n : nat) : list Z :=
  replicate 100 0 ++ [0xa0; 0x7b; 0x42] ++ replicate n 0x11.

(** A 20-byte position frame of player 0 with the data bytes given. *)
Definition positionFrame (b0 b1 b2 b3 : Z) : list Z :=
  [0xa0; 0x7b; 0x42; 0; 1; 0x40; 0x09; 0; 5; 0; b0; b1; b2; b3;
   0; 0; 0; 0; 0; 0].

(** Two position frames of player 0 with, between them, two frames of the
    same type whose coordinate bytes spell 65530 (ff fa) and 5 (00 05). *)
Definition wrapBase09 : list Z :=
  positionFrame 0x40 0x10 0x01 0x20 ++ positionFrame 0xff 0xfa 0x00 0x0a
  ++ positionFrame 0x00 0x05 0x00 0x0a ++ positionFrame 0x40 0x1a 0x01 0x20
  ++ replicate 4 0.

(** A 20-byte frame of type 40088064 with the data bytes given. *)
Definition frame88064 (b0 b1 b2 b3 : Z) : list Z :=
  [0xa0; 0x7b; 0x42; 0; 1; 0x40; 0x08; 0x80; 0x64; 0; b0; b1; b2; b3;
   0; 0; 0; 0; 0; 0].

(** Two frames of type 40088064 with raw pairs (65530, 10) and (5, 10). *)
Definition wrap88064 : list Z :=
  frame88064 0xff 0xfa 0x00 0x0a ++ frame88064 0x00 0x05 0x00 0x0a
  ++ replicate 4 0.

(** A chunk of three position frames. *)
Definition threeFrames : list Z :=
  positionFrame 0x40 0x10 0x01 0x20 ++ positionFrame 0x40 0x30 0x01 0x25
  ++ positionFrame 0x41 0x00 0x0f 0xf0 ++ replicate 4 0.

(** The frames the scanner finds in [threeFrames]. *)
Definition threeParsed : list FilmParser.ParsedFrame :=
  default [] (FilmParser.parseFrames threeFrames [0]).

(** Bytes whose reading at a 4-bit shift gives [logical]: the nibbles of
    [logical] behind one leading nibble 0, padded with [pad] zero bytes. *)
Fixpoint pairNibbles (ns : list Z) : list Z :=
  match ns with
  | hi :: lo :: ns' => (hi * 16 + lo) :: pairNibbles ns'
  | _ => []
  end.

Definition nibbleShifted (logical : list Z) (pad : nat) : list Z :=
  pairNibbles (0 :: (logical ≫= λ b, [b `div` 16; b `mod` 16]) ++ [0])
  ++ replicate pad 0.

(** A fire event of the MA40 AR: lead 0d 26 00 40, counter 4, slot 1. *)
Definition fireAR : list Z :=
  nibbleShifted [0x0d; 0x26; 0x00; 0x40; 0x04; 0x01;
                 0x48; 0xc1; 0x9d; 0x2d; 0x42; 0xc9; 0x67; 0x9f;
                 0x00; 0xff; 0x00] 8.

(** The same candidate with the last byte of the identifier changed. *)
Definition fireBadSuffix : list Z :=
  nibbleShifted [0x0d; 0x26; 0x00; 0x40; 0x04; 0x01;
                 0x48; 0xc1; 0x9d; 0x2d; 0x42; 0xc9; 0x67; 0x9e;
                 0x00; 0xff; 0x00] 8.

(** A stand-in for a decompressor: the stored bytes are the document. *)
Definition stored (compressed : list Z) : option (list Z) := Some compressed.

(** A decompressor that rejects every input. *)
Definition rejecting (compressed : list Z) : option (list Z) := None.

End Samples.

(** * Frame scanner *)
Section FrameScanner.
Import FilmParser Samples.

Implicit Types (data chunkOffsets : list Z) (pos idx : nat).

Lemma toHex2_in_range data i :
  (i < length data)%nat → is_Some (toHex2 (data !! i)).
Proof.
  intros Hi. destruct (lookup_lt_is_Some_2 data i Hi) as [v Hv].
  rewrite Hv. by eexists.
Qed.

Lemma frameAt_fits data chunkOffsets idx pos :
  fits data pos → is_Some (frameAt data chunkOffsets idx pos).
Proof.
  unfold fits. intros Hfit. unfold frameAt.
  destruct (toHex2_in_range data (pos + 5)) as [h5 ->]; [lia|].
  destruct (toHex2_in_range data (pos + 6)) as [h6 ->]; [lia|].
  destruct (toHex2_in_range data (pos + 7)) as [h7 ->]; [lia|].
  destruct (toHex2_in_range data (pos + 8)) as [h8 ->]; [lia|].
  simpl. by eexists.
Qed.

Lemma frameAt_offset data chunkOffsets idx pos f :
  frameAt data chunkOffsets idx pos = Some f → offset f = Z.of_nat pos.
Proof.
  unfold frameAt. intros H.
  destruct (toHex2 (data !! (pos + 5)%nat)); simpl in H; [|done].
  destruct (toHex2 (data !! (pos + 6)%nat)); simpl in H; [|done].
  destruct (toHex2 (data !! (pos + 7)%nat)); simpl in H; [|done].
  destruct (toHex2 (data !! (pos + 8)%nat)); simpl in H; [|done].
  by inversion H.
Qed.

(** The loop over the markers never throws, and pushes one frame for each
    marker that passes the length guard, in order. *)
Lemma parseFrames_loop data chunkOffsets ms acc :
  ∃ fs, foldl (parseFrames_step data chunkOffsets) (Some acc) ms
        = Some (acc ++ fs)
        ∧ Forall2 (emitted data chunkOffsets) fs (filter (fits data) ms).
Proof.
  revert acc. induction ms as [|pos ms IH]; intros acc.
  - exists []. split; [by rewrite app_nil_r | constructor].
  - simpl. rewrite filter_cons. unfold fits at 2.
    case_bool_decide as Hlen.
    + destruct (IH acc) as (fs & -> & HF). exists fs.
      rewrite decide_False by lia. done.
    + assert (Hfit : fits data pos) by (unfold fits; lia).
      destruct (frameAt_fits data chunkOffsets (length acc) pos Hfit) as [f Hf].
      rewrite Hf. simpl.
      destruct (IH (acc ++ [f])) as (fs & -> & HF). exists (f :: fs).
      rewrite decide_True by done.
      split; [by rewrite <- app_assoc |].
      constructor; [|done]. split; [done | by eexists].
Qed.

Lemma parseFrames_emitted data chunkOffsets :
  ∃ fs, parseFrames data chunkOffsets = Some fs
        ∧ Forall2 (emitted data chunkOffsets) fs
                  (filter (fits data) (findMarkers data)).
Proof. apply (parseFrames_loop data chunkOffsets (findMarkers data) []). Qed.

Lemma emitted_offsets data chunkOffsets fs ps :
  Forall2 (emitted data chunkOffsets) fs ps → offset <$> fs = Z.of_nat <$> ps.
Proof.
  induction 1 as [|f p fs ps [_ [idx Hf]] _ IH]; [done|].
  rewrite !fmap_cons, IH. by rewrite (frameAt_offset _ _ _ _ _ Hf).
Qed.

(** Two markers cannot start less than three bytes apart. *)
Lemma markers_apart data i j :
  markerAt data i → markerAt data j → (i < j)%nat → (i + 3 ≤ j)%nat.
Proof.
  intros (Hi0 & Hi1 & Hi2) (Hj0 & _ & _) Hlt.
  destruct (decide (j = i + 1)%nat) as [->|]; [congruence|].
  destruct (decide (j = i + 2)%nat) as [->|]; [congruence|]. lia.
Qed.

(** Positions kept by a filter of [seq] come in increasing order. *)
Lemma filter_seq_lookup_lt (P : nat → Prop) `{!∀ i, Decision (P i)} s n i j a b :
  filter P (seq s n) !! i = Some a → filter P (seq s n) !! j = Some b →
  (i < j)%nat → (a < b)%nat.
Proof.
  revert s i j. induction n as [|n IH]; intros s i j; [done|].
  simpl. rewrite filter_cons. destruct (decide (P s)).
  - destruct i as [|i], j as [|j]; simpl; try lia.
    + intros [= <-] Hb _.
      apply list_elem_of_lookup_2, list_elem_of_filter in Hb as [_ Hb].
      apply elem_of_seq in Hb. lia.
    + intros Ha Hb ?. apply (IH (S s) i j); [done..|lia].
  - apply IH.
Qed.

Lemma filter_filter_lookup {A} (P Q : A → Prop) `{!∀ x, Decision (P x)}
    `{!∀ x, Decision (Q x)} (l : list A) i j a b :
  filter P (filter Q l) !! i = Some a → filter P (filter Q l) !! j = Some b →
  (i < j)%nat →
  ∃ i' j', filter Q l !! i' = Some a ∧ filter Q l !! j' = Some b ∧ (i' < j')%nat.
Proof.
  generalize (filter Q l) as m. clear l. intros m. revert i j.
  induction m as [|x m IH]; intros i j; [done|].
  rewrite filter_cons. destruct (decide (P x)).
  - destruct i as [|i], j as [|j]; simpl; try lia.
    + intros [= <-] Hb _.
      apply list_elem_of_lookup_2, list_elem_of_filter in Hb as [_ Hb].
      apply list_elem_of_lookup_1 in Hb as [j' Hj'].
      exists 0%nat, (S j'). simpl. split_and!; [done..|lia].
    + intros Ha Hb ?. destruct (IH i j Ha Hb) as (i' & j' & ? & ? & ?); [lia|].
      exists (S i'), (S j'). simpl. split_and!; [done..|lia].
  - intros Ha Hb ?. destruct (IH i j Ha Hb) as (i' & j' & ? & ? & ?); [done|].
    exists (S i'), (S j'). simpl. split_and!; [done..|lia].
Qed.

(** Frames of one scan: their markers are markers of the buffer, in
    increasing order. *)
Lemma parseFrames_pair data chunkOffsets fs i j f g :
  parseFrames data chunkOffsets = Some fs →
  fs !! i = Some f → fs !! j = Some g → (i < j)%nat →
  ∃ a b, offset f = Z.of_nat a ∧ offset g = Z.of_nat b
         ∧ markerAt data a ∧ markerAt data b ∧ (a < b)%nat
         ∧ fits data a ∧ fits data b.
Proof.
  intros Hfs Hf Hg Hij.
  destruct (parseFrames_emitted data chunkOffsets) as (fs' & Hfs' & HF).
  rewrite Hfs in Hfs'. injection Hfs' as <-.
  destruct (Forall2_lookup_l _ _ _ _ _ HF Hf) as (a & Ha & Hfa & idxa & Hea).
  destruct (Forall2_lookup_l _ _ _ _ _ HF Hg) as (b & Hb & Hfb & idxb & Heb).
  exists a, b.
  rewrite (frameAt_offset _ _ _ _ _ Hea), (frameAt_offset _ _ _ _ _ Heb).
  unfold findMarkers in *.
  destruct (filter_filter_lookup _ _ _ _ _ _ _ Ha Hb Hij) as (i' & j' & Ha' & Hb' & Hlt).
  pose proof (filter_seq_lookup_lt _ _ _ _ _ _ _ Ha' Hb' Hlt).
  apply list_elem_of_lookup_2, list_elem_of_filter in Ha' as [? _].
  apply list_elem_of_lookup_2, list_elem_of_filter in Hb' as [? _].
  split_and!; done.
Qed.

(** C2 (amended). Every scan returns a frame list, strictly ascending by
    offset, in which two frames start at least three bytes apart: the 3-byte
    markers never overlap, the 20-byte spans may. *)
Theorem parseFrames_ascending data chunkOffsets :
  ∃ fs, parseFrames data chunkOffsets = Some fs
        ∧ ∀ i j f g, (i < j)%nat → fs !! i = Some f → fs !! j = Some g →
                     offset f < offset g ∧ offset f + 3 ≤ offset g.
Proof.
  destruct (parseFrames_emitted data chunkOffsets) as (fs & Hfs & _).
  exists fs. split; [done|]. intros i j f g Hij Hf Hg.
  destruct (parseFrames_pair _ _ _ _ _ _ _ Hfs Hf Hg Hij)
    as (a & b & -> & -> & Ha & Hb & Hab & _).
  pose proof (markers_apart _ _ _ Ha Hb Hab). lia.
Qed.

(** C2 (as stated) fails: the scan of [twoMarkers] returns two frames, at
    offsets 0 and 3, whose 20-byte spans [0, 19] and [3, 22] overlap. *)
Lemma parseFrames_spans_overlap :
  ∃ f g, parseFrames twoMarkers [0] = Some [f; g]
         ∧ offset f = 0 ∧ offset g = 3
         ∧ ¬ disjointAscending [f; g].
Proof.
  do 2 eexists. split; [vm_compute; reflexivity|].
  split; [reflexivity|]. split; [reflexivity|].
  intros H. specialize (H 0%nat 1%nat _ _ ltac:(lia) eq_refl eq_refl).
  simpl in H. lia.
Qed.

Lemma filter_none {A} (P : A → Prop) `{!∀ x, Decision (P x)} (l : list A) :
  (∀ x, x ∈ l → ¬ P x) → filter P l = [].
Proof.
  induction l as [|x l IH]; intros Hl; [done|].
  rewrite filter_cons, decide_False by (apply Hl; left).
  apply IH. intros y Hy. apply Hl. by right.
Qed.

(** A filter of [seq] that only [k] passes. *)
Lemma filter_seq_only (P : nat → Prop) `{!∀ i, Decision (P i)} k n :
  (∀ i, P i ↔ i = k) → (k < n)%nat → filter P (seq 0 n) = [k].
Proof.
  intros HP Hk.
  replace n with (k + (1 + (n - k - 1)))%nat by lia.
  rewrite !seq_app, !filter_app. simpl.
  rewrite filter_cons, decide_True by (by apply HP).
  rewrite (filter_none P (seq 0 k)).
  - rewrite (filter_none P (seq _ _)); [done|].
    intros i Hi%elem_of_seq. rewrite HP. lia.
  - intros i Hi%elem_of_seq. rewrite HP. lia.
Qed.

(** C7. A buffer whose only marker is at offset 100 gives exactly one
    frame, at offset 100, when it has at least 120 bytes, and no frame when
    it has 115 bytes. *)
Theorem parseFrames_single_marker data chunkOffsets :
  (∀ i, markerAt data i ↔ i = 100%nat) →
  ((120 ≤ length data)%nat →
     ∃ f, parseFrames data chunkOffsets = Some [f] ∧ offset f = 100)
  ∧ (length data = 115%nat → parseFrames data chunkOffsets = Some []).
Proof.
  intros Honly.
  destruct (parseFrames_emitted data chunkOffsets) as (fs & Hfs & HF).
  split.
  - intros Hlen. unfold findMarkers in HF.
    rewrite (filter_seq_only _ 100 _ Honly) in HF by lia.
    rewrite filter_cons, decide_True in HF by (unfold fits; lia).
    apply Forall2_cons_inv_r in HF as (f & fs' & [_ [idx Hf]] & Hnil & ->).
    apply Forall2_nil_inv_r in Hnil as ->.
    exists f. split; [done|]. by rewrite (frameAt_offset _ _ _ _ _ Hf).
  - intros Hlen. unfold findMarkers in HF.
    rewrite (filter_seq_only _ 100 _ Honly) in HF by lia.
    rewrite filter_cons, decide_False in HF by (unfold fits; lia).
    apply Forall2_nil_inv_r in HF as ->. done.
Qed.

(** The markers of a buffer are the ones a scan of all its positions finds. *)
Lemma only_marker_by_scan data k :
  filter (markerAt data) (seq 0 (length data)) = [k] →
  ∀ i, markerAt data i ↔ i = k.
Proof.
  intros Hscan i. split.
  - intros Hi.
    assert (i ∈ filter (markerAt data) (seq 0 (length data))) as Hin.
    { apply list_elem_of_filter. split; [done|]. apply elem_of_seq.
      destruct Hi as [Hi _]. apply lookup_lt_Some in Hi. lia. }
    rewrite Hscan in Hin. by apply list_elem_of_singleton in Hin.
  - intros ->.
    assert (k ∈ filter (markerAt data) (seq 0 (length data))) as Hin
      by (rewrite Hscan; apply list_elem_of_singleton; done).
    by apply list_elem_of_filter in Hin as [? _].
Qed.

Lemma parseFrames_single_marker_witness :
  (∃ f, parseFrames (markerAt100 17) [0] = Some [f] ∧ offset f = 100)
  ∧ parseFrames (markerAt100 12) [0] = Some [].
Proof.
  split.
  - apply (parseFrames_single_marker (markerAt100 17) [0]).
    + apply only_marker_by_scan. vm_compute. reflexivity.
    + vm_compute. lia.
  - apply (parseFrames_single_marker (markerAt100 12) [0]).
    + apply only_marker_by_scan. vm_compute. reflexivity.
    + vm_compute. reflexivity.
Defined.

Lemma frameAt_fields data chunkOffsets idx pos f :
  frameAt data chunkOffsets idx pos = Some f →
  offset f = Z.of_nat pos
  ∧ byte5 f = data !! (pos + 5)%nat ∧ byte6 f = data !! (pos + 6)%nat
  ∧ byte7 f = data !! (pos + 7)%nat ∧ byte8 f = data !! (pos + 8)%nat
  ∧ formatByte f = data !! (pos + 9)%nat
  ∧ tick f = JS.bor (JS.shl (JS.int32_of (data !! (pos + 3)%nat)) 8)
                    (JS.int32_of (data !! (pos + 4)%nat))
  ∧ dataBytes f = (λ d, dataByte data pos d) <$> seq 0 10.
Proof.
  unfold frameAt. intros H.
  destruct (toHex2 (data !! (pos + 5)%nat)); simpl in H; [|done].
  destruct (toHex2 (data !! (pos + 6)%nat)); simpl in H; [|done].
  destruct (toHex2 (data !! (pos + 7)%nat)); simpl in H; [|done].
  destruct (toHex2 (data !! (pos + 8)%nat)); simpl in H; [|done].
  by inversion H.
Qed.

(** C10. For every frame a scan returns, the twenty cells from its offset
    on lie inside the buffer, so no read of the loop body is out of
    bounds; the padding branch of the data bytes is never taken, and the
    ten data bytes are the buffer's cells at offsets 10 to 19 of the frame. *)
Theorem parseFrames_in_bounds data chunkOffsets :
  ∃ fs, parseFrames data chunkOffsets = Some fs
    ∧ ∀ i f, fs !! i = Some f →
        ∃ pos, offset f = Z.of_nat pos
          ∧ (pos + 20 ≤ length data)%nat
          ∧ (∀ k, (k < 20)%nat → is_Some (data !! (pos + k)%nat))
          ∧ (∀ d, (d < 10)%nat →
               (pos + 10 + d < length data)%nat
               ∧ dataBytes f !! d = data !! (pos + 10 + d)%nat)
          ∧ length (dataBytes f) = 10%nat
          ∧ byte5 f = data !! (pos + 5)%nat ∧ is_Some (byte5 f)
          ∧ byte6 f = data !! (pos + 6)%nat ∧ is_Some (byte6 f)
          ∧ byte7 f = data !! (pos + 7)%nat ∧ is_Some (byte7 f)
          ∧ byte8 f = data !! (pos + 8)%nat ∧ is_Some (byte8 f)
          ∧ formatByte f = data !! (pos + 9)%nat ∧ is_Some (formatByte f).
Proof.
  destruct (parseFrames_emitted data chunkOffsets) as (fs & Hfs & HF).
  exists fs. split; [done|]. intros i f Hf.
  destruct (Forall2_lookup_l _ _ _ _ _ HF Hf) as (pos & _ & Hfit & idx & Hfr).
  unfold fits in Hfit.
  destruct (frameAt_fields _ _ _ _ _ Hfr)
    as (Ho & H5 & H6 & H7 & H8 & H9 & _ & Hd).
  exists pos.
  assert (Hcell : ∀ k, (k < 20)%nat → is_Some (data !! (pos + k)%nat))
    by (intros k Hk; apply lookup_lt_is_Some_2; lia).
  split_and!; try done.
  - intros d Hd10. split; [lia|]. rewrite Hd, list_lookup_fmap.
    rewrite lookup_seq_lt by done. simpl. unfold dataByte.
    rewrite bool_decide_true by lia.
    destruct (Hcell (10 + d)%nat) as [v Hv]; [lia|].
    replace (pos + 10 + d)%nat with (pos + (10 + d))%nat by lia.
    by rewrite Hv.
  - by rewrite Hd, length_fmap, length_seq.
  - rewrite H5. apply (Hcell 5%nat). lia.
  - rewrite H6. apply (Hcell 6%nat). lia.
  - rewrite H7. apply (Hcell 7%nat). lia.
  - rewrite H8. apply (Hcell 8%nat). lia.
  - rewrite H9. apply (Hcell 9%nat). lia.
Qed.

End FrameScanner.

Section FrameLookup.
Import FilmParser.

Lemma ushr_half (z : Z) : 0 ≤ z < 2 ^ 32 → JS.ushr z 1 = z `div` 2.
Proof.
  intros Hz. unfold JS.ushr, JS.toUint32.
  rewrite Z.mod_small by done. by rewrite Z.shiftr_div_pow2.
Qed.

(** What the search returns on the window [lo, hi] when every frame left
    of the window ends before [off] and every frame right of it starts
    after. *)
Lemma frameAtOffset_loop_spec (frames : list ParsedFrame) (off : Z) :
  disjointAscending frames →
  Z.of_nat (length frames) ≤ 2 ^ 31 →
  ∀ (fuel : nat) (lo hi : Z),
    0 ≤ lo → hi < Z.of_nat (length frames) → lo ≤ hi + 1 →
    hi - lo + 1 < Z.of_nat fuel →
    (∀ i f, frames !! i = Some f → Z.of_nat i < lo → offset f + 19 < off) →
    (∀ i f, frames !! i = Some f → hi < Z.of_nat i → off < offset f) →
    ∃ r, frameAtOffset_loop fuel off frames lo hi = Ok r
         ∧ match r with
           | Some m => ∃ f, 0 ≤ m ∧ frames !! Z.to_nat m = Some f ∧ spans f off
           | None => ∀ i f, frames !! i = Some f → ¬ spans f off
           end.
Proof.
  intros Hdis Hlen fuel. induction fuel as [|fuel IH]; intros lo hi Hlo Hhi Hle Hfuel Hleft Hright.
  - lia.
  - simpl. case_bool_decide as Hwin.
    + assert (Hmid : JS.ushr (lo + hi) 1 = (lo + hi) `div` 2)
        by (apply ushr_half; lia).
      rewrite Hmid. set (mid := (lo + hi) `div` 2).
      assert (lo ≤ mid ≤ hi) as Hm by (unfold mid; split;
        [apply Z.div_le_lower_bound | apply Z.div_le_upper_bound]; lia).
      destruct (lookup_lt_is_Some_2 frames (Z.to_nat mid)) as [f Hf]; [lia|].
      rewrite Hf. case_bool_decide as Hstart; [|case_bool_decide as Hend].
      * apply IH; try lia; [done|].
        intros i g Hg Hi.
        destruct (decide (Z.of_nat i = mid)) as [Heq|Hne].
        { replace i with (Z.to_nat mid) in Hg by lia.
          rewrite Hf in Hg. by injection Hg as <-. }
        assert (Z.to_nat mid < i)%nat as Hlt by lia.
        specialize (Hdis _ _ _ _ Hlt Hf Hg). lia.
      * apply IH; try lia; [|done].
        intros i g Hg Hi.
        destruct (decide (Z.of_nat i = mid)) as [Heq|Hne].
        { replace i with (Z.to_nat mid) in Hg by lia.
          rewrite Hf in Hg. by injection Hg as <-. }
        assert (i < Z.to_nat mid)%nat as Hlt by lia.
        specialize (Hdis _ _ _ _ Hlt Hg Hf). lia.
      * exists (Some mid). split; [done|]. exists f. unfold spans.
        split_and!; [lia|done|lia|lia].
    + exists None. split; [done|]. intros i f Hf [Hs He].
      destruct (decide (Z.of_nat i < lo)) as [Hi|Hi].
      * specialize (Hleft _ _ Hf Hi). lia.
      * assert (hi < Z.of_nat i) as Hi' by lia.
        specialize (Hright _ _ Hf Hi'). lia.
Qed.

(** In a list of frames with disjoint spans one frame at most holds [off]. *)
Lemma spans_unique (frames : list ParsedFrame) (off : Z) i j f g :
  disjointAscending frames →
  frames !! i = Some f → frames !! j = Some g →
  spans f off → spans g off → i = j.
Proof.
  intros Hdis Hf Hg [? ?] [? ?].
  destruct (Nat.lt_trichotomy i j) as [Hlt|[->|Hlt]]; [|done|].
  - specialize (Hdis _ _ _ _ Hlt Hf Hg). lia.
  - specialize (Hdis _ _ _ _ Hlt Hg Hf). lia.
Qed.

(** C8. On a frame list in ascending order with disjoint 20-byte spans,
    [frameAtOffset] returns the index of the frame whose span holds the
    offset when there is one, and [null] when there is none. *)
Theorem frameAtOffset_correct (frames : list ParsedFrame) (off : Z) :
  disjointAscending frames →
  Z.of_nat (length frames) ≤ 2 ^ 31 →
  (∀ i f, frames !! i = Some f → spans f off →
          frameAtOffset off frames = Ok (Some (Z.of_nat i)))
  ∧ ((∀ i f, frames !! i = Some f → ¬ spans f off) →
     frameAtOffset off frames = Ok None).
Proof.
  intros Hdis Hlen.
  destruct (frameAtOffset_loop_spec frames off Hdis Hlen (S (length frames)) 0
              (Z.of_nat (length frames) - 1)) as (r & Hr & Hspec); try lia.
  { intros i f Hf%lookup_lt_Some Hi. lia. }
  unfold frameAtOffset. rewrite Hr. split.
  - intros i f Hf Hsp. destruct r as [m|].
    + destruct Hspec as (g & Hm & Hg & Hgs).
      rewrite (spans_unique frames off _ _ _ _ Hdis Hf Hg Hsp Hgs).
      by rewrite Z2Nat.id.
    + by destruct (Hspec _ _ Hf).
  - intros Hnone. destruct r as [m|]; [|done].
    destruct Hspec as (g & _ & Hg & Hgs). by destruct (Hnone _ _ Hg).
Qed.

End FrameLookup.

Section Motion.
Import MotionExtractor.

Implicit Types (st : AccState) (c : Z * Z) (xs : list (Z * Z)).

Lemma addPositions_clear st : addPositions (positions st) (clearPositions st) = st.
Proof. destruct st. unfold addPositions, clearPositions. simpl. by rewrite app_nil_r. Qed.

Lemma accumulate_addPositions ps st c :
  accumulate (addPositions ps st) c = addPositions ps (accumulate st c).
Proof.
  destruct c as [c1 c2]. unfold accumulate, addPositions. simpl.
  destruct (prevC1 st), (prevC2 st); simpl; by rewrite app_assoc.
Qed.

Lemma replay_addPositions ps st xs :
  replay (addPositions ps st) xs = addPositions ps (replay st xs).
Proof.
  revert st. induction xs as [|c xs IH]; intros st; [done|].
  unfold replay in *. simpl. by rewrite accumulate_addPositions, IH.
Qed.

Lemma replay_positions st xs :
  positions (replay st xs)
  = positions st ++ positions (replay (clearPositions st) xs).
Proof.
  rewrite <- (addPositions_clear st) at 1. by rewrite replay_addPositions.
Qed.

Lemma replay_app st xs ys : replay st (xs ++ ys) = replay (replay st xs) ys.
Proof. apply foldl_app. Qed.

Lemma replay_length st xs :
  length (positions (replay st xs)) = (length (positions st) + length xs)%nat.
Proof.
  revert st. induction xs as [|[c1 c2] xs IH]; intros st; [simpl; lia|].
  unfold replay in *. simpl. rewrite IH. unfold accumulate.
  destruct (prevC1 st), (prevC2 st); simpl; rewrite length_app; simpl; lia.
Qed.

Lemma replay_frameCount st xs :
  frameCount (replay st xs) = (frameCount st + length xs)%nat.
Proof.
  revert st. induction xs as [|[c1 c2] xs IH]; intros st; [simpl; lia|].
  unfold replay in *. simpl. rewrite IH. unfold accumulate.
  destruct (prevC1 st), (prevC2 st); simpl; lia.
Qed.

Lemma correctedDelta1_same z : correctedDelta1 z z = 0.
Proof.
  unfold correctedDelta1, DISCONTINUITY_THRESHOLD. rewrite Z.sub_diag.
  repeat case_bool_decide; simpl in *; lia.
Qed.

Lemma correctedDelta2_same z : correctedDelta2 z z = 0.
Proof.
  unfold correctedDelta2, DISCONTINUITY_THRESHOLD. rewrite Z.sub_diag.
  repeat case_bool_decide; simpl in *; lia.
Qed.

(** The point one round pushes, read off the state the round leaves. *)
Lemma accumulate_clear st c :
  ∃ p, positions (accumulate (clearPositions st) c) = [p]
       ∧ frame p = frameCount st
       ∧ raw1 p = c.1 ∧ raw2 p = c.2
       ∧ prevC1 (accumulate (clearPositions st) c) = Some c.1
       ∧ prevC2 (accumulate (clearPositions st) c) = Some c.2
       ∧ accCum1 (accumulate (clearPositions st) c) = cumCoord1 p
       ∧ accCum2 (accumulate (clearPositions st) c) = cumCoord2 p
       ∧ frameCount (accumulate (clearPositions st) c) = S (frameCount st)
       ∧ (prevC1 st = None → cumCoord1 p = accCum1 st ∧ cumCoord2 p = accCum2 st).
Proof.
  destruct c as [c1 c2]. unfold accumulate, clearPositions. simpl.
  destruct (prevC1 st), (prevC2 st); simpl; eexists; split_and!; done.
Qed.

(** Restarting at the point a round pushed and feeding that round's raw pair
    again pushes the same point and leaves the same state. *)
Lemma accumulate_restart st c p :
  positions (accumulate (clearPositions st) c) = [p] →
  accumulate (restartAt p) c = accumulate (clearPositions st) c.
Proof.
  destruct c as [c1 c2]. unfold accumulate, clearPositions, restartAt. simpl.
  destruct (prevC1 st), (prevC2 st); simpl; intros [= <-]; simpl;
    rewrite correctedDelta1_same, correctedDelta2_same, !Z.add_0_r; done.
Qed.

(** The output of a replay, split at sample [k]. *)
Lemma replay_split st xs k c :
  xs !! k = Some c →
  positions (replay (clearPositions st) xs)
  = positions (replay (clearPositions st) (take k xs))
    ++ positions (replay (clearPositions (replay (clearPositions st) (take k xs)))
                         (c :: drop (S k) xs)).
Proof.
  intros Hk. rewrite <- (take_drop_middle xs k c Hk) at 1.
  by rewrite replay_app, replay_positions.
Qed.

Lemma replay_lookup st xs k p :
  positions (replay (clearPositions st) xs) !! k = Some p →
  ∃ c stk, xs !! k = Some c
    ∧ stk = replay (clearPositions st) (take k xs)
    ∧ positions (accumulate (clearPositions stk) c) = [p]
    ∧ drop k (positions (replay (clearPositions st) xs))
      = positions (replay (clearPositions stk) (c :: drop (S k) xs)).
Proof.
  intros Hp.
  assert (k < length xs)%nat as Hk.
  { apply lookup_lt_Some in Hp. rewrite replay_length in Hp. simpl in Hp. lia. }
  destruct (lookup_lt_is_Some_2 xs k Hk) as [c Hc].
  exists c, (replay (clearPositions st) (take k xs)).
  split; [done|]. split; [done|].
  pose proof (replay_split st xs k c Hc) as Hsplit.
  set (stk := replay (clearPositions st) (take k xs)) in *.
  assert (length (positions stk) = k) as Hlen.
  { unfold stk. rewrite replay_length, length_take. simpl. lia. }
  assert (drop k (positions (replay (clearPositions st) xs))
          = positions (replay (clearPositions stk) (c :: drop (S k) xs))) as Hdrop.
  { rewrite Hsplit. rewrite drop_app_length'; done. }
  split; [|done].
  destruct (accumulate_clear stk c) as (p' & Hp' & _).
  rewrite Hp'. f_equal.
  assert (drop k (positions (replay (clearPositions st) xs)) !! 0%nat = Some p) as H0
    by (rewrite lookup_drop, Nat.add_0_r; done).
  rewrite Hdrop in H0. unfold replay in H0. simpl in H0.
  fold (replay (accumulate (clearPositions stk) c) (drop (S k) xs)) in H0.
  rewrite replay_positions, Hp' in H0. simpl in H0. congruence.
Qed.

Lemma clear_initState : clearPositions initState = initState.
Proof. done. Qed.

(** The scan of the chunks is the replay of the raw pairs it reads. *)
Lemma markers_replay chunk playerIndex st ms :
  foldl (markerStep chunk playerIndex) st ms
  = replay st (omap (base09Sample chunk playerIndex) ms).
Proof.
  revert st. induction ms as [|pos ms IH]; intros st; [done|].
  simpl. rewrite IH. unfold markerStep.
  by destruct (base09Sample chunk playerIndex pos).
Qed.

Lemma extract_replay chunks playerIndex :
  extractBase09Position chunks playerIndex
  = positions (replay initState (base09Samples chunks playerIndex)).
Proof.
  unfold extractBase09Position, base09Samples. f_equal.
  generalize initState as st.
  induction chunks as [|chunk chunks IH]; intros st; [done|].
  rewrite bind_cons, replay_app. simpl. rewrite IH.
  unfold chunkStep. by rewrite markers_replay.
Qed.

Lemma clear_accumulate st c :
  clearPositions (accumulate st c)
  = clearPositions (accumulate (clearPositions st) c).
Proof.
  destruct c as [c1 c2]. unfold accumulate, clearPositions. simpl.
  by destruct (prevC1 st), (prevC2 st).
Qed.

(** Each point follows from the point before it alone: its totals are the
    previous totals plus the corrected deltas of the two raw pairs. *)
Lemma replay_next xs k p q :
  positions (replay initState xs) !! k = Some p →
  positions (replay initState xs) !! S k = Some q →
  cumCoord1 q = cumCoord1 p + correctedDelta1 (raw1 p) (raw1 q)
  ∧ cumCoord2 q = cumCoord2 p + correctedDelta2 (raw2 p) (raw2 q)
  ∧ frame q = S (frame p).
Proof.
  rewrite <- clear_initState. intros Hp Hq.
  destruct (replay_lookup _ _ _ _ Hp) as (c & stk & Hc & Hstk & Hpc & _).
  destruct (replay_lookup _ _ _ _ Hq) as (c' & stk' & Hc' & Hstk' & Hqc & _).
  rewrite (take_S_r _ _ _ Hc), replay_app in Hstk'. rewrite <- Hstk in Hstk'.
  unfold replay in Hstk'. simpl in Hstk'.
  rewrite Hstk', clear_accumulate in Hqc.
  destruct (accumulate_clear stk c)
    as (p' & Hp' & Hfr & Hr1 & Hr2 & Hp1 & Hp2 & Hc1 & Hc2 & Hfc & _).
  rewrite Hpc in Hp'. injection Hp' as <-.
  destruct c' as [d1 d2]. unfold accumulate at 1 in Hqc. simpl in Hqc.
  rewrite Hp1, Hp2, Hc1, Hc2, Hfc in Hqc. injection Hqc as <-. simpl.
  rewrite Hr1, Hr2, Hfr. done.
Qed.

(** C6. Replaying from sample [k], with its raw pair as the previous raws,
    its running totals and its sample index, gives the tail of the full
    extraction from sample [k] on; the first sample has both totals at 0. *)
Theorem replay_from_any_sample chunks playerIndex k p :
  extractBase09Position chunks playerIndex !! k = Some p →
  positions (replay (restartAt p) (drop k (base09Samples chunks playerIndex)))
  = drop k (extractBase09Position chunks playerIndex)
  ∧ (k = 0%nat → cumCoord1 p = 0 ∧ cumCoord2 p = 0).
Proof.
  rewrite extract_replay, <- clear_initState. intros Hp.
  destruct (replay_lookup _ _ _ _ Hp) as (c & stk & Hc & Hstk & Hpc & Hdrop).
  split.
  - rewrite Hdrop, (drop_S _ _ _ Hc). unfold replay. simpl.
    by rewrite (accumulate_restart _ _ _ Hpc).
  - intros ->. rewrite take_0 in Hstk. simpl in Hstk. subst stk.
    destruct (accumulate_clear (clearPositions initState) c)
      as (p' & Hp' & _ & _ & _ & _ & _ & _ & _ & _ & Hzero).
    rewrite Hpc in Hp'. injection Hp' as <-. by apply Hzero.
Qed.

End Motion.

Section FireEvents.
Import FireScanner.

Implicit Types (data chunkOffsets : list Z) (i : nat) (e : FireEvent)
  (r : FireScanResult).

Lemma band_255_range (z : Z) : 0 ≤ JS.band z 0xff < 256.
Proof.
  unfold JS.band. change (JS.toInt32 255) with (Z.ones 8).
  rewrite Z.land_ones by lia. apply Z.mod_pos_bound. lia.
Qed.

Lemma readShifted_range data i : 0 ≤ readShifted data i < 256.
Proof.
  unfold readShifted, shifted. case_bool_decide; [lia|]. apply band_255_range.
Qed.

Lemma toHex2_byte (b : Z) :
  0 ≤ b < 256 →
  JS.toHex2 b
  = String (JS.hexDigit (b `div` 16)) (String (JS.hexDigit (b `mod` 16)) EmptyString).
Proof.
  intros Hb.
  assert (Forall (λ n, JS.toHex2 (Z.of_nat n)
            = String (JS.hexDigit (Z.of_nat n `div` 16))
                (String (JS.hexDigit (Z.of_nat n `mod` 16)) EmptyString))
            (seq 0 256)) as Hall.
  { apply (bool_decide_unpack _). vm_compute. exact I. }
  rewrite Forall_forall in Hall.
  specialize (Hall (Z.to_nat b)). rewrite Z2Nat.id in Hall by lia.
  apply Hall, elem_of_seq. lia.
Qed.

Lemma hexDigit_inj (a b : Z) :
  0 ≤ a < 16 → 0 ≤ b < 16 → JS.hexDigit a = JS.hexDigit b → a = b.
Proof.
  intros Ha Hb.
  assert (a = 0 ∨ a = 1 ∨ a = 2 ∨ a = 3 ∨ a = 4 ∨ a = 5 ∨ a = 6 ∨ a = 7 ∨ a = 8
          ∨ a = 9 ∨ a = 10 ∨ a = 11 ∨ a = 12 ∨ a = 13 ∨ a = 14 ∨ a = 15) as Hca by lia.
  assert (b = 0 ∨ b = 1 ∨ b = 2 ∨ b = 3 ∨ b = 4 ∨ b = 5 ∨ b = 6 ∨ b = 7 ∨ b = 8
          ∨ b = 9 ∨ b = 10 ∨ b = 11 ∨ b = 12 ∨ b = 13 ∨ b = 14 ∨ b = 15) as Hcb by lia.
  destruct_or!; subst; simpl; intros H; try done.
Qed.

Lemma toHex2_byte_eq (b c : Z) :
  0 ≤ b < 256 → 0 ≤ c < 256 → JS.toHex2 b = JS.toHex2 c ↔ b = c.
Proof.
  intros Hb Hc. split; [|by intros ->].
  rewrite !toHex2_byte by done. intros [= H1 H2].
  apply hexDigit_inj in H1; [|apply Z.div_lt_upper_bound || split; try apply Z.div_pos; try apply Z.div_lt_upper_bound; lia ..].
  apply hexDigit_inj in H2; [|apply Z.mod_pos_bound; lia ..].
  rewrite (Z.div_mod b 16), (Z.div_mod c 16) by lia. lia.
Qed.

(** The suffix test on the hexadecimal text of the identifier is the test
    that its last four bytes are 42 c9 67 9f. *)
Lemma weaponId_suffix_bytes data p :
  endsWith (readShiftedHex data p 8) WEAPON_SUFFIX = true
  ↔ readShifted data (p + 4) = 0x42 ∧ readShifted data (p + 5) = 0xc9
    ∧ readShifted data (p + 6) = 0x67 ∧ readShifted data (p + 7) = 0x9f.
Proof.
  unfold readShiftedHex. simpl foldl.
  pose proof (readShifted_range data (p + 0)) as H0.
  pose proof (readShifted_range data (p + 1)) as H1.
  pose proof (readShifted_range data (p + 2)) as H2.
  pose proof (readShifted_range data (p + 3)) as H3.
  pose proof (readShifted_range data (p + 4)) as H4.
  pose proof (readShifted_range data (p + 5)) as H5.
  pose proof (readShifted_range data (p + 6)) as H6.
  pose proof (readShifted_range data (p + 7)) as H7.
  rewrite <- (toHex2_byte_eq _ 0x42 H4), <- (toHex2_byte_eq _ 0xc9 H5),
    <- (toHex2_byte_eq _ 0x67 H6), <- (toHex2_byte_eq _ 0x9f H7) by lia.
  rewrite !toHex2_byte by lia.
  generalize (readShifted data (p + 0)) (readShifted data (p + 1))
    (readShifted data (p + 2)) (readShifted data (p + 3))
    (readShifted data (p + 4)) (readShifted data (p + 5))
    (readShifted data (p + 6)) (readShifted data (p + 7)).
  clear. intros b0 b1 b2 b3 b4 b5 b6 b7.
  unfold endsWith, WEAPON_SUFFIX. simpl.
  generalize (JS.hexDigit (b4 `div` 16)) (JS.hexDigit (b4 `mod` 16))
    (JS.hexDigit (b5 `div` 16)) (JS.hexDigit (b5 `mod` 16))
    (JS.hexDigit (b6 `div` 16)) (JS.hexDigit (b6 `mod` 16))
    (JS.hexDigit (b7 `div` 16)) (JS.hexDigit (b7 `mod` 16)).
  intros c0 c1 c2 c3 c4 c5 c6 c7.
  destruct (Ascii.eqb_spec c0 "4") as [->|?];
    [|split; [done|intros ([= ? ?] & _); done]].
  destruct (Ascii.eqb_spec c1 "2") as [->|?];
    [|split; [done|intros ([= ?] & _); done]].
  destruct (Ascii.eqb_spec c2 "c") as [->|?];
    [|split; [done|intros (_ & [= ? ?] & _); done]].
  destruct (Ascii.eqb_spec c3 "9") as [->|?];
    [|split; [done|intros (_ & [= ?] & _); done]].
  destruct (Ascii.eqb_spec c4 "6") as [->|?];
    [|split; [done|intros (_ & _ & [= ? ?] & _); done]].
  destruct (Ascii.eqb_spec c5 "7") as [->|?];
    [|split; [done|intros (_ & _ & [= ?] & _); done]].
  destruct (Ascii.eqb_spec c6 "9") as [->|?];
    [|split; [done|intros (_ & _ & _ & [= ? ?]); done]].
  destruct (Ascii.eqb_spec c7 "f") as [->|?];
    [|split; [done|intros (_ & _ & _ & [= ?]); done]].
  done.
Qed.

Lemma eventAt_Some data chunkOffsets i e :
  eventAt data chunkOffsets i = Some e →
  offset e = i
  ∧ leadMatches data i = true
  ∧ counter e = readShifted data (i + 4)
  ∧ slot e = readShifted data (i + 5)
  ∧ weaponId e = readShiftedHex data (i + 6) 8
  ∧ Z.rem (counter e) 4 = 0
  ∧ (slot e = 0x01 ∨ slot e = 0x03)
  ∧ endsWith (weaponId e) WEAPON_SUFFIX = true.
Proof.
  unfold eventAt. intros H.
  destruct (leadMatches data i) eqn:Hl; cbn [negb] in H; [|discriminate].
  destruct (bool_decide (length data ≤ i + 17)%nat); [discriminate|].
  destruct (bool_decide (readShifted data (i + 5) ≠ 1)
            && bool_decide (readShifted data (i + 5) ≠ 3)) eqn:Hslot;
    [discriminate|].
  destruct (bool_decide (Z.rem (readShifted data (i + 4)) 4 ≠ 0)) eqn:Hctr;
    [discriminate|].
  destruct (endsWith (readShiftedHex data (i + 6) 8) WEAPON_SUFFIX) eqn:Hsuf;
    cbn [negb] in H; [|discriminate].
  apply (inj Some) in H. subst e. cbn [offset counter slot weaponId].
  apply bool_decide_eq_false in Hctr.
  split; [reflexivity|]. split; [reflexivity|]. split; [reflexivity|].
  split; [reflexivity|]. split; [reflexivity|].
  split; [lia|]. split; [|exact Hsuf].
  apply andb_false_iff in Hslot as [Hs|Hs]; apply bool_decide_eq_false in Hs; lia.
Qed.

(** A position that fails the counter, slot or suffix check yields no event. *)
Lemma eventAt_rejected data chunkOffsets i :
  Z.rem (readShifted data (i + 4)) 4 ≠ 0
  ∨ (readShifted data (i + 5) ≠ 0x01 ∧ readShifted data (i + 5) ≠ 0x03)
  ∨ endsWith (readShiftedHex data (i + 6) 8) WEAPON_SUFFIX = false →
  eventAt data chunkOffsets i = None.
Proof.
  intros Hrej. destruct (eventAt data chunkOffsets i) as [e|] eqn:He; [|done].
  destruct (eventAt_Some _ _ _ _ He) as (_ & _ & Hc & Hs & Hw & Hc4 & Hs13 & Hsuf).
  rewrite Hc in Hc4. rewrite Hs in Hs13. rewrite Hw in Hsuf.
  clear He Hc Hs Hw. exfalso. destruct Hrej as [H|[[H1 H2]|H]].
  - exact (H Hc4).
  - destruct Hs13 as [H3|H3]; [exact (H1 H3) | exact (H2 H3)].
  - rewrite H in Hsuf. discriminate.
Qed.

(** The events of a scan are the events of the positions scanned, in order. *)
Lemma scan_events data chunkOffsets r js :
  events (foldl (scanStep data chunkOffsets) r js)
  = events r ++ omap (eventAt data chunkOffsets) js.
Proof.
  revert r. induction js as [|j js IH]; intros r.
  - cbn [foldl omap list_omap]. by rewrite app_nil_r.
  - cbn [foldl omap list_omap]. rewrite IH. unfold scanStep.
    destruct (eventAt data chunkOffsets j); [|reflexivity].
    cbn [events]. by rewrite <- app_assoc.
Qed.

(** The count kept for each weapon name is the number of events pushed with
    that name. *)
Lemma scan_counts data chunkOffsets r js name :
  default O (weaponCounts (foldl (scanStep data chunkOffsets) r js) !! name)
  = (default O (weaponCounts r !! name)
     + eventsNamed name (omap (eventAt data chunkOffsets) js))%nat.
Proof.
  revert r. induction js as [|j js IH]; intros r.
  - unfold eventsNamed. cbn [foldl omap list_omap filter list_filter length].
    lia.
  - cbn [foldl]. rewrite IH. unfold scanStep, eventsNamed.
    cbn [omap list_omap].
    destruct (eventAt data chunkOffsets j) as [e|]; [|reflexivity].
    cbn [weaponCounts]. rewrite filter_cons.
    destruct (decide (weaponName e = name)) as [->|Hne].
    + rewrite lookup_insert_eq. cbn [default length id]. lia.
    + rewrite lookup_insert_ne by exact Hne. lia.
Qed.

(** C3. Every event of a scan sits at a position whose lead pattern matches,
    whose fire counter is a multiple of 4, whose slot byte is 1 or 3 and
    whose weapon identifier ends with 42c9679f; a position that fails one of
    the three checks leaves the events and the weapon counts as they were,
    and no event of the scan comes from it. The scan has no error result. *)
Theorem scanFireEvents_filters data chunkOffsets :
  (∀ e, e ∈ events (scanFireEvents data chunkOffsets) →
        leadMatches data (offset e) = true
        ∧ counter e = readShifted data (offset e + 4)
        ∧ slot e = readShifted data (offset e + 5)
        ∧ weaponId e = readShiftedHex data (offset e + 6) 8
        ∧ Z.rem (counter e) 4 = 0
        ∧ (slot e = 0x01 ∨ slot e = 0x03)
        ∧ endsWith (weaponId e) WEAPON_SUFFIX = true
        ∧ readShifted data (offset e + 10) = 0x42
        ∧ readShifted data (offset e + 11) = 0xc9
        ∧ readShifted data (offset e + 12) = 0x67
        ∧ readShifted data (offset e + 13) = 0x9f)
  ∧ (∀ i, Z.rem (readShifted data (i + 4)) 4 ≠ 0
          ∨ (readShifted data (i + 5) ≠ 0x01 ∧ readShifted data (i + 5) ≠ 0x03)
          ∨ endsWith (readShiftedHex data (i + 6) 8) WEAPON_SUFFIX = false →
          (∀ r, scanStep data chunkOffsets r i = r)
          ∧ ∀ e, e ∈ events (scanFireEvents data chunkOffsets) → offset e ≠ i)
  ∧ (∀ name,
        default O (weaponCounts (scanFireEvents data chunkOffsets) !! name)
        = eventsNamed name (events (scanFireEvents data chunkOffsets))).
Proof.
  assert (Hev : ∀ e, e ∈ events (scanFireEvents data chunkOffsets) →
                     eventAt data chunkOffsets (offset e) = Some e).
  { intros e He. unfold scanFireEvents in He. rewrite scan_events in He.
    cbn [events app] in He. apply list_elem_of_omap in He as (j & _ & Hj).
    destruct (eventAt_Some _ _ _ _ Hj) as (-> & _). done. }
  split_and!.
  - intros e He%Hev.
    destruct (eventAt_Some _ _ _ _ He) as (_ & Hl & Hc & Hs & Hw & Hc4 & Hs13 & Hsuf).
    split_and!; try done.
    all: rewrite Hw in Hsuf; apply weaponId_suffix_bytes in Hsuf;
      destruct Hsuf as (H10 & H11 & H12 & H13).
    + by replace (offset e + 10)%nat with (offset e + 6 + 4)%nat by lia.
    + by replace (offset e + 11)%nat with (offset e + 6 + 5)%nat by lia.
    + by replace (offset e + 12)%nat with (offset e + 6 + 6)%nat by lia.
    + by replace (offset e + 13)%nat with (offset e + 6 + 7)%nat by lia.
  - intros i Hrej. pose proof (eventAt_rejected data chunkOffsets i Hrej) as Hnone.
    split.
    + intros r. unfold scanStep. by rewrite Hnone.
    + intros e He%Hev Hoff. rewrite Hoff, Hnone in He. discriminate.
  - intros name. unfold scanFireEvents. rewrite scan_counts, scan_events.
    cbn [events weaponCounts app]. by rewrite lookup_empty.
Qed.

End FireEvents.

Section Aim.
Import Octahedral.






(** The face code with u = v = 85, the shortest vector there is, and the
    face code 0, whose direction (0, 0, 1) comes from the division. *)
Lemma decodeOctahedralAim_shortest :
  PrimFloat.ltb (vlen (faceVector 0 0x5555)) 0.5 = false
  ∧ decodeOctahedralAim 0 0x5555
    = {| x := x (faceVector 0 0x5555) / vlen (faceVector 0 0x5555);
         y := y (faceVector 0 0x5555) / vlen (faceVector 0 0x5555);
         z := z (faceVector 0 0x5555) / vlen (faceVector 0 0x5555) |}
  ∧ vlen (faceVector 0 0) = 1%float
  ∧ decodeOctahedralAim 0 0 = {| x := 0; y := 0; z := 1 |}.
Proof. vm_compute. repeat split; reflexivity. Qed.

End Aim.

Section Bond.
Import BondParser.

Implicit Types (buf : list Z) (st : RState) (rv : Z → M BondValue).

(** C5 (amended). For a list or set of uint8 or int8, with [count] the
    announced count and [bs] the payload read: the payload is exposed as text
    exactly when 0 < count < 1000 and every byte is printable ASCII,
    whitespace or NUL; otherwise it is pushed once on the blob table and the
    list carries its index. The list never carries items, and never both a
    text and a blob reference. The count and the cursor behind the payload
    are taken below 2^53, where the numbers of the source are exact. *)
Theorem readList_byte_payload buf rv isSet st elemType count st1 :
  readListHeader buf st = Ok ((elemType, count), st1) →
  elemType = BondType.uint8 ∨ elemType = BondType.int8 →
  Z.of_nat (pos st1) + count < 2 ^ 53 →
  ∃ l st',
    readList buf rv isSet st = Ok (l, st')
    ∧ l_count l = count ∧ l_items l = None
    ∧ pos st' = (pos st1 + Z.to_nat count)%nat
    ∧ (bool_decide (0 < count) && bool_decide (count < 1000)
       && forallb printable (take (Z.to_nat count) (drop (pos st1) buf)) = true →
       l_data l = Some (textOf (take (Z.to_nat count) (drop (pos st1) buf)))
       ∧ l_blobRef l = None ∧ blobs st' = blobs st1)
    ∧ (bool_decide (0 < count) && bool_decide (count < 1000)
       && forallb printable (take (Z.to_nat count) (drop (pos st1) buf)) = false →
       l_data l = None ∧ l_blobRef l = Some (length (blobs st1))
       ∧ blobs st' = blobs st1 ++
           [ {| blob_index := length (blobs st1); blob_length := count;
                blob_data := take (Z.to_nat count) (drop (pos st1) buf) |} ]).
Proof.
  intros Hh Hty _. unfold readList, bind at 1. rewrite Hh.
  assert (bool_decide (elemType = BondType.uint8)
          || bool_decide (elemType = BondType.int8) = true) as ->.
  { destruct Hty as [->| ->]; reflexivity. }
  unfold bind at 1, bytes at 1.
  destruct (bool_decide (0 < count) && bool_decide (count < 1000)
            && forallb printable (take (Z.to_nat count) (drop (pos st1) buf)))
    eqn:Htext.
  - eexists _, _. split; [reflexivity|]. cbn.
    split_and!; try reflexivity; [done | intros [=]].
  - eexists _, _. split; [reflexivity|]. cbn.
    split_and!; try reflexivity; [intros [=] | done].
Qed.

(** The list [0x23]: element type uint8, inline count 1, that is no
    element. Its payload is empty, so every byte of it is printable; the list
    is stored as a blob all the same. *)
Lemma readList_empty_payload_is_blob :
  ∃ l st', readList [0x23] (readValue [0x23] 1) false {| pos := 0; blobs := [] |}
           = Ok (l, st')
    ∧ readListHeader [0x23] {| pos := 0; blobs := [] |}
      = Ok ((BondType.uint8, 0), {| pos := 1; blobs := [] |})
    ∧ forallb printable (take (Z.to_nat 0) (drop 1 [0x23])) = true
    ∧ l_data l = None ∧ l_blobRef l = Some 0%nat
    ∧ blobs st' = [ {| blob_index := 0; blob_length := 0; blob_data := [] |} ].
Proof. eexists _, _. split; [vm_compute; reflexivity|]. by vm_compute. Qed.

Lemma readList_byte_payload_witness :
  ∃ l st',
    readList [0x83; 72; 105; 33] (readValue [0x83; 72; 105; 33] 1) false
             {| pos := 0; blobs := [] |} = Ok (l, st')
    ∧ l_count l = 3 ∧ l_items l = None ∧ pos st' = 4%nat.
Proof.
  destruct (readList_byte_payload [0x83; 72; 105; 33]
              (readValue [0x83; 72; 105; 33] 1) false
              {| pos := 0; blobs := [] |} BondType.uint8 3
              {| pos := 1; blobs := [] |} eq_refl (or_introl eq_refl)
              ltac:(vm_compute; reflexivity))
    as (l & st' & H & Hc & Hi & Hp & _).
  exists l, st'. split_and!; done.
Defined.

Section Unpack.
Variable inflateRawSync inflateSync : list Z → option (list Z).

Local Notation unpack := (unpack inflateRawSync inflateSync).
Local Notation readCompressedBlob :=
  (readCompressedBlob inflateRawSync inflateSync).

(** [unpack] once the outer length and the outer struct are read. *)
Lemma unpack_after_struct depth buf outerLen st1 ms st2 :
  leb128u buf {| pos := 0; blobs := [] |} = Ok (outerLen, st1) →
  readStruct buf (readValue buf (S (length buf))) outerLen st1 = Ok (ms, st2) →
  unpack (S depth) buf
  = match
      (if bool_decide (Z.of_nat (pos st2) - Z.of_nat (pos st1) < outerLen)
          && bool_decide (0 < remaining buf st2)
       then if allZeros buf st2 then Ok None
            else readCompressedBlob (unpack depth) buf st2
       else Ok None)
    with
    | Ok nested => Ok (outerDoc buf outerLen ms st2 nested)
    | Throw => Throw
    | OutOfFuel => OutOfFuel
    end.
Proof.
  intros Hl Hs. cbn [BondParser.unpack]. unfold unpack_body.
  rewrite Hl, Hs. reflexivity.
Qed.

(** The blob reader never throws, and what it returns. *)
Lemma readCompressedBlob_cases inner buf st :
  match compressedPayload buf st with
  | None => readCompressedBlob inner buf st = Ok None
  | Some (size, c) =>
      match tryInflate inner inflateRawSync "deflate" size c with
      | Ok (Some blob) => readCompressedBlob inner buf st = Ok (Some blob)
      | Ok None =>
          readCompressedBlob inner buf st = tryInflate inner inflateSync "zlib" size c
      | Throw => False
      | OutOfFuel => readCompressedBlob inner buf st = OutOfFuel
      end
  end.
Proof.
  unfold BondParser.readCompressedBlob.
  destruct (compressedPayload buf st) as [[size c]|]; [|done].
  destruct (tryInflate inner inflateRawSync "deflate" size c) as [[blob|]| |] eqn:Ht;
    try done.
  unfold tryInflate in Ht. destruct (inflateRawSync c); [|done].
  by destruct (inner l).
Qed.

Lemma tryInflate_fails inner inflate kind size c :
  inflate c = None → tryInflate inner inflate kind size c = Ok None.
Proof. intros H. unfold tryInflate. by rewrite H. Qed.

Lemma tryInflate_no_throw inner inflate kind size c :
  tryInflate inner inflate kind size c ≠ Throw.
Proof.
  unfold tryInflate. destruct (inflate c) as [d|]; [|done].
  by destruct (inner d).
Qed.

Lemma tryInflate_attaches inner inflate kind size c d innerDoc :
  inflate c = Some d → inner d = Ok innerDoc →
  tryInflate inner inflate kind size c
  = Ok (Some {| compression := kind; compressedSize := size;
                decompressedSize := length d; inner := innerDoc |}).
Proof. intros Hi Hd. unfold tryInflate. by rewrite Hi, Hd. Qed.

(** An attempt that fails: the decompressor rejects the payload, or the
    nested unpack throws on what it gives. *)
Lemma tryInflate_rejects inner inflate kind size c :
  inflate c = None ∨ (∃ d, inflate c = Some d ∧ inner d = Throw) →
  tryInflate inner inflate kind size c = Ok None.
Proof.
  unfold tryInflate. intros [->|(d & -> & ->)]; done.
Qed.

(** C4 (amended). Once the outer length (below 2^53) and the outer struct
    are decoded, [unpack] never throws and returns the outer document with
    that struct and the blob table. There is no nested document when the
    outer length is used up, when the bytes left start with padding, when
    the size prefix is not valid, or when both attempts fail (the
    decompressor rejects the payload or the nested unpack throws). When the
    outer length is not used up, bytes are left, one of the first 100 of
    them is not zero and the size prefix is valid, the document that
    raw-deflate decompression and the nested unpack give is attached as
    "deflate", and, when that attempt fails, the one that zlib decompression
    and the nested unpack give is attached as "zlib", each with its sizes.
    Whatever document is returned has a nested one exactly in these cases. *)
Theorem unpack_nested_document depth buf outerLen st1 ms st2 :
  leb128u buf {| pos := 0; blobs := [] |} = Ok (outerLen, st1) →
  outerLen < 2 ^ 53 →
  readStruct buf (readValue buf (S (length buf))) outerLen st1 = Ok (ms, st2) →
  Z.of_nat (pos st2) < 2 ^ 53 →
  (outerLen ≤ Z.of_nat (pos st2) - Z.of_nat (pos st1) →
     unpack (S depth) buf = Ok (outerDoc buf outerLen ms st2 None))
  ∧ (allZeros buf st2 = true →
     unpack (S depth) buf = Ok (outerDoc buf outerLen ms st2 None))
  ∧ (compressedPayload buf st2 = None →
     unpack (S depth) buf = Ok (outerDoc buf outerLen ms st2 None))
  ∧ (∀ size c, compressedPayload buf st2 = Some (size, c) →
       (inflateRawSync c = None
        ∨ ∃ d, inflateRawSync c = Some d ∧ unpack depth d = Throw) →
       (inflateSync c = None
        ∨ ∃ d, inflateSync c = Some d ∧ unpack depth d = Throw) →
       unpack (S depth) buf = Ok (outerDoc buf outerLen ms st2 None))
  ∧ (∀ size c d innerDoc,
       Z.of_nat (pos st2) - Z.of_nat (pos st1) < outerLen →
       0 < remaining buf st2 →
       allZeros buf st2 = false →
       compressedPayload buf st2 = Some (size, c) →
       inflateRawSync c = Some d → unpack depth d = Ok innerDoc →
       unpack (S depth) buf
       = Ok (outerDoc buf outerLen ms st2
               (Some {| compression := "deflate"; compressedSize := size;
                        decompressedSize := length d; inner := innerDoc |})))
  ∧ (∀ size c d innerDoc,
       Z.of_nat (pos st2) - Z.of_nat (pos st1) < outerLen →
       0 < remaining buf st2 →
       allZeros buf st2 = false →
       compressedPayload buf st2 = Some (size, c) →
       (inflateRawSync c = None
        ∨ ∃ d0, inflateRawSync c = Some d0 ∧ unpack depth d0 = Throw) →
       inflateSync c = Some d → unpack depth d = Ok innerDoc →
       unpack (S depth) buf
       = Ok (outerDoc buf outerLen ms st2
               (Some {| compression := "zlib"; compressedSize := size;
                        decompressedSize := length d; inner := innerDoc |})))
  ∧ unpack (S depth) buf ≠ Throw
  ∧ (∀ doc, unpack (S depth) buf = Ok doc →
       doc_content doc = ms ∧ doc_blobs doc = blobs st2
       ∧ doc_outerLength doc = outerLen
       ∧ ∀ blob, doc_compressedData doc = Some blob ↔
           Z.of_nat (pos st2) - Z.of_nat (pos st1) < outerLen
           ∧ 0 < remaining buf st2
           ∧ allZeros buf st2 = false
           ∧ ∃ size c, compressedPayload buf st2 = Some (size, c)
               ∧ (tryInflate (unpack depth) inflateRawSync "deflate" size c
                    = Ok (Some blob)
                  ∨ (tryInflate (unpack depth) inflateRawSync "deflate" size c
                       = Ok None
                     ∧ tryInflate (unpack depth) inflateSync "zlib" size c
                       = Ok (Some blob)))).
Proof.
  intros Hl _ Hs _.
  rewrite (unpack_after_struct depth buf outerLen st1 ms st2 Hl Hs).
  pose proof (readCompressedBlob_cases (unpack depth) buf st2) as Hblob.
  split_and!.
  - intros Hfull. rewrite bool_decide_false by lia. done.
  - intros Hz. rewrite Hz. by destruct (_ && _).
  - intros Hnone. rewrite Hnone in Hblob. rewrite Hblob.
    by destruct (_ && _), (allZeros buf st2).
  - intros size c Hp Hraw Hzlib. rewrite Hp in Hblob.
    rewrite (tryInflate_rejects _ _ _ _ _ Hraw) in Hblob.
    rewrite Hblob, (tryInflate_rejects _ _ _ _ _ Hzlib).
    by destruct (_ && _), (allZeros buf st2).
  - intros size c d innerDoc Hlt Hrem Hz Hp Hraw Hinner.
    rewrite !bool_decide_true by done. cbn [andb]. rewrite Hz.
    rewrite Hp in Hblob.
    rewrite (tryInflate_attaches _ _ _ _ _ _ _ Hraw Hinner) in Hblob.
    by rewrite Hblob.
  - intros size c d innerDoc Hlt Hrem Hz Hp Hraw Hzlib Hinner.
    rewrite !bool_decide_true by done. cbn [andb]. rewrite Hz.
    rewrite Hp in Hblob.
    rewrite (tryInflate_rejects _ _ _ _ _ Hraw) in Hblob.
    rewrite Hblob, (tryInflate_attaches _ _ _ _ _ _ _ Hzlib Hinner). done.
  - destruct (_ && _); [|done]. destruct (allZeros buf st2); [done|].
    destruct (compressedPayload buf st2) as [[size c]|]; [|by rewrite Hblob].
    destruct (tryInflate (unpack depth) inflateRawSync "deflate" size c)
      as [[b|]| |] eqn:Hraw; try done; rewrite Hblob; try done.
    pose proof (tryInflate_no_throw (unpack depth) inflateSync "zlib" size c).
    by destruct (tryInflate (unpack depth) inflateSync "zlib" size c).
  - intros doc Hdoc.
    destruct (bool_decide (Z.of_nat (pos st2) - Z.of_nat (pos st1) < outerLen))
      eqn:Hlt; cbn [andb] in Hdoc.
    2: { injection Hdoc as <-. split_and!; try done.
         apply bool_decide_eq_false in Hlt. intros blob. split; [done|].
         intros (? & _). lia. }
    apply bool_decide_eq_true in Hlt.
    destruct (bool_decide (0 < remaining buf st2)) eqn:Hrem.
    2: { injection Hdoc as <-. split_and!; try done.
         apply bool_decide_eq_false in Hrem. intros blob. split; [done|].
         intros (_ & ? & _). lia. }
    apply bool_decide_eq_true in Hrem.
    destruct (allZeros buf st2) eqn:Hz.
    { injection Hdoc as <-. split_and!; try done.
      intros blob. split; [done|]. intros (_ & _ & ? & _). done. }
    destruct (compressedPayload buf st2) as [[size c]|] eqn:Hp.
    2: { rewrite Hblob in Hdoc. injection Hdoc as <-. split_and!; try done.
         intros blob. split; [done|]. intros (_ & _ & _ & ? & ? & ? & _). done. }
    destruct (tryInflate (unpack depth) inflateRawSync "deflate" size c)
      as [[b|]| |] eqn:Hraw; try done.
    + rewrite Hblob in Hdoc. injection Hdoc as <-. split_and!; try done.
      intros blob. cbn [doc_compressedData outerDoc]. split.
      * intros [= <-]. split_and!; try done. exists size, c. split; [done|].
        by left.
      * intros (_ & _ & _ & s' & c' & [= <- <-] & [H|[H _]]); congruence.
    + rewrite Hblob in Hdoc.
      destruct (tryInflate (unpack depth) inflateSync "zlib" size c)
        as [nested| |] eqn:Hzlib; try done.
      injection Hdoc as <-. split_and!; try done.
      intros blob. cbn [doc_compressedData outerDoc]. split.
      * intros ->. split_and!; try done. exists size, c. split; [done|].
        right. done.
      * intros (_ & _ & _ & s' & c' & [= <- <-] & [H|[_ H]]); congruence.
    + rewrite Hblob in Hdoc. done.
Qed.

End Unpack.

End Bond.

Section Runs.
Import Samples.

Lemma replay_from_any_sample_witness :
  ∃ p, MotionExtractor.extractBase09Position [threeFrames] 0 !! 1%nat = Some p
    ∧ MotionExtractor.positions
        (MotionExtractor.replay (MotionExtractor.restartAt p)
           (drop 1 (MotionExtractor.base09Samples [threeFrames] 0)))
      = drop 1 (MotionExtractor.extractBase09Position [threeFrames] 0).
Proof.
  eexists. split; [vm_compute; reflexivity|].
  apply (replay_from_any_sample [threeFrames] 0 1). vm_compute. reflexivity.
Defined.

(** Neighbouring frames with disjoint spans make all frames disjoint. *)
Lemma disjointb_sound (frames : list FilmParser.ParsedFrame) :
  FilmParser.disjointb frames = true → FilmParser.disjointAscending frames.
Proof.
  intros Hb.
  assert (∀ fs, FilmParser.disjointb fs = true →
            ∀ f rest, fs = f :: rest →
              Forall (λ g, FilmParser.offset f + 19 < FilmParser.offset g) rest
              ∧ FilmParser.disjointb rest = true) as Hhead.
  { intros fs. induction fs as [|f0 fs IH]; intros Hfs f rest [= <- <-].
    destruct fs as [|g fs]; [by split|].
    cbn [FilmParser.disjointb] in Hfs.
    apply andb_true_iff in Hfs as [Hfg%bool_decide_eq_true Hrest].
    destruct (IH Hrest g fs eq_refl) as [Hall _].
    split; [|done]. constructor; [done|].
    eapply Forall_impl; [exact Hall|]. simpl. intros. lia. }
  induction frames as [|f frames IH]; intros i j a b Hij Ha Hb'.
  { by rewrite lookup_nil in Ha. }
  destruct (Hhead _ Hb f frames eq_refl) as [Hall Hrest].
  destruct j as [|j]; [lia|]. destruct i as [|i].
  - injection Ha as <-. simpl in Hb'.
    rewrite Forall_forall in Hall. apply Hall.
    by eapply list_elem_of_lookup_2.
  - simpl in Ha, Hb'. apply (IH Hrest i j); [lia|done..].
Qed.

Lemma frameAtOffset_correct_witness :
  FilmParser.frameAtOffset 45 threeParsed = Ok (Some 2)
  ∧ FilmParser.frameAtOffset 60 threeParsed = Ok None.
Proof.
  assert (Hdis : FilmParser.disjointAscending threeParsed)
    by (apply disjointb_sound; vm_compute; reflexivity).
  assert (Hlen : Z.of_nat (length threeParsed) ≤ 2 ^ 31)
    by (vm_compute; discriminate).
  split.
  - destruct (frameAtOffset_correct threeParsed 45 Hdis Hlen) as [Hfound _].
    eapply (Hfound 2%nat); [vm_compute; reflexivity|].
    split; vm_compute; discriminate.
  - destruct (frameAtOffset_correct threeParsed 60 Hdis Hlen) as [_ Hnone].
    apply Hnone. intros i f Hf [H1 H2].
    destruct i as [|[|[|i]]]; vm_compute in Hf; [| | |discriminate];
      injection Hf as <-; vm_compute in H2; by apply H2.
Defined.

Lemma scanFireEvents_filters_witness :
  FireScanner.leadMatches fireBadSuffix 0 = true
  ∧ FireScanner.scanStep fireBadSuffix [0]
      {| FireScanner.events := []; FireScanner.weaponCounts := ∅ |} 0
    = {| FireScanner.events := []; FireScanner.weaponCounts := ∅ |}.
Proof.
  split; [vm_compute; reflexivity|].
  apply (proj1 (proj2 (scanFireEvents_filters fireBadSuffix [0]))).
  right. right. vm_compute. reflexivity.
Defined.

(** A candidate that passes every check is reported, with its weapon name
    and one count for it. *)
Lemma scanFireEvents_accepts_AR :
  ∃ e, FireScanner.events (FireScanner.scanFireEvents fireAR [0]) = [e]
    ∧ FireScanner.offset e = 0%nat ∧ FireScanner.counter e = 4
    ∧ FireScanner.slot e = 1
    ∧ FireScanner.weaponId e = "48c19d2d42c9679f"%string
    ∧ FireScanner.weaponName e = "MA40 AR"%string
    ∧ FireScanner.weaponCounts (FireScanner.scanFireEvents fireAR [0])
        !! "MA40 AR"%string = Some 1%nat.
Proof. eexists. split; [vm_compute; reflexivity|]. by vm_compute. Qed.

(** A trailer that is neither used up nor zero, yet no nested document: the
    size prefix 0x01020304 exceeds the bytes left, whatever the decompressor. *)
Lemma unpack_trailer_without_nested :
  ∃ ms st1 st2,
    BondParser.leb128u [5; 0; 1; 2; 3; 4] {| BondParser.pos := 0; BondParser.blobs := [] |}
    = Ok (5, st1)
    ∧ BondParser.readStruct [5; 0; 1; 2; 3; 4]
        (BondParser.readValue [5; 0; 1; 2; 3; 4] 7) 5 st1 = Ok (ms, st2)
    ∧ Z.of_nat (BondParser.pos st2) - Z.of_nat (BondParser.pos st1) < 5
    ∧ drop (BondParser.pos st2) [5; 0; 1; 2; 3; 4] = [1; 2; 3; 4]
    ∧ BondParser.allZeros [5; 0; 1; 2; 3; 4] st2 = false
    ∧ BondParser.unpack stored stored 2 [5; 0; 1; 2; 3; 4]
      = Ok (BondParser.outerDoc [5; 0; 1; 2; 3; 4] 5 ms st2 None).
Proof.
  eexists _, _, _. split; [vm_compute; reflexivity|].
  split; [vm_compute; reflexivity|]. by vm_compute.
Qed.

Lemma unpack_nested_document_witness :
  BondParser.unpack stored stored 2 [2; 0; 0; 0; 0; 2; 1; 0]
  = Ok (BondParser.outerDoc [2; 0; 0; 0; 0; 2; 1; 0] 2
          {| BondParser.fields := ∅; BondParser.hasBaseClass := false |}
          {| BondParser.pos := 2; BondParser.blobs := [] |}
          (Some {| BondParser.compression := "deflate";
                   BondParser.compressedSize := 2;
                   BondParser.decompressedSize := 2;
                   BondParser.inner :=
                     BondParser.outerDoc [1; 0] 1
                       {| BondParser.fields := ∅;
                          BondParser.hasBaseClass := false |}
                       {| BondParser.pos := 2; BondParser.blobs := [] |}
                       None |}))
  ∧ BondParser.unpack rejecting rejecting 2 [2; 0; 0; 0; 0; 2; 1; 0]
    = Ok (BondParser.outerDoc [2; 0; 0; 0; 0; 2; 1; 0] 2
            {| BondParser.fields := ∅; BondParser.hasBaseClass := false |}
            {| BondParser.pos := 2; BondParser.blobs := [] |} None).
Proof.
  split.
  - apply (proj1 (proj2 (proj2 (proj2 (proj2
              (unpack_nested_document stored stored 1
                 [2; 0; 0; 0; 0; 2; 1; 0] 2
                 {| BondParser.pos := 1; BondParser.blobs := [] |}
                 {| BondParser.fields := ∅; BondParser.hasBaseClass := false |}
                 {| BondParser.pos := 2; BondParser.blobs := [] |}
                 ltac:(vm_compute; reflexivity)
                 ltac:(vm_compute; reflexivity)
                 ltac:(vm_compute; reflexivity)
                 ltac:(vm_compute; reflexivity)))))) 2 [1; 0] [1; 0]);
      vm_compute; reflexivity.
  - apply (proj1 (proj2 (proj2 (proj2
              (unpack_nested_document rejecting rejecting 1
                 [2; 0; 0; 0; 0; 2; 1; 0] 2
                 {| BondParser.pos := 1; BondParser.blobs := [] |}
                 {| BondParser.fields := ∅; BondParser.hasBaseClass := false |}
                 {| BondParser.pos := 2; BondParser.blobs := [] |}
                 ltac:(vm_compute; reflexivity)
                 ltac:(vm_compute; reflexivity)
                 ltac:(vm_compute; reflexivity)
                 ltac:(vm_compute; reflexivity))))) 2 [1; 0]);
      [vm_compute; reflexivity | left; reflexivity | left; reflexivity].
Defined.

(** With a decompressor that accepts the payload the nested document is
    attached, with its kind and sizes. *)
Lemma unpack_attaches_nested :
  ∃ ms bl nested,
    BondParser.unpack stored stored 2 [2; 0; 0; 0; 0; 2; 1; 0]
    = Ok (BondParser.mkBondDocument "Bond Compact Binary v2" 8 2 ms bl (Some nested))
    ∧ BondParser.compression nested = "deflate"%string
    ∧ BondParser.compressedSize nested = 2
    ∧ BondParser.decompressedSize nested = 2%nat
    ∧ BondParser.doc_outerLength (BondParser.inner nested) = 1.
Proof. eexists _, _, _. split; [vm_compute; reflexivity|]. by vm_compute. Qed.

End Runs.

Section FrameLookupAscending.
Import FilmParser.

(** The search on a window of a list that is only ascending by offset. *)
Lemma frameAtOffset_loop_ascending (frames : list ParsedFrame) (off : Z) :
  ascending frames →
  Z.of_nat (length frames) ≤ 2 ^ 31 →
  ∀ (fuel : nat) (lo hi : Z),
    0 ≤ lo → hi < Z.of_nat (length frames) → lo ≤ hi + 1 →
    hi - lo + 1 < Z.of_nat fuel →
    (∀ i f, frames !! i = Some f → Z.of_nat i < lo → offset f + 19 < off) →
    (∀ i f, frames !! i = Some f → hi < Z.of_nat i → off < offset f) →
    ∃ r, frameAtOffset_loop fuel off frames lo hi = Ok r
         ∧ match r with
           | Some m => ∃ f, 0 ≤ m ∧ frames !! Z.to_nat m = Some f ∧ spans f off
           | None => ∀ i f, frames !! i = Some f → ¬ spans f off
           end.
Proof.
  intros Hasc Hlen fuel.
  induction fuel as [|fuel IH]; intros lo hi Hlo Hhi Hle Hfuel Hleft Hright.
  - lia.
  - simpl. case_bool_decide as Hwin.
    + rewrite ushr_half by lia. set (mid := (lo + hi) `div` 2).
      assert (lo ≤ mid ≤ hi) as Hm by (unfold mid; split;
        [apply Z.div_le_lower_bound | apply Z.div_le_upper_bound]; lia).
      destruct (lookup_lt_is_Some_2 frames (Z.to_nat mid)) as [f Hf]; [lia|].
      rewrite Hf. case_bool_decide as Hstart; [|case_bool_decide as Hend].
      * apply IH; try lia; [done|].
        intros i g Hg Hi.
        destruct (decide (Z.of_nat i = mid)) as [Heq|Hne].
        { replace i with (Z.to_nat mid) in Hg by lia.
          rewrite Hf in Hg. by injection Hg as <-. }
        assert (Z.to_nat mid < i)%nat as Hlt by lia.
        specialize (Hasc _ _ _ _ Hlt Hf Hg). lia.
      * apply IH; try lia; [|done].
        intros i g Hg Hi.
        destruct (decide (Z.of_nat i = mid)) as [Heq|Hne].
        { replace i with (Z.to_nat mid) in Hg by lia.
          rewrite Hf in Hg. by injection Hg as <-. }
        assert (i < Z.to_nat mid)%nat as Hlt by lia.
        specialize (Hasc _ _ _ _ Hlt Hg Hf). lia.
      * exists (Some mid). split; [done|]. exists f. unfold spans.
        split_and!; [lia|done|lia|lia].
    + exists None. split; [done|]. intros i f Hf [Hs He].
      destruct (decide (Z.of_nat i < lo)) as [Hi|Hi].
      * specialize (Hleft _ _ Hf Hi). lia.
      * assert (hi < Z.of_nat i) as Hi' by lia.
        specialize (Hright _ _ Hf Hi'). lia.
Qed.

Lemma parseFrames_length data chunkOffsets fs :
  parseFrames data chunkOffsets = Some fs → (length fs ≤ length data)%nat.
Proof.
  intros Hfs.
  destruct (parseFrames_emitted data chunkOffsets) as (fs' & Hfs' & HF).
  rewrite Hfs in Hfs'. injection Hfs' as <-.
  rewrite (Forall2_length _ _ _ HF).
  etrans; [apply length_filter|]. unfold findMarkers.
  etrans; [apply length_filter|]. rewrite length_seq. lia.
Qed.

(** X1. On the frames a scan returns, whose spans may overlap, the lookup
    still ends with a frame that holds the offset when some frame does, and
    with [null] only when none does. *)
Theorem frameAtOffset_after_parseFrames data chunkOffsets fs (off : Z) :
  parseFrames data chunkOffsets = Some fs →
  Z.of_nat (length data) ≤ 2 ^ 31 →
  ∃ r, frameAtOffset off fs = Ok r
       ∧ match r with
         | Some m => ∃ f, 0 ≤ m ∧ fs !! Z.to_nat m = Some f ∧ spans f off
         | None => ∀ i f, fs !! i = Some f → ¬ spans f off
         end.
Proof.
  intros Hfs Hlen.
  pose proof (parseFrames_length _ _ _ Hfs) as Hle.
  assert (Hasc : ascending fs).
  { intros i j f g Hij Hf Hg.
    destruct (parseFrames_pair _ _ _ _ _ _ _ Hfs Hf Hg Hij)
      as (a & b & -> & -> & _ & _ & Hab & _). lia. }
  unfold frameAtOffset.
  apply frameAtOffset_loop_ascending; try done; try lia.
  intros i f Hf%lookup_lt_Some Hi. lia.
Qed.

Lemma frameAtOffset_after_parseFrames_witness :
  ∃ fs, parseFrames Samples.twoMarkers [0] = Some fs
        ∧ frameAtOffset 21 fs = Ok (Some 1).
Proof.
  destruct (parseFrames_emitted Samples.twoMarkers [0]) as (fs & Hfs & _).
  destruct (frameAtOffset_after_parseFrames Samples.twoMarkers [0] fs 21 Hfs)
    as (r & Hr & _); [vm_compute; discriminate|].
  exists fs. split; [exact Hfs|].
  assert (Hfs' := Hfs). vm_compute in Hfs'. injection Hfs' as <-.
  assert (Hr' := Hr). vm_compute in Hr'. injection Hr' as <-. exact Hr.
Defined.

End FrameLookupAscending.

(** * Integer facts about the bitwise operators on small operands *)
Section JSArith.

Lemma toInt32_small (z : Z) : - 2 ^ 31 ≤ z < 2 ^ 31 → JS.toInt32 z = z.
Proof. intros Hz. unfold JS.toInt32. rewrite Z.mod_small; lia. Qed.

Lemma shl_small (a n : Z) :
  0 ≤ n → 0 ≤ a → a * 2 ^ n < 2 ^ 31 → JS.shl a n = a * 2 ^ n.
Proof.
  intros Hn Ha Hlt. unfold JS.shl.
  assert (0 < 2 ^ n) by (apply Z.pow_pos_nonneg; lia).
  rewrite (toInt32_small a) by nia.
  rewrite Z.shiftl_mul_pow2 by done. apply toInt32_small. nia.
Qed.

Lemma shr_small (a n : Z) :
  0 ≤ n → - 2 ^ 31 ≤ a < 2 ^ 31 → JS.shr a n = a `div` 2 ^ n.
Proof.
  intros Hn Ha. unfold JS.shr. rewrite toInt32_small by done.
  by rewrite Z.shiftr_div_pow2.
Qed.

Lemma band_ones (a k : Z) :
  0 ≤ k < 31 → JS.band a (Z.ones k) = JS.toInt32 a `mod` 2 ^ k.
Proof.
  intros Hk. unfold JS.band.
  assert (0 < 2 ^ k < 2 ^ 31).
  { split; [apply Z.pow_pos_nonneg; lia | apply Z.pow_lt_mono_r; lia]. }
  rewrite (toInt32_small (Z.ones k)) by (rewrite Z.ones_equiv; lia).
  by rewrite Z.land_ones by lia.
Qed.

Lemma band_ones_range (a k : Z) :
  0 ≤ k < 31 → 0 ≤ JS.band a (Z.ones k) < 2 ^ k.
Proof.
  intros Hk. rewrite band_ones by done. apply Z.mod_pos_bound.
  apply Z.pow_pos_nonneg; lia.
Qed.

Lemma land_shiftl_low (hi lo k : Z) :
  0 ≤ k → 0 ≤ lo < 2 ^ k → Z.land (Z.shiftl hi k) lo = 0.
Proof.
  intros Hk Hlo. apply Z.bits_inj'. intros n Hn.
  rewrite Z.land_spec, Z.bits_0.
  destruct (decide (n < k)).
  - by rewrite Z.shiftl_spec_low.
  - destruct (decide (lo = 0)) as [->|]; [by rewrite Z.bits_0, andb_false_r|].
    rewrite (Z.bits_above_log2 lo n), andb_false_r; [done|lia|].
    assert (Z.log2 lo < k) by (apply Z.log2_lt_pow2; lia). lia.
Qed.

Lemma lor_shiftl_add (hi lo k : Z) :
  0 ≤ k → 0 ≤ lo < 2 ^ k → Z.lor (Z.shiftl hi k) lo = hi * 2 ^ k + lo.
Proof.
  intros Hk Hlo.
  pose proof (Z.add_lor_land (Z.shiftl hi k) lo) as H.
  rewrite land_shiftl_low, Z.add_0_r in H by done.
  by rewrite H, Z.shiftl_mul_pow2.
Qed.

(** [(hi << k) | lo] for operands that do not reach the sign bit. *)
Lemma bor_shl_add (hi lo k : Z) :
  0 ≤ k < 31 → 0 ≤ hi → hi * 2 ^ k < 2 ^ 31 → 0 ≤ lo < 2 ^ k →
  JS.bor (JS.shl hi k) lo = hi * 2 ^ k + lo.
Proof.
  intros Hk Hhi Hlt Hlo. rewrite shl_small by lia.
  assert (0 < 2 ^ k < 2 ^ 31).
  { split; [apply Z.pow_pos_nonneg; lia | apply Z.pow_lt_mono_r; lia]. }
  unfold JS.bor. rewrite (toInt32_small lo), (toInt32_small (hi * 2 ^ k)) by nia.
  rewrite <- (Z.shiftl_mul_pow2 hi k) at 1 by lia. apply lor_shiftl_add; lia.
Qed.

Lemma byteArray_lookup data i b :
  byteArray data → data !! i = Some b → 0 ≤ b < 256.
Proof. intros Hd Hb. by apply (Forall_lookup_1 _ _ _ _ Hd Hb). Qed.

End JSArith.

Section FrameFields.
Import FilmParser.

Implicit Types (data chunkOffsets : list Z) (pos idx : nat).

Lemma frameAt_derived data chunkOffsets idx pos f :
  frameAt data chunkOffsets idx pos = Some f →
  index f = idx
  ∧ chunkIndex f = getChunkIndex (Z.of_nat pos) chunkOffsets
  ∧ playerIndex f = JS.band (JS.shr (JS.int32_of (data !! (pos + 6)%nat)) 5) 0x07
  ∧ baseType f = JS.band (JS.int32_of (data !! (pos + 6)%nat)) 0x1f
  ∧ isPositionFrame f
    = jsEq (data !! (pos + 5)%nat) 0x40 && bool_decide (baseType f = 0x09)
      && bool_decide (JS.shr (dataByte data pos 0) 4 = 4)
  ∧ hasPlayer f
    = jsEq (data !! (pos + 5)%nat) 0x40
      && (bool_decide (baseType f = 0x09) || bool_decide (baseType f = 0x08))
  ∧ coord1 f = (if isPositionFrame f
                then Some (dataByte data pos 0 * 256 + dataByte data pos 1)
                else None)
  ∧ coord2 f = (if isPositionFrame f
                then Some (JS.bor (JS.shl (JS.band (dataByte data pos 2) 0x0f) 8)
                                  (dataByte data pos 3))
                else None).
Proof.
  unfold frameAt. intros H.
  destruct (toHex2 (data !! (pos + 5)%nat)); simpl in H; [|done].
  destruct (toHex2 (data !! (pos + 6)%nat)); simpl in H; [|done].
  destruct (toHex2 (data !! (pos + 7)%nat)); simpl in H; [|done].
  destruct (toHex2 (data !! (pos + 8)%nat)); simpl in H; [|done].
  by inversion H.
Qed.

(** The [index] of a pushed frame is its place in the array. *)
Lemma parseFrames_loop_index data chunkOffsets ms acc fs :
  foldl (parseFrames_step data chunkOffsets) (Some acc) ms = Some fs →
  (∀ k f, acc !! k = Some f → index f = k) →
  ∀ k f, fs !! k = Some f → index f = k.
Proof.
  revert acc. induction ms as [|pos ms IH]; intros acc Hfold Hacc.
  - simpl in Hfold. by injection Hfold as <-.
  - simpl in Hfold. case_bool_decide.
    + by apply (IH acc).
    + destruct (frameAt data chunkOffsets (length acc) pos) as [f0|] eqn:Hf0.
      * simpl in Hfold. apply (IH (acc ++ [f0])); [done|].
        intros k f Hk. apply lookup_app_Some in Hk as [Hk|[Hge Hk]].
        { by apply Hacc. }
        apply list_lookup_singleton_Some in Hk as [Hk <-].
        destruct (frameAt_derived _ _ _ _ _ Hf0) as [-> _]. lia.
      * simpl in Hfold. clear -Hfold. exfalso.
        induction ms as [|? ? IHms]; simpl in Hfold; [done|]. by apply IHms.
Qed.

Lemma dataByte_byte data pos d :
  byteArray data → 0 ≤ dataByte data pos d < 256.
Proof.
  intros Hd. unfold dataByte. case_bool_decide; [|lia].
  destruct (data !! (pos + 10 + d)%nat) as [b|] eqn:Hb; simpl; [|lia].
  by apply (byteArray_lookup data (pos + 10 + d) b).
Qed.

(** X2. In a scan of a byte buffer every frame carries its place in the
    list as [index], a tick in 0..65535, a player index in 0..7, a base type
    in 0..31 and ten data bytes; a position frame has a player, its coord1
    lies in 16384..20479 and its coord2 in 0..4095, and any other frame has
    no coordinates. *)
Theorem parseFrames_field_ranges data chunkOffsets fs k f :
  byteArray data →
  parseFrames data chunkOffsets = Some fs →
  fs !! k = Some f →
  index f = k
  ∧ 0 ≤ tick f ≤ 65535
  ∧ 0 ≤ playerIndex f ≤ 7
  ∧ 0 ≤ baseType f ≤ 31
  ∧ Forall (λ b, 0 ≤ b < 256) (dataBytes f)
  ∧ (isPositionFrame f = true →
       hasPlayer f = true
       ∧ ∃ c1 c2, coord1 f = Some c1 ∧ coord2 f = Some c2
                  ∧ 16384 ≤ c1 ≤ 20479 ∧ 0 ≤ c2 ≤ 4095)
  ∧ (isPositionFrame f = false → coord1 f = None ∧ coord2 f = None).
Proof.
  intros Hd Hfs Hf.
  assert (Hidx : index f = k).
  { apply (parseFrames_loop_index data chunkOffsets (findMarkers data) [] fs);
      [done| |done]. intros ? ? H. by rewrite lookup_nil in H. }
  destruct (parseFrames_emitted data chunkOffsets) as (fs' & Hfs' & HF).
  rewrite Hfs in Hfs'. injection Hfs' as <-.
  destruct (Forall2_lookup_l _ _ _ _ _ HF Hf) as (pos & _ & Hfit & idx & Hfr).
  unfold fits in Hfit.
  destruct (frameAt_fields _ _ _ _ _ Hfr) as (_ & _ & _ & _ & _ & _ & Ht & Hdb).
  destruct (frameAt_derived _ _ _ _ _ Hfr)
    as (_ & _ & Hpi & Hbt & Hpf & Hhp & Hc1 & Hc2).
  split; [done|]. split.
  { rewrite Ht.
    destruct (lookup_lt_is_Some_2 data (pos + 3)) as [b3 Hb3]; [lia|].
    destruct (lookup_lt_is_Some_2 data (pos + 4)) as [b4 Hb4]; [lia|].
    pose proof (byteArray_lookup _ _ _ Hd Hb3).
    pose proof (byteArray_lookup _ _ _ Hd Hb4).
    rewrite Hb3, Hb4. simpl JS.int32_of. rewrite !toInt32_small by lia.
    rewrite bor_shl_add by lia. lia. }
  split.
  { rewrite Hpi. pose proof (band_ones_range
      (JS.shr (JS.int32_of (data !! (pos + 6)%nat)) 5) 3 ltac:(lia)) as H.
    change (Z.ones 3) with 7 in H. change (2 ^ 3) with 8 in H. lia. }
  split.
  { rewrite Hbt. pose proof (band_ones_range
      (JS.int32_of (data !! (pos + 6)%nat)) 5 ltac:(lia)) as H.
    change (Z.ones 5) with 31 in H. change (2 ^ 5) with 32 in H. lia. }
  split.
  { rewrite Hdb. apply Forall_fmap, Forall_forall. intros d _. simpl.
    by apply dataByte_byte. }
  split.
  - intros Hpos. rewrite Hpos in Hc1, Hc2. rewrite Hpos in Hpf.
    symmetry in Hpf. apply andb_true_iff in Hpf as [Hpf Hnib].
    apply andb_true_iff in Hpf as [H5 H9].
    split; [rewrite Hhp, H5, H9; done|].
    eexists _, _. split; [exact Hc1|]. split; [exact Hc2|].
    apply bool_decide_eq_true in Hnib.
    pose proof (dataByte_byte data pos 0 Hd) as H0.
    pose proof (dataByte_byte data pos 1 Hd) as H1.
    pose proof (dataByte_byte data pos 3 Hd) as H3.
    rewrite shr_small in Hnib by lia. change (2 ^ 4) with 16 in Hnib.
    assert (64 ≤ dataByte data pos 0 ≤ 79).
    { pose proof (Z.div_mod (dataByte data pos 0) 16 ltac:(lia)).
      pose proof (Z.mod_pos_bound (dataByte data pos 0) 16 ltac:(lia)). lia. }
    pose proof (band_ones_range (dataByte data pos 2) 4 ltac:(lia)) as H2.
    change (Z.ones 4) with 15 in H2. change (2 ^ 4) with 16 in H2.
    rewrite bor_shl_add by lia. change (2 ^ 8) with 256. lia.
  - intros Hpos. by rewrite Hpos in Hc1, Hc2.
Qed.

Lemma parseFrames_field_ranges_witness :
  ∃ f, Samples.threeParsed !! 2%nat = Some f
       ∧ index f = 2%nat ∧ isPositionFrame f = true
       ∧ coord1 f = Some 16640 ∧ coord2 f = Some 4080
       ∧ 0 ≤ tick f ≤ 65535.
Proof.
  destruct (parseFrames_emitted Samples.threeFrames [0]) as (fs & Hfs & _).
  assert (Hfs' := Hfs). vm_compute in Hfs'. injection Hfs' as <-.
  eexists. split; [vm_compute; reflexivity|].
  destruct (parseFrames_field_ranges Samples.threeFrames [0] _ 2 _
              ltac:(apply (bool_decide_unpack _); vm_compute; exact I)
              Hfs eq_refl) as (Hi & Ht & _).
  split; [exact Hi|].
  split; [reflexivity|]. split; [reflexivity|]. split; [reflexivity|exact Ht].
Defined.

End FrameFields.

Section ChunkIndex.
Import FilmParser.

Lemma getChunkIndex_from_spec (off : Z) (chunkOffsets : list Z) (n : nat) :
  (∀ j c, (j < n)%nat → chunkOffsets !! j = Some c →
          (getChunkIndex_from n off chunkOffsets < j)%nat → off < c)
  ∧ ((∃ c, chunkOffsets !! getChunkIndex_from n off chunkOffsets = Some c
           ∧ c ≤ off)
     ∨ (getChunkIndex_from n off chunkOffsets = 0%nat
        ∧ ∀ j c, (j < n)%nat → chunkOffsets !! j = Some c → off < c)).
Proof.
  induction n as [|n [IH1 IH2]]; simpl.
  - split; [lia|]. right. split; [done|lia].
  - destruct (chunkOffsets !! n) as [c|] eqn:Hc.
    + case_bool_decide as Hle.
      * split; [lia|]. left. by exists c.
      * split.
        { intros j c' Hj Hc' Hlt. destruct (decide (j = n)) as [->|].
          - rewrite Hc in Hc'. injection Hc' as <-. lia.
          - apply (IH1 j); [lia|done..]. }
        destruct IH2 as [?|[H0 Hall]]; [by left|]. right. split; [done|].
        intros j c' Hj Hc'. destruct (decide (j = n)) as [->|].
        { rewrite Hc in Hc'. injection Hc' as <-. lia. }
        apply (Hall j); [lia|done].
    + split.
      { intros j c' Hj Hc' Hlt. destruct (decide (j = n)) as [->|]; [congruence|].
        apply (IH1 j); [lia|done..]. }
      destruct IH2 as [?|[H0 Hall]]; [by left|]. right. split; [done|].
      intros j c' Hj Hc'. destruct (decide (j = n)) as [->|]; [congruence|].
      apply (Hall j); [lia|done].
Qed.

(** X3. [getChunkIndex] returns the last chunk that starts at or before the
    offset: every later chunk starts after it; when no chunk starts at or
    before the offset (an empty list included) it returns 0. *)
Theorem getChunkIndex_last_start (off : Z) (chunkOffsets : list Z) :
  (∀ j c, chunkOffsets !! j = Some c →
          (getChunkIndex off chunkOffsets < j)%nat → off < c)
  ∧ ((∃ c, chunkOffsets !! getChunkIndex off chunkOffsets = Some c ∧ c ≤ off)
     ∨ (getChunkIndex off chunkOffsets = 0%nat
        ∧ ∀ j c, chunkOffsets !! j = Some c → off < c)).
Proof.
  unfold getChunkIndex.
  destruct (getChunkIndex_from_spec off chunkOffsets (length chunkOffsets))
    as [H1 H2].
  split.
  - intros j c Hc. apply H1; [by eapply lookup_lt_Some|done].
  - destruct H2 as [?|[H0 Hall]]; [by left|]. right. split; [done|].
    intros j c Hc. apply (Hall j); [by eapply lookup_lt_Some|done].
Qed.

End ChunkIndex.

Section FieldMap.
Import FilmParser.

Implicit Types (map : list FieldType) (i : nat).

Lemma length_setLabel j v map : length (setLabel j v map) = length map.
Proof. unfold setLabel. case_bool_decide; [apply length_insert|done]. Qed.

Lemma setLabel_ne j v map i :
  Z.of_nat i ≠ j → setLabel j v map !! i = map !! i.
Proof.
  intros Hne. unfold setLabel. case_bool_decide; [|done].
  apply list_lookup_insert_ne. lia.
Qed.

Lemma setLabel_eq j v map i :
  Z.of_nat i = j → (i < length map)%nat → setLabel j v map !! i = Some v.
Proof.
  intros <- Hlt. unfold setLabel. rewrite bool_decide_true by lia.
  rewrite Nat2Z.id. by apply list_lookup_insert_eq.
Qed.

(** The two loops over the data bytes of a frame. *)
Lemma dataLoop_length (pos len : Z) v ds map :
  length (foldl (λ map d, if bool_decide (pos + 10 + d < len)
                          then setLabel (pos + 10 + d) v map else map) map ds)
  = length map.
Proof.
  revert map. induction ds as [|d ds IH]; intros map; [done|].
  simpl. rewrite IH. case_bool_decide; [apply length_setLabel|done].
Qed.

Lemma dataLoop_lookup (pos len : Z) v ds map i :
  (∀ d, d ∈ ds → pos + 10 + d < len) →
  (i < length map)%nat →
  foldl (λ map d, if bool_decide (pos + 10 + d < len)
                  then setLabel (pos + 10 + d) v map else map) map ds !! i
  = if bool_decide (Z.of_nat i - pos - 10 ∈ ds) then Some v else map !! i.
Proof.
  revert map. induction ds as [|d ds IH]; intros map Hds Hi.
  - cbn [foldl]. case_bool_decide as H; [|done]. by apply not_elem_of_nil in H.
  - cbn [foldl]. rewrite bool_decide_true by (apply Hds; left).
    rewrite IH; [|intros; apply Hds; by right|by rewrite length_setLabel].
    destruct (decide (Z.of_nat i - pos - 10 ∈ ds)) as [Hin|Hnin].
    + rewrite !bool_decide_true; [done| |done]. by right.
    + rewrite (bool_decide_false _ Hnin).
      destruct (decide (Z.of_nat i = pos + 10 + d)) as [Heq|Hne].
      * rewrite bool_decide_true by (replace (Z.of_nat i - pos - 10) with d by lia; left).
        by apply setLabel_eq.
      * rewrite bool_decide_false, setLabel_ne; [done..|].
        intros [?|?]%elem_of_cons; [lia|done].
Qed.

Lemma dataLoop_outside (pos len : Z) v ds map i :
  (∀ d, d ∈ ds → Z.of_nat i ≠ pos + 10 + d) →
  foldl (λ map d, if bool_decide (pos + 10 + d < len)
                  then setLabel (pos + 10 + d) v map else map) map ds !! i
  = map !! i.
Proof.
  revert map. induction ds as [|d ds IH]; intros map Hds; [done|].
  simpl. rewrite IH by (intros; apply Hds; by right).
  case_bool_decide; [|done]. apply setLabel_ne, Hds. left.
Qed.

Lemma labelFrame_length len map f : length (labelFrame len map f) = length map.
Proof.
  unfold labelFrame. cbv zeta. rewrite !dataLoop_length.
  repeat case_bool_decide; by rewrite ?length_setLabel.
Qed.

(** A frame leaves the labels outside its span as they were. *)
Lemma labelFrame_outside len map f i :
  ¬ spans f (Z.of_nat i) → labelFrame len map f !! i = map !! i.
Proof.
  unfold spans. intros Hout. unfold labelFrame. cbv zeta.
  rewrite !dataLoop_outside.
  - repeat case_bool_decide; rewrite ?setLabel_ne by lia; done.
  - intros d Hd. set_unfold. lia.
  - intros d Hd. set_unfold. lia.
Qed.

(** A frame that lies inside the buffer labels each byte of its span with
    its role. *)
Lemma labelFrame_inside len map f i :
  0 ≤ offset f → offset f + 20 ≤ len → Z.of_nat (length map) = len →
  spans f (Z.of_nat i) →
  labelFrame len map f !! i = Some (roleOf f (Z.of_nat i - offset f)).
Proof.
  unfold spans. intros Hpos Hfit Hlen Hin. unfold labelFrame. cbv zeta.
  rewrite !bool_decide_true by lia.
  rewrite !dataLoop_lookup; rewrite ?dataLoop_length, ?length_setLabel;
    try lia; try (intros d Hd; set_unfold; lia).
  unfold roleOf.
  assert (Z.of_nat i - offset f = 0 ∨ Z.of_nat i - offset f = 1
          ∨ Z.of_nat i - offset f = 2 ∨ Z.of_nat i - offset f = 3
          ∨ Z.of_nat i - offset f = 4 ∨ Z.of_nat i - offset f = 5
          ∨ Z.of_nat i - offset f = 6 ∨ Z.of_nat i - offset f = 7
          ∨ Z.of_nat i - offset f = 8 ∨ Z.of_nat i - offset f = 9
          ∨ Z.of_nat i - offset f = 10 ∨ Z.of_nat i - offset f = 11
          ∨ Z.of_nat i - offset f = 12 ∨ Z.of_nat i - offset f = 13
          ∨ Z.of_nat i - offset f = 14 ∨ Z.of_nat i - offset f = 15
          ∨ Z.of_nat i - offset f = 16 ∨ Z.of_nat i - offset f = 17
          ∨ Z.of_nat i - offset f = 18 ∨ Z.of_nat i - offset f = 19) as Hk by lia.
  destruct_or!; repeat case_bool_decide; set_unfold;
    first [ lia | reflexivity
          | rewrite ?setLabel_ne by lia;
            apply setLabel_eq; rewrite ?length_setLabel; lia ].
Qed.

Lemma buildFieldMap_fold len frames map :
  length (foldl (labelFrame len) map frames) = length map.
Proof.
  revert map. induction frames as [|f frames IH]; intros map; [done|].
  simpl. by rewrite IH, labelFrame_length.
Qed.

Lemma buildFieldMap_fold_outside len frames map i :
  (∀ f, f ∈ frames → ¬ spans f (Z.of_nat i)) →
  foldl (labelFrame len) map frames !! i = map !! i.
Proof.
  revert map. induction frames as [|f frames IH]; intros map Hout; [done|].
  simpl. rewrite IH by (intros; apply Hout; by right).
  apply labelFrame_outside, Hout. left.
Qed.

(** X4. The field map has one label for each byte of the buffer; a byte
    that lies in no frame's span keeps the label None; and a byte in the span
    of a frame that lies inside the buffer, and in the span of no later
    frame, carries the role it has in that frame. *)
Theorem buildFieldMap_labels (data : list Z) (frames : list ParsedFrame) :
  length (buildFieldMap data frames) = length data
  ∧ (∀ i, (i < length data)%nat →
          (∀ f, f ∈ frames → ¬ spans f (Z.of_nat i)) →
          buildFieldMap data frames !! i = Some FNone)
  ∧ (∀ before f after i,
        frames = before ++ f :: after →
        0 ≤ offset f → offset f + 20 ≤ Z.of_nat (length data) →
        spans f (Z.of_nat i) →
        (∀ g, g ∈ after → ¬ spans g (Z.of_nat i)) →
        buildFieldMap data frames !! i
        = Some (roleOf f (Z.of_nat i - offset f))).
Proof.
  unfold buildFieldMap. split_and!.
  - by rewrite buildFieldMap_fold, length_replicate.
  - intros i Hi Hout. rewrite buildFieldMap_fold_outside by done.
    by apply lookup_replicate_2.
  - intros before f after i -> Hpos Hfit Hin Hafter.
    rewrite foldl_app. simpl. rewrite buildFieldMap_fold_outside by done.
    apply labelFrame_inside; try done.
    by rewrite buildFieldMap_fold, length_replicate.
Qed.

End FieldMap.

Section MotionMore.
Import MotionExtractor.

(** X5. For raw values of the two channels (16 and 12 bits) the corrected
    coord1 delta is at most 4000 in absolute value and is 0 (a jump filtered
    out) or the raw difference up to one multiple of 65536; the corrected
    coord2 delta is at most 2048 in absolute value and is the raw difference
    up to one multiple of 4096, never filtered. *)
Theorem correctedDelta_windows (p1 c1 p2 c2 : Z) :
  0 ≤ p1 ≤ 65535 → 0 ≤ c1 ≤ 65535 → 0 ≤ p2 ≤ 4095 → 0 ≤ c2 ≤ 4095 →
  Z.abs (correctedDelta1 p1 c1) ≤ 4000
  ∧ (correctedDelta1 p1 c1 = 0
     ∨ correctedDelta1 p1 c1 = c1 - p1
     ∨ correctedDelta1 p1 c1 = c1 - p1 - 65536
     ∨ correctedDelta1 p1 c1 = c1 - p1 + 65536)
  ∧ Z.abs (correctedDelta2 p2 c2) ≤ 2048
  ∧ (correctedDelta2 p2 c2 = c2 - p2
     ∨ correctedDelta2 p2 c2 = c2 - p2 - 4096
     ∨ correctedDelta2 p2 c2 = c2 - p2 + 4096).
Proof.
  intros Hp1 Hc1 Hp2 Hc2.
  unfold correctedDelta1, correctedDelta2, DISCONTINUITY_THRESHOLD.
  repeat case_bool_decide; lia.
Qed.

Lemma correctedDelta_windows_witness :
  Z.abs (correctedDelta1 65530 5) ≤ 4000
  ∧ (correctedDelta1 65530 5 = 0
     ∨ correctedDelta1 65530 5 = 5 - 65530
     ∨ correctedDelta1 65530 5 = 5 - 65530 - 65536
     ∨ correctedDelta1 65530 5 = 5 - 65530 + 65536)
  ∧ Z.abs (correctedDelta2 4090 3) ≤ 2048
  ∧ (correctedDelta2 4090 3 = 3 - 4090
     ∨ correctedDelta2 4090 3 = 3 - 4090 - 4096
     ∨ correctedDelta2 4090 3 = 3 - 4090 + 4096).
Proof. apply (correctedDelta_windows 65530 5 4090 3); lia. Defined.

Lemma replay_lookup_sample xs k p :
  positions (replay initState xs) !! k = Some p →
  frame p = k ∧ xs !! k = Some (raw1 p, raw2 p).
Proof.
  rewrite <- clear_initState. intros Hp.
  destruct (replay_lookup _ _ _ _ Hp) as (c & stk & Hc & Hstk & Hpc & _).
  destruct (accumulate_clear stk c) as (p' & Hp' & Hfr & Hr1 & Hr2 & _).
  rewrite Hpc in Hp'. injection Hp' as <-.
  split.
  - rewrite Hfr, Hstk, replay_frameCount, length_take. simpl.
    apply lookup_lt_Some in Hc. lia.
  - rewrite Hc, Hr1, Hr2. by destruct c.
Qed.

(** X6. The extraction gives one point per position frame read, in order:
    point [k] has sample index [k] and the raw pair of the [k]-th frame, and
    each point's totals are those of the point before plus the corrected
    deltas of the two raw pairs. *)
Theorem extractBase09Position_points chunks playerIndex :
  length (extractBase09Position chunks playerIndex)
  = length (base09Samples chunks playerIndex)
  ∧ (∀ k p, extractBase09Position chunks playerIndex !! k = Some p →
            frame p = k
            ∧ base09Samples chunks playerIndex !! k = Some (raw1 p, raw2 p))
  ∧ (∀ k p q, extractBase09Position chunks playerIndex !! k = Some p →
              extractBase09Position chunks playerIndex !! S k = Some q →
              cumCoord1 q = cumCoord1 p + correctedDelta1 (raw1 p) (raw1 q)
              ∧ cumCoord2 q = cumCoord2 p + correctedDelta2 (raw2 p) (raw2 q)).
Proof.
  rewrite extract_replay. split_and!.
  - by rewrite replay_length.
  - intros k p. apply replay_lookup_sample.
  - intros k p q Hp Hq. destruct (replay_next _ _ _ _ Hp Hq) as (? & ? & _).
    done.
Qed.

Lemma toInt32_range (z : Z) : - 2 ^ 31 ≤ JS.toInt32 z < 2 ^ 31.
Proof.
  unfold JS.toInt32.
  pose proof (Z.mod_pos_bound (z + 2 ^ 31) (2 ^ 32) ltac:(lia)). lia.
Qed.

Lemma toInt32_idemp (z : Z) : JS.toInt32 (JS.toInt32 z) = JS.toInt32 z.
Proof. apply toInt32_small, toInt32_range. Qed.

(** The ranges of a raw pair read from a byte buffer. *)
Lemma base09Sample_range chunk playerIndex pos c1 c2 :
  byteArray chunk →
  base09Sample chunk playerIndex pos = Some (c1, c2) →
  16384 ≤ c1 ≤ 20479 ∧ 0 ≤ c2 ≤ 4095 ∧ (pos + 13 < length chunk)%nat.
Proof.
  intros Hd. unfold base09Sample.
  case_bool_decide as Hlen; [done|].
  repeat (case_bool_decide; [done|]).
  intros [= <- <-].
  assert (∀ i, (i < length chunk)%nat → 0 ≤ cell chunk i < 256) as Hcell.
  { intros i Hi. unfold cell.
    destruct (lookup_lt_is_Some_2 chunk i Hi) as [b Hb]. rewrite Hb. simpl.
    by apply (byteArray_lookup chunk i b). }
  pose proof (Hcell (pos + 10)%nat ltac:(lia)) as Hb0.
  pose proof (Hcell (pos + 11)%nat ltac:(lia)) as Hb1.
  pose proof (Hcell (pos + 13)%nat ltac:(lia)) as Hb3.
  match goal with H : JS.shr _ 4 = 4 |- _ =>
    rewrite shr_small in H by lia;
    change (2 ^ 4) with 16 in H; rename H into Hnib end.
  pose proof (Z.div_mod (cell chunk (pos + 10)) 16 ltac:(lia)).
  pose proof (Z.mod_pos_bound (cell chunk (pos + 10)) 16 ltac:(lia)).
  pose proof (band_ones_range (cell chunk (pos + 12)) 4 ltac:(lia)) as Hb2.
  change (Z.ones 4) with 15 in Hb2. change (2 ^ 4) with 16 in Hb2.
  rewrite bor_shl_add by lia. change (2 ^ 8) with 256. lia.
Qed.

(** Between two raw coord1 values of the position channel the wraparound
    tests are both false. *)
Lemma correctedDelta1_plain (c1 c1' : Z) :
  16384 ≤ c1 ≤ 20479 → 16384 ≤ c1' ≤ 20479 →
  correctedDelta1 c1 c1'
  = (if bool_decide (4000 < Z.abs (c1' - c1)) then 0 else c1' - c1).
Proof.
  intros H1 H2. unfold correctedDelta1, DISCONTINUITY_THRESHOLD.
  repeat case_bool_decide; lia.
Qed.

(** X7. A raw pair read from a byte buffer: coord1 lies in 16384..20479
    (its high byte has high nibble 4) and coord2 in 0..4095, so between two
    such pairs the coord1 difference never reaches the 16-bit wraparound and
    the corrected coord1 delta is the plain difference, or 0 when it exceeds
    4000. *)
Theorem base09Sample_ranges chunk playerIndex pos c1 c2 :
  byteArray chunk →
  base09Sample chunk playerIndex pos = Some (c1, c2) →
  16384 ≤ c1 ≤ 20479 ∧ 0 ≤ c2 ≤ 4095
  ∧ (pos + 13 < length chunk)%nat
  ∧ ∀ chunk' playerIndex' pos' c1' c2',
      byteArray chunk' →
      base09Sample chunk' playerIndex' pos' = Some (c1', c2') →
      correctedDelta1 c1 c1'
      = (if bool_decide (4000 < Z.abs (c1' - c1)) then 0 else c1' - c1).
Proof.
  intros Hd Hs.
  destruct (base09Sample_range _ _ _ _ _ Hd Hs) as (Hc1 & Hc2 & Hlen).
  split; [done|]. split; [done|]. split; [done|].
  intros chunk' pi' pos' c1' c2' Hd' Hs'.
  destruct (base09Sample_range _ _ _ _ _ Hd' Hs') as (Hc1' & _ & _).
  by apply correctedDelta1_plain.
Qed.

Lemma base09Sample_ranges_witness :
  16384 ≤ 16400 ≤ 20479 ∧ 0 ≤ 288 ≤ 4095
  ∧ (0 + 13 < length Samples.threeFrames)%nat.
Proof.
  destruct (base09Sample_ranges Samples.threeFrames 0 0 16400 288
              ltac:(apply (bool_decide_unpack _); vm_compute; exact I)
              ltac:(vm_compute; reflexivity)) as (H1 & H2 & H3 & _).
  split_and!; done.
Defined.

End MotionMore.

Section ViewerAndCli.
Import FilmParser.

Implicit Types (data chunkOffsets : list Z) (pos idx : nat).

(** The frame built at a marker and the raw pair read at it agree. *)
Lemma frameAt_base09Sample data chunkOffsets idx pos f p :
  fits data pos →
  frameAt data chunkOffsets idx pos = Some f →
  MotionExtractor.base09Sample data p pos
  = if bool_decide (isPositionFrame f = true ∧ playerIndex f = p)
    then Some (default 0 (coord1 f), default 0 (coord2 f))
    else None.
Proof.
  unfold fits. intros Hfit Hf.
  destruct (frameAt_derived _ _ _ _ _ Hf)
    as (_ & _ & Hpi & Hbt & Hpf & _ & Hc1 & Hc2).
  unfold MotionExtractor.base09Sample.
  rewrite bool_decide_false by lia.
  assert (∀ i, (i < length data)%nat →
               data !! i = Some (MotionExtractor.cell data i)) as Hcell.
  { intros i Hi. unfold MotionExtractor.cell.
    destruct (lookup_lt_is_Some_2 data i Hi) as [b ->]. done. }
  assert (∀ d, (d < 10)%nat →
               dataByte data pos d = MotionExtractor.cell data (pos + 10 + d)) as Hdb.
  { intros d Hd. unfold dataByte. rewrite bool_decide_true by lia. done. }
  rewrite (Hcell (pos + 5)%nat), (Hdb 0%nat) in Hpf by lia.
  rewrite (Hcell (pos + 6)%nat) in Hpi, Hbt by lia.
  simpl JS.int32_of in Hpi, Hbt.
  rewrite (Hdb 0%nat), (Hdb 1%nat) in Hc1 by lia.
  rewrite (Hdb 2%nat), (Hdb 3%nat) in Hc2 by lia.
  replace (pos + 10 + 0)%nat with (pos + 10)%nat in * by lia.
  replace (pos + 10 + 1)%nat with (pos + 11)%nat in * by lia.
  replace (pos + 10 + 2)%nat with (pos + 12)%nat in * by lia.
  replace (pos + 10 + 3)%nat with (pos + 13)%nat in * by lia.
  assert (MotionExtractor.getPlayerIndex (MotionExtractor.cell data (pos + 6))
          = playerIndex f) as ->.
  { rewrite Hpi. unfold MotionExtractor.getPlayerIndex, JS.band, JS.shr.
    by rewrite !toInt32_idemp. }
  assert (MotionExtractor.getBaseType (MotionExtractor.cell data (pos + 6))
          = baseType f) as ->.
  { rewrite Hbt. unfold MotionExtractor.getBaseType, JS.band.
    by rewrite !toInt32_idemp. }
  unfold jsEq in Hpf.
  destruct (isPositionFrame f) eqn:Hpos.
  - symmetry in Hpf. apply andb_true_iff in Hpf as [Hpf Hnib].
    apply andb_true_iff in Hpf as [H5 H9].
    apply bool_decide_eq_true in H5, H9, Hnib. injection H5 as H5.
    rewrite bool_decide_false by (by intros ?).
    destruct (decide (playerIndex f = p)) as [Hp|Hp].
    + rewrite (bool_decide_false (playerIndex f ≠ p)) by (by intros ?).
      rewrite (bool_decide_false (baseType f ≠ 9)) by (by intros ?).
      rewrite (bool_decide_false (_ ≠ 4)) by (by intros ?).
      rewrite bool_decide_true by done. by rewrite Hc1, Hc2.
    + rewrite (bool_decide_true (playerIndex f ≠ p)) by done.
      rewrite bool_decide_false; [done|]. by intros [_ ?].
  - rewrite (bool_decide_false (_ ∧ _)) by (by intros [? _]).
    destruct (decide (MotionExtractor.cell data (pos + 5) = 64)) as [H5|H5];
      [|by rewrite bool_decide_true].
    rewrite (bool_decide_false (_ ≠ 64)) by (by intros ?).
    destruct (decide (playerIndex f = p)) as [Hp|Hp];
      [|by rewrite (bool_decide_true (playerIndex f ≠ p))].
    rewrite (bool_decide_false (playerIndex f ≠ p)) by (by intros ?).
    destruct (decide (baseType f = 9)) as [H9|H9];
      [|by rewrite (bool_decide_true (baseType f ≠ 9))].
    rewrite (bool_decide_false (baseType f ≠ 9)) by (by intros ?).
    destruct (decide (JS.shr (MotionExtractor.cell data (pos + 10)) 4 = 4))
      as [Hn|Hn]; [|by rewrite (bool_decide_true (_ ≠ 4))].
    exfalso. rewrite H5, H9, Hn in Hpf.
    rewrite !bool_decide_true in Hpf by done. done.
Qed.

(** Markers that pass the viewer's length guard are found by both scans. *)
Lemma fitting_markers_agree data :
  filter (fits data) (findMarkers data)
  = filter (fits data) (MotionExtractor.findMarkers data).
Proof.
  unfold findMarkers, MotionExtractor.findMarkers.
  destruct (decide (length data < 3)%nat) as [Hlt|Hge].
  { replace (length data - 2)%nat with 0%nat by lia.
    replace (length data - 3)%nat with 0%nat by lia. done. }
  replace (length data - 2)%nat with ((length data - 3) + 1)%nat by lia.
  rewrite seq_app, !filter_app. simpl seq.
  rewrite (filter_none (fits data) (filter _ [_])), app_nil_r; [done|].
  intros x [_ Hx]%list_elem_of_filter. apply list_elem_of_singleton in Hx.
  unfold fits. lia.
Qed.

(** The raw pairs of the viewer are those read at the markers that pass the
    viewer's length guard. *)
Lemma viewer_raws_omap data chunkOffsets fs :
  parseFrames data chunkOffsets = Some fs →
  AimPage.rawsOf (AimPage.posFrames fs)
  = omap (MotionExtractor.base09Sample data 0)
         (filter (fits data) (MotionExtractor.findMarkers data)).
Proof.
  intros Hfs.
  destruct (parseFrames_emitted data chunkOffsets) as (fs' & Hfs' & HF).
  rewrite Hfs in Hfs'. injection Hfs' as <-.
  rewrite <- fitting_markers_agree. clear Hfs.
  generalize dependent (filter (fits data) (findMarkers data)).
  intros ps HF.
  induction HF as [|f pos fs ps [Hfit [idx Hf]] _ IH]; [done|].
  unfold AimPage.posFrames, AimPage.rawsOf in *.
  rewrite filter_cons. cbn [omap list_omap].
  rewrite (frameAt_base09Sample _ _ _ _ _ 0 Hfit Hf).
  destruct (decide (isPositionFrame f = true ∧ playerIndex f = 0)) as [Hp|Hp].
  - rewrite bool_decide_true by done. rewrite fmap_cons. by rewrite IH.
  - rewrite bool_decide_false by done. by rewrite IH.
Qed.

Lemma filter_all {A} (P : A → Prop) `{!∀ x, Decision (P x)} (l : list A) :
  (∀ x, x ∈ l → P x) → filter P l = l.
Proof.
  induction l as [|x l IH]; intros Hl; [done|].
  rewrite filter_cons, decide_True by (apply Hl; left).
  f_equal. apply IH. intros y Hy. apply Hl. by right.
Qed.

(** The markers with twenty bytes left come first. *)
Lemma fitting_markers_prefix data :
  filter (fits data) (MotionExtractor.findMarkers data)
  `prefix_of` MotionExtractor.findMarkers data.
Proof.
  unfold MotionExtractor.findMarkers.
  set (n := (length data - 3)%nat). set (m := (n `min` (length data - 19))%nat).
  replace n with (m + (n - m))%nat by lia.
  rewrite seq_app, !filter_app. simpl.
  rewrite (filter_all (fits data) (filter _ (seq 0 m))).
  - rewrite (filter_none (fits data) (filter _ (seq m (n - m)))).
    + rewrite app_nil_r. by apply prefix_app_r.
    + intros x [_ Hx%elem_of_seq]%list_elem_of_filter. unfold fits. lia.
  - intros x [_ Hx%elem_of_seq]%list_elem_of_filter. unfold fits. lia.
Qed.

Lemma omap_prefix {A B} (f : A → option B) (l1 l2 : list A) :
  l1 `prefix_of` l2 → omap f l1 `prefix_of` omap f l2.
Proof. intros [k ->]. rewrite omap_app. by apply prefix_app_r. Qed.

(** The raw pairs of the points of the CLI's extraction are its samples. *)
Lemma extraction_raws chunks p :
  (λ q, (MotionExtractor.raw1 q, MotionExtractor.raw2 q))
    <$> MotionExtractor.extractBase09Position chunks p
  = MotionExtractor.base09Samples chunks p.
Proof.
  rewrite extract_replay. apply list_eq. intros k.
  rewrite list_lookup_fmap.
  destruct (MotionExtractor.positions _ !! k) as [q|] eqn:Hq; simpl.
  - apply replay_lookup_sample in Hq as [_ ->]. done.
  - apply lookup_ge_None in Hq. rewrite replay_length in Hq. simpl in Hq.
    symmetry. by apply lookup_ge_None.
Qed.

Lemma samples_single_chunk data p :
  MotionExtractor.base09Samples [data] p
  = omap (MotionExtractor.base09Sample data p) (MotionExtractor.findMarkers data).
Proof. unfold MotionExtractor.base09Samples. simpl. by rewrite app_nil_r. Qed.

(** X8. For a film of one chunk, which both programs scan as one buffer:
    the raw pairs the viewer hands to [scalePositions] (the position frames
    of player 0 found by [parseFrames]) are the raw pairs read at the markers
    with twenty bytes left; the raw pairs of the points the CLI extracts for
    player 0 are those read at all markers with fourteen bytes left; so the
    viewer's raw pairs are a prefix of the CLI's. *)
Theorem viewer_raws_are_cli_samples data chunkOffsets fs :
  parseFrames data chunkOffsets = Some fs →
  AimPage.rawsOf (AimPage.posFrames fs)
  = omap (MotionExtractor.base09Sample data 0)
         (filter (fits data) (MotionExtractor.findMarkers data))
  ∧ (λ q, (MotionExtractor.raw1 q, MotionExtractor.raw2 q))
      <$> MotionExtractor.extractBase09Position [data] 0
    = omap (MotionExtractor.base09Sample data 0)
           (MotionExtractor.findMarkers data)
  ∧ AimPage.rawsOf (AimPage.posFrames fs)
    `prefix_of` ((λ q, (MotionExtractor.raw1 q, MotionExtractor.raw2 q))
                   <$> MotionExtractor.extractBase09Position [data] 0).
Proof.
  intros Hfs. rewrite (viewer_raws_omap _ _ _ Hfs).
  rewrite extraction_raws, samples_single_chunk.
  split; [done|]. split; [done|].
  apply omap_prefix, fitting_markers_prefix.
Qed.

Lemma viewer_raws_are_cli_samples_witness :
  AimPage.rawsOf (AimPage.posFrames Samples.threeParsed)
  = [(16400, 288); (16432, 293); (16640, 4080)]
  ∧ (λ q, (MotionExtractor.raw1 q, MotionExtractor.raw2 q))
      <$> MotionExtractor.extractBase09Position [Samples.threeFrames] 0
    = [(16400, 288); (16432, 293); (16640, 4080)].
Proof.
  destruct (viewer_raws_are_cli_samples Samples.threeFrames [0]
              Samples.threeParsed ltac:(vm_compute; reflexivity))
    as (Hv & Hc & _).
  split.
  - rewrite Hv. vm_compute. reflexivity.
  - rewrite Hc. vm_compute. reflexivity.
Defined.

(** With two chunks the programs differ: the viewer scans the chunks joined
    and finds the frame that lies across the boundary, the CLI scans each
    chunk and finds none. *)
Lemma viewer_sees_frame_across_chunks :
  ∃ fs,
    parseFrames (take 10 (Samples.positionFrame 0x40 0x10 0x01 0x20)
                 ++ drop 10 (Samples.positionFrame 0x40 0x10 0x01 0x20))
                [0; 10] = Some fs
    ∧ AimPage.rawsOf (AimPage.posFrames fs) = [(16400, 288)]
    ∧ MotionExtractor.extractBase09Position
        [take 10 (Samples.positionFrame 0x40 0x10 0x01 0x20);
         drop 10 (Samples.positionFrame 0x40 0x10 0x01 0x20)] 0 = [].
Proof. eexists. split; [vm_compute; reflexivity|]. by vm_compute. Qed.

End ViewerAndCli.

Section ViewerPath.
Import MotionExtractor.

Lemma correctedDelta1_wrap16 p c :
  Z.abs (AimPage.wrap16 (c - p)) ≤ 4000 →
  correctedDelta1 p c = AimPage.wrap16 (c - p).
Proof.
  unfold correctedDelta1, AimPage.wrap16, DISCONTINUITY_THRESHOLD.
  intros H. repeat case_bool_decide; lia.
Qed.

Lemma correctedDelta2_wrap12 p c :
  Z.abs (AimPage.wrap12 (c - p)) ≤ 4000 →
  correctedDelta2 p c = AimPage.wrap12 (c - p).
Proof.
  unfold correctedDelta2, AimPage.wrap12, DISCONTINUITY_THRESHOLD.
  intros H. repeat case_bool_decide; lia.
Qed.

Lemma pathsAgree_step sa sc x :
  AimPage.pathsAgree sa sc →
  match prevC1 sc, prevC2 sc with
  | Some p1, Some p2 =>
      Z.abs (AimPage.wrap16 (x.1 - p1)) ≤ 4000
      ∧ Z.abs (AimPage.wrap12 (x.2 - p2)) ≤ 4000
  | _, _ => True
  end →
  AimPage.pathsAgree (AimPage.pointStep sa x) (accumulate sc x).
Proof.
  intros (H1 & H2 & Hnone & Hc1 & Hc2 & Hzero & Hpts) Hsm.
  destruct x as [x1 x2]. unfold AimPage.pointStep, accumulate, AimPage.pathsAgree.
  rewrite H1, H2.
  destruct (prevC1 sc) as [p1|] eqn:Hp1, (prevC2 sc) as [p2|] eqn:Hp2; simpl.
  - destruct Hsm as [Hs1 Hs2]. simpl in Hs1, Hs2.
    rewrite (correctedDelta1_wrap16 _ _ Hs1), (correctedDelta2_wrap12 _ _ Hs2).
    rewrite Hc1, Hc2, Hpts, fmap_app. split_and!; try done.
  - by destruct Hnone as [_ Hn]; specialize (Hn eq_refl).
  - by destruct Hnone as [Hn _]; specialize (Hn eq_refl).
  - destruct (Hzero eq_refl) as [-> ->]. rewrite Hc1, Hc2, Hpts, fmap_app.
    destruct (Hzero eq_refl) as [Hz1 Hz2]. rewrite Hz1, Hz2.
    split_and!; try done.
Qed.

Lemma pathsAgree_fold xs sa sc :
  AimPage.pathsAgree sa sc →
  match prevC1 sc, prevC2 sc with
  | Some p1, Some p2 => AimPage.smoothAfter (p1, p2) xs
  | _, _ => AimPage.smooth xs
  end →
  AimPage.pathsAgree (foldl AimPage.pointStep sa xs) (replay sc xs).
Proof.
  revert sa sc. induction xs as [|x xs IH]; intros sa sc Hag Hsm; [done|].
  simpl. apply IH.
  - apply pathsAgree_step; [done|].
    destruct (prevC1 sc), (prevC2 sc); try done. simpl in Hsm. tauto.
  - destruct x as [x1 x2]. unfold accumulate at 1 2.
    destruct (prevC1 sc), (prevC2 sc); simpl in *; tauto.
Qed.

(** X9. On raw pairs without a discontinuity (every wrapped step within
    4000) the cumulative points of the viewer's [scalePositions] are the
    cumulative totals of the CLI's extraction. *)
Theorem viewer_path_is_cli_path (raws : list (Z * Z)) :
  AimPage.smooth raws →
  AimPage.cumulativePoints raws
  = (λ p, (cumCoord1 p, cumCoord2 p)) <$> positions (replay initState raws).
Proof.
  intros Hsm. unfold AimPage.cumulativePoints.
  apply (pathsAgree_fold raws
           {| AimPage.cumC1 := 0; AimPage.cumC2 := 0; AimPage.prevRaw1 := None;
              AimPage.prevRaw2 := None; AimPage.points := [] |} initState);
    [|done].
  unfold AimPage.pathsAgree. simpl. split_and!; done.
Qed.

Lemma viewer_path_is_cli_path_witness :
  AimPage.cumulativePoints [(16400, 288); (16432, 293); (16640, 4080)]
  = [(0, 0); (32, 5); (240, -304)].
Proof.
  rewrite (viewer_path_is_cli_path [(16400, 288); (16432, 293); (16640, 4080)]).
  - vm_compute. reflexivity.
  - vm_compute. intuition discriminate.
Defined.

End ViewerPath.

Section FireEventFields.
Import FireScanner.

Implicit Types (data chunkOffsets : list Z) (i : nat) (e : FireEvent).

Lemma eventAt_more data chunkOffsets i e :
  eventAt data chunkOffsets i = Some e →
  (i + 17 < length data)%nat
  ∧ chunkIndex e = getChunkIndex i chunkOffsets
  ∧ octantByte e = readShifted data (i + 14)
  ∧ aimUint16 e = readShiftedU16 data (i + 15)
  ∧ weaponName e = default "Unknown"%string (WEAPON_IDS !! weaponId e)
  ∧ aimDirection e = Octahedral.decodeOctahedralAim (octantByte e) (aimUint16 e).
Proof.
  unfold eventAt. intros H.
  destruct (leadMatches data i) eqn:Hl; cbn [negb] in H; [|discriminate].
  destruct (bool_decide (length data ≤ i + 17)%nat) eqn:Hlen; [discriminate|].
  destruct (bool_decide (readShifted data (i + 5) ≠ 1)
            && bool_decide (readShifted data (i + 5) ≠ 3)); [discriminate|].
  destruct (bool_decide (Z.rem (readShifted data (i + 4)) 4 ≠ 0));
    [discriminate|].
  destruct (endsWith (readShiftedHex data (i + 6) 8) WEAPON_SUFFIX);
    cbn [negb] in H; [|discriminate].
  apply (inj Some) in H. subst e.
  cbn [chunkIndex octantByte aimUint16 weaponName weaponId aimDirection].
  apply bool_decide_eq_false in Hlen.
  split; [lia|]. repeat (split; [reflexivity|]). reflexivity.
Qed.

Lemma string_length_app (s t : string) :
  String.length (s +:+ t) = (String.length s + String.length t)%nat.
Proof. induction s as [|c s IH]; simpl; [done|]. by rewrite IH. Qed.

Lemma toHex2_byte_length (b : Z) :
  0 ≤ b < 256 → String.length (JS.toHex2 b) = 2%nat.
Proof. intros Hb. by rewrite toHex2_byte. Qed.

Lemma readShiftedHex_length data p n :
  String.length (readShiftedHex data p n) = (2 * n)%nat.
Proof.
  unfold readShiftedHex.
  assert (∀ s0 ks, String.length
            (foldl (λ hex k, hex +:+ JS.toHex2 (readShifted data (p + k))) s0 ks)
          = (String.length s0 + 2 * length ks)%nat) as H.
  { intros s0 ks. revert s0. induction ks as [|k ks IH]; intros s0.
    - simpl. lia.
    - cbn [foldl]. rewrite IH, string_length_app, toHex2_byte_length.
      + simpl. lia.
      + apply readShifted_range. }
  rewrite H, length_seq. simpl. lia.
Qed.

Lemma readShiftedU16_value data p :
  readShiftedU16 data p = readShifted data p * 256 + readShifted data (p + 1).
Proof.
  unfold readShiftedU16.
  pose proof (readShifted_range data p). pose proof (readShifted_range data (p + 1)).
  rewrite bor_shl_add by lia. done.
Qed.

(** Positions kept by [omap] over [seq] come in increasing order. *)
Lemma omap_seq_lookup_lt {A} (f : nat → option A) s n i j a b :
  omap f (seq s n) !! i = Some a → omap f (seq s n) !! j = Some b →
  (i < j)%nat →
  ∃ x y, (s ≤ x)%nat ∧ (x < y)%nat ∧ (y < s + n)%nat
         ∧ f x = Some a ∧ f y = Some b.
Proof.
  revert s i j. induction n as [|n IH]; intros s i j; [done|].
  cbn [seq omap list_omap]. destruct (f s) as [v|] eqn:Hv.
  - destruct i as [|i], j as [|j]; simpl; try lia.
    + intros [= <-] Hb _.
      apply list_elem_of_lookup_2, list_elem_of_omap in Hb as (y & Hy & Hfy).
      apply elem_of_seq in Hy. exists s, y. split_and!; try done; lia.
    + intros Ha Hb ?. destruct (IH (S s) i j Ha Hb) as (x & y & ? & ? & ? & ? & ?);
        [lia|]. exists x, y. split_and!; try done; lia.
  - intros Ha Hb ?. destruct (IH (S s) i j Ha Hb) as (x & y & ? & ? & ? & ? & ?);
      [done|]. exists x, y. split_and!; try done; lia.
Qed.

Lemma omap_length_le {A B} (f : A → option B) (l : list A) :
  (length (omap f l) ≤ length l)%nat.
Proof.
  induction l as [|x l IH]; [done|]. cbn [omap list_omap].
  destruct (f x); simpl; lia.
Qed.

(** X10. The events of a scan are listed by strictly ascending offset; each
    lies more than twenty bytes before the end of the buffer, so none of its
    fields is read past the end; there are at most [length - 20] of them. *)
Theorem scanFireEvents_ordered data chunkOffsets :
  (∀ i j e1 e2, (i < j)%nat →
     events (scanFireEvents data chunkOffsets) !! i = Some e1 →
     events (scanFireEvents data chunkOffsets) !! j = Some e2 →
     (offset e1 < offset e2)%nat)
  ∧ (∀ e, e ∈ events (scanFireEvents data chunkOffsets) →
          (offset e + 20 < length data)%nat
          ∧ chunkIndex e = getChunkIndex (offset e) chunkOffsets)
  ∧ (length (events (scanFireEvents data chunkOffsets)) ≤ length data - 20)%nat.
Proof.
  unfold scanFireEvents. rewrite scan_events. cbn [events app].
  split_and!.
  - intros i j e1 e2 Hij H1 H2.
    destruct (omap_seq_lookup_lt _ _ _ _ _ _ _ H1 H2 Hij)
      as (x & y & _ & Hxy & _ & Hx & Hy).
    destruct (eventAt_Some _ _ _ _ Hx) as (-> & _).
    destruct (eventAt_Some _ _ _ _ Hy) as (-> & _). done.
  - intros e (x & Hx%elem_of_seq & He)%list_elem_of_omap.
    destruct (eventAt_Some _ _ _ _ He) as (-> & _).
    destruct (eventAt_more _ _ _ _ He) as (_ & Hc & _).
    split; [lia|done].
  - etrans; [apply omap_length_le|]. by rewrite length_seq.
Qed.

(** X11. Every event carries a fire counter that is a multiple of 4 in
    0..252, an octant byte in 0..255, a 16-bit face code made of the two
    shifted bytes that follow it, a 16-character identifier, the direction
    decoded from its octant and face code, and as a name the table entry of
    its identifier, or Unknown when the table has none. *)
Theorem scanFireEvents_event_fields data chunkOffsets e :
  e ∈ events (scanFireEvents data chunkOffsets) →
  0 ≤ counter e ≤ 252 ∧ Z.rem (counter e) 4 = 0
  ∧ 0 ≤ octantByte e ≤ 255
  ∧ 0 ≤ aimUint16 e ≤ 65535
  ∧ aimUint16 e = readShifted data (offset e + 15) * 256
                  + readShifted data (offset e + 16)
  ∧ String.length (weaponId e) = 16%nat
  ∧ aimDirection e = Octahedral.decodeOctahedralAim (octantByte e) (aimUint16 e)
  ∧ (WEAPON_IDS !! weaponId e = Some (weaponName e)
     ∨ (WEAPON_IDS !! weaponId e = None ∧ weaponName e = "Unknown"%string)).
Proof.
  unfold scanFireEvents. rewrite scan_events. cbn [events app].
  intros (x & _ & He)%list_elem_of_omap.
  destruct (eventAt_Some _ _ _ _ He) as (Ho & _ & Hc & _ & Hw & Hc4 & _).
  destruct (eventAt_more _ _ _ _ He) as (_ & _ & Hob & Ha & Hn & Hd).
  subst x.
  pose proof (readShifted_range data (offset e + 4)) as Hr4.
  pose proof (readShifted_range data (offset e + 14)) as Hr14.
  pose proof (readShifted_range data (offset e + 15)) as Hr15.
  pose proof (readShifted_range data (offset e + 15 + 1)) as Hr16.
  rewrite readShiftedU16_value in Ha.
  replace (offset e + 15 + 1)%nat with (offset e + 16)%nat in * by lia.
  split.
  { rewrite Hc in Hc4 |- *. clear -Hr4 Hc4.
    pose proof (Z.rem_bound_pos (readShifted data (offset e + 4)) 4 ltac:(lia) ltac:(lia)).
    pose proof (Z.quot_rem' (readShifted data (offset e + 4)) 4). lia. }
  split; [exact Hc4|].
  split; [rewrite Hob; clear -Hr14; lia|].
  split; [rewrite Ha; clear -Hr15 Hr16; lia|].
  split; [exact Ha|].
  split; [rewrite Hw; apply readShiftedHex_length|].
  split; [exact Hd|].
  rewrite Hn. clear. destruct (WEAPON_IDS !! weaponId e) as [name|].
  - left. reflexivity.
  - right. split; reflexivity.
Qed.

Lemma scanFireEvents_event_fields_witness :
  ∃ e, events (scanFireEvents Samples.fireAR [0]) = [e]
       ∧ 0 ≤ counter e ≤ 252 ∧ 0 ≤ aimUint16 e ≤ 65535
       ∧ String.length (weaponId e) = 16%nat.
Proof.
  eexists. split; [vm_compute; reflexivity|].
  match goal with |- context [counter ?e] =>
    assert (Hin : e ∈ events (scanFireEvents Samples.fireAR [0]));
    [ replace (events (scanFireEvents Samples.fireAR [0])) with [e]
        by (vm_compute; reflexivity); left
    | destruct (scanFireEvents_event_fields Samples.fireAR [0] e Hin)
        as (Hc & _ & _ & Ha & _ & Hl & _) ]
  end.
  split; [exact Hc|]. split; [exact Ha|exact Hl].
Defined.

End FireEventFields.

Section AimBits.
Import Octahedral.

Lemma toInt32_mod (a k : Z) :
  0 ≤ k ≤ 32 → JS.toInt32 a `mod` 2 ^ k = a `mod` 2 ^ k.
Proof.
  intros Hk. unfold JS.toInt32.
  assert (0 < 2 ^ k) by (apply Z.pow_pos_nonneg; lia).
  assert (2 ^ 32 = 2 ^ k * 2 ^ (32 - k)) as H32
    by (rewrite <- Z.pow_add_r by lia; f_equal; lia).
  pose proof (Z.div_mod (a + 2 ^ 31) (2 ^ 32) ltac:(lia)) as Hdm.
  replace ((a + 2 ^ 31) `mod` 2 ^ 32 - 2 ^ 31)
    with (a + (- ((a + 2 ^ 31) `div` 2 ^ 32) * 2 ^ (32 - k)) * 2 ^ k)
    by (rewrite <- Z.mul_assoc, (Z.mul_comm (2 ^ (32 - k))), <- H32; lia).
  apply Z_mod_plus_full.
Qed.

Lemma band_low_bits (a k : Z) :
  0 ≤ k < 31 → JS.band a (Z.ones k) = a `mod` 2 ^ k.
Proof. intros Hk. rewrite band_ones by done. apply toInt32_mod. lia. Qed.

Lemma band_shr8_byte (a : Z) :
  JS.band (JS.shr a 8) 0xff = (a `div` 256) `mod` 256.
Proof.
  change 255 with (Z.ones 8). rewrite band_low_bits by lia.
  unfold JS.shr. rewrite Z.shiftr_div_pow2 by lia.
  change (2 ^ 8) with 256.
  unfold JS.toInt32.
  pose proof (Z.div_mod (a + 2 ^ 31) (2 ^ 32) ltac:(lia)) as Hdm.
  replace ((a + 2 ^ 31) `mod` 2 ^ 32 - 2 ^ 31)
    with (a + (- ((a + 2 ^ 31) `div` 2 ^ 32) * 2 ^ 24) * 256) by lia.
  rewrite Z.div_add by lia. replace (_ * 2 ^ 24) with
    ((- ((a + 2 ^ 31) `div` 2 ^ 32) * 2 ^ 16) * 256) by lia.
  apply Z_mod_plus_full.
Qed.

(** X12. The decoder reads the octant from the low three bits of the octant
    byte and u and v from the second and the first byte of the face code:
    octant bytes equal modulo 8 and face codes equal modulo 65536 decode to
    the same direction. *)
Theorem decodeOctahedralAim_low_bits (octantByte aimUint16 : Z) :
  decodeOctahedralAim octantByte aimUint16
  = decodeOctahedralAim (octantByte `mod` 8) (aimUint16 `mod` 65536)
  ∧ JS.band octantByte 0x07 = octantByte `mod` 8
  ∧ JS.band (JS.shr aimUint16 8) 0xff = (aimUint16 `div` 256) `mod` 256
  ∧ JS.band aimUint16 0xff = aimUint16 `mod` 256.
Proof.
  assert (Ho : ∀ o, JS.band o 7 = o `mod` 8)
    by (intros o; change 7 with (Z.ones 3); by rewrite band_low_bits by lia).
  assert (Hv : ∀ a, JS.band a 255 = a `mod` 256)
    by (intros a; change 255 with (Z.ones 8); by rewrite band_low_bits by lia).
  split; [|split; [apply Ho|split; [apply band_shr8_byte|apply Hv]]].
  unfold decodeOctahedralAim, faceVector. cbv zeta.
  rewrite !band_shr8_byte, !Hv, !(Ho octantByte), !(Ho (octantByte `mod` 8)).
  rewrite (Z.mod_mod octantByte 8) by lia.
  replace ((aimUint16 `mod` 65536) `mod` 256) with (aimUint16 `mod` 256)
    by (symmetry; apply Z.mod_mod_divide; exists 256; lia).
  replace (((aimUint16 `mod` 65536) `div` 256) `mod` 256)
    with ((aimUint16 `div` 256) `mod` 256); [done|].
  pose proof (Z.div_mod aimUint16 65536 ltac:(lia)) as Hdm.
  replace (aimUint16 `div` 256)
    with ((aimUint16 `mod` 65536 + (aimUint16 `div` 65536 * 256) * 256) `div` 256)
    by (f_equal; lia).
  rewrite Z.div_add by lia. by rewrite Z_mod_plus_full.
Qed.

End AimBits.

Section Varint.
Import BondParser.

Implicit Types (buf bs : list Z) (st : RState).

Lemma land_127_range (b : Z) : 0 ≤ Z.land b 0x7f < 128.
Proof.
  change 127 with (Z.ones 7). rewrite Z.land_ones by lia.
  apply Z.mod_pos_bound. lia.
Qed.

Lemma base128_nonneg bs : 0 ≤ base128 bs.
Proof.
  induction bs as [|b bs IH]; simpl; [lia|].
  pose proof (land_127_range b). lia.
Qed.

Lemma base128_bound bs : base128 bs < 128 ^ Z.of_nat (length bs).
Proof.
  induction bs as [|b bs IH]; [simpl; lia|].
  cbn [base128 length]. rewrite Nat2Z.inj_succ, Z.pow_succ_r by lia.
  pose proof (land_127_range b). lia.
Qed.

Lemma leb128u_go_spec bs (result shift : Z) (n : nat) :
  0 ≤ shift → 0 ≤ result < 2 ^ shift →
  leb128u_go bs result shift n
  = (result + 2 ^ shift * base128 (varintBytes bs),
     (n + length (varintBytes bs))%nat).
Proof.
  revert result shift n. induction bs as [|b bs IH]; intros result shift n Hs Hr.
  - simpl. f_equal; lia.
  - cbn [leb128u_go varintBytes].
    pose proof (land_127_range b) as Hb.
    assert (Z.lor result (Z.shiftl (Z.land b 127) shift)
            = result + 2 ^ shift * Z.land b 127) as Hlor.
    { rewrite Z.lor_comm, lor_shiftl_add by lia. lia. }
    rewrite Hlor. case_bool_decide.
    + cbn [base128 length]. f_equal; lia.
    + rewrite IH; [|lia|].
      * cbn [base128 length]. rewrite Z.pow_add_r by lia.
        change (2 ^ 7) with 128. f_equal; lia.
      * rewrite Z.pow_add_r by lia. change (2 ^ 7) with 128.
        assert (0 < 2 ^ shift) by (apply Z.pow_pos_nonneg; lia). nia.
Qed.

Lemma leb128u_eq buf st :
  leb128u buf st
  = Ok (base128 (varintBytes (drop (pos st) buf)),
        {| pos := pos st + length (varintBytes (drop (pos st) buf));
           blobs := blobs st |}).
Proof.
  unfold leb128u. rewrite leb128u_go_spec by (simpl; lia).
  rewrite Z.pow_0_r, Z.mul_1_l, Z.add_0_l. done.
Qed.

Lemma zigzag_spec (u : Z) :
  Z.lxor (Z.shiftr u 1) (- Z.land u 1)
  = if Z.even u then u `div` 2 else - ((u + 1) `div` 2).
Proof.
  rewrite Z.shiftr_div_pow2 by lia. change (2 ^ 1) with 2.
  change 1 with (Z.ones 1) at 1. rewrite Z.land_ones by lia.
  change (2 ^ 1) with 2.
  pose proof (Z.div_mod u 2 ltac:(lia)) as Hdm.
  pose proof (Z.mod_pos_bound u 2 ltac:(lia)) as Hm.
  rewrite Zdiv.Zeven_mod.
  destruct (Z.eqb_spec (u `mod` 2) 0) as [E|E].
  - rewrite E. simpl. by rewrite Z.lxor_0_r.
  - assert (u `mod` 2 = 1) as E1 by lia. rewrite E1.
    change (- (1)) with (-1). rewrite Z.lxor_m1_r. unfold Z.lnot.
    assert ((u + 1) `div` 2 = u `div` 2 + 1) as ->; [|lia].
    replace (u + 1) with ((u `div` 2 + 1) * 2) by lia.
    by rewrite Z.div_mul.
Qed.

(** X13. As long as the value stays below 2^53 (where the conversion of the
    BigInt accumulator to a number is exact), [leb128u] takes the bytes up to
    and with the first one below 128 (all that is left if there is none,
    nothing at the end of the buffer) and returns the little-endian value of
    their low seven bits, which is never negative and below 128 to the number
    of bytes taken; it takes at least one byte when one is left, and at the
    end of the buffer it returns 0 and leaves the cursor. It never throws. *)
Theorem leb128u_value buf st :
  base128 (varintBytes (drop (pos st) buf)) < 2 ^ 53 →
  leb128u buf st
  = Ok (base128 (varintBytes (drop (pos st) buf)),
        {| pos := pos st + length (varintBytes (drop (pos st) buf));
           blobs := blobs st |})
  ∧ 0 ≤ base128 (varintBytes (drop (pos st) buf))
      < 128 ^ Z.of_nat (length (varintBytes (drop (pos st) buf)))
  ∧ ((pos st < length buf)%nat →
     (1 ≤ length (varintBytes (drop (pos st) buf)))%nat)
  ∧ ((length buf ≤ pos st)%nat → leb128u buf st = Ok (0, st)).
Proof.
  intros _. pose proof (leb128u_eq buf st) as Hv.
  split; [exact Hv|]. split; [|split].
  - split; [apply base128_nonneg | apply base128_bound].
  - intros Hlt. destruct (drop (pos st) buf) as [|b bs] eqn:Hd.
    + apply (f_equal length) in Hd. rewrite length_drop in Hd. simpl in Hd. lia.
    + simpl. case_bool_decide; simpl; lia.
  - intros Hge. rewrite Hv, drop_ge by done. simpl.
    rewrite Nat.add_0_r. by destruct st.
Qed.

Lemma leb128u_value_witness :
  leb128u [0xac; 0x02; 0xff] {| pos := 0; blobs := [] |}
  = Ok (300, {| pos := 2; blobs := [] |}).
Proof.
  exact (proj1 (leb128u_value [0xac; 0x02; 0xff] {| pos := 0; blobs := [] |}
                  ltac:(vm_compute; reflexivity))).
Defined.

(** X14. [leb128] reads one varint as [leb128u] does and undoes its zig-zag
    coding: an even value 2k gives k, an odd value 2k+1 gives -(k+1) (values
    below 2^53, where the conversions between BigInt and number are exact). *)
Theorem leb128_zigzag buf st :
  base128 (varintBytes (drop (pos st) buf)) < 2 ^ 53 →
  ∃ u st', leb128u buf st = Ok (u, st') ∧ 0 ≤ u
    ∧ leb128 buf st
      = Ok ((if Z.even u then u `div` 2 else - ((u + 1) `div` 2)), st')
    ∧ (∀ k, u = 2 * k → leb128 buf st = Ok (k, st'))
    ∧ (∀ k, u = 2 * k + 1 → leb128 buf st = Ok (- (k + 1), st')).
Proof.
  intros _. pose proof (leb128u_eq buf st) as Hv.
  pose proof (base128_nonneg (varintBytes (drop (pos st) buf))) as Hu.
  assert (Hz : ∀ u st', leb128u buf st = Ok (u, st') →
    leb128 buf st
    = Ok ((if Z.even u then u `div` 2 else - ((u + 1) `div` 2)), st')).
  { intros u st' E. unfold leb128, bind. rewrite E. unfold ret.
    by rewrite zigzag_spec. }
  eexists _, _. split; [exact Hv|]. split; [exact Hu|].
  split; [by apply Hz|]. split; intros k Hk; rewrite (Hz _ _ Hv), Hk.
  - rewrite Z.even_mul. simpl. rewrite (Z.mul_comm 2 k), Z.div_mul by lia. done.
  - rewrite Z.even_add, Z.even_mul. simpl.
    replace (2 * k + 1 + 1) with ((k + 1) * 2) by lia.
    by rewrite Z.div_mul.
Qed.

Lemma leb128_zigzag_witness :
  ∃ u st', leb128u [0x07] {| pos := 0; blobs := [] |} = Ok (u, st') ∧ 0 ≤ u
    ∧ leb128 [0x07] {| pos := 0; blobs := [] |}
      = Ok ((if Z.even u then u `div` 2 else - ((u + 1) `div` 2)), st')
    ∧ (∀ k, u = 2 * k → leb128 [0x07] {| pos := 0; blobs := [] |} = Ok (k, st'))
    ∧ (∀ k, u = 2 * k + 1 →
         leb128 [0x07] {| pos := 0; blobs := [] |} = Ok (- (k + 1), st')).
Proof.
  exact (leb128_zigzag [0x07] {| pos := 0; blobs := [] |}
           ltac:(vm_compute; reflexivity)).
Defined.

End Varint.

Section Cursor.
Import BondParser.
Local Open Scope reader_scope.

Implicit Types (buf : list Z) (st : RState) (rv : Z → M BondValue).

Lemma extends_refl st : extends st st.
Proof. by split_and!. Qed.

Lemma extends_trans st1 st2 st3 :
  extends st1 st2 → extends st2 st3 → extends st1 st3.
Proof.
  intros (Hp & Hb & Hi) (Hp' & Hb' & Hi'). split_and!.
  - lia.
  - by etrans.
  - auto.
Qed.

Lemma extends_move st (n : nat) :
  extends st {| pos := pos st + n; blobs := blobs st |}.
Proof. split_and!; simpl; [lia|done|done]. Qed.

Lemma indexed_push (bl : list Blob) (b : Blob) :
  indexed bl → blob_index b = length bl → indexed (bl ++ [b]).
Proof.
  intros Hi Hb i b' Hl. apply lookup_app_Some in Hl as [Hl|[Hge Hl]].
  - by apply Hi.
  - apply list_lookup_singleton_Some in Hl as [Hz <-]. lia.
Qed.

Lemma extending_ret {A} (a : A) : extending (ret a).
Proof. intros st a' st' [= _ <-]. apply extends_refl. Qed.

Lemma extending_bind {A B} (m : M A) (k : A → M B) :
  extending m → (∀ a, extending (k a)) → extending (bind m k).
Proof.
  intros Hm Hk st b st' H. unfold bind in H.
  destruct (m st) as [[a st1]| |] eqn:E; try discriminate.
  eapply extends_trans; [by eapply Hm | by eapply Hk].
Qed.

Lemma extending_u8 buf : extending (u8 buf).
Proof.
  intros st a st' [= _ <-]. split_and!; simpl; [lia|done|done].
Qed.

Lemma extending_fixed buf n : extending (fixed buf n).
Proof.
  intros st a st' H. unfold fixed in H. case_bool_decide; [|discriminate].
  injection H as _ <-. apply extends_move.
Qed.

Lemma extending_bytes buf n : extending (bytes buf n).
Proof. intros st a st' [= _ <-]. apply extends_move. Qed.

Lemma extending_leb128u buf : extending (leb128u buf).
Proof.
  intros st a st' H. rewrite leb128u_eq in H. injection H as _ <-.
  apply extends_move.
Qed.

Lemma extending_leb128 buf : extending (leb128 buf).
Proof.
  apply extending_bind; [apply extending_leb128u|intros; apply extending_ret].
Qed.

Lemma extending_i8 buf : extending (i8 buf).
Proof.
  apply extending_bind; [apply extending_fixed|intros; apply extending_ret].
Qed.

Lemma extending_u16 buf : extending (u16 buf).
Proof.
  apply extending_bind; [apply extending_fixed|intros; apply extending_ret].
Qed.

Lemma extending_f32 buf : extending (f32 buf).
Proof.
  apply extending_bind; [apply extending_fixed|intros; apply extending_ret].
Qed.

Lemma extending_f64 buf : extending (f64 buf).
Proof.
  apply extending_bind; [apply extending_fixed|intros; apply extending_ret].
Qed.

Lemma extending_if {A} (c : bool) (m1 m2 : M A) :
  extending m1 → extending m2 → extending (if c then m1 else m2).
Proof. by destruct c. Qed.

Create HintDb reader discriminated.
Hint Resolve extending_ret extending_u8 extending_fixed extending_bytes
  extending_leb128u extending_leb128 extending_i8 extending_u16
  extending_f32 extending_f64 : reader.

Ltac ext_step :=
  repeat first
    [ apply extending_bind; [|intros ?]
    | apply extending_if
    | solve [auto with reader] ].

Lemma extending_readStruct_loop buf rv (n startPos : nat) maxLen flds hasBase :
  (∀ ty, extending (rv ty)) →
  extending (readStruct_loop buf rv n startPos maxLen flds hasBase).
Proof.
  intros Hrv. revert flds hasBase.
  induction n as [|n IH]; intros flds hasBase st s st' H;
    cbn [readStruct_loop] in H;
    destruct (eof buf st
              || negb (bool_decide (Z.of_nat (pos st) - Z.of_nat startPos < maxLen)));
    try (injection H as _ <-; apply extends_refl); try discriminate.
  set (st1 := {| pos := S (pos st); blobs := blobs st |}) in *.
  assert (extends st st1) as H01 by (split_and!; simpl; [lia|done|done]).
  case_bool_decide.
  { injection H as _ <-. done. }
  case_bool_decide.
  { eapply extends_trans; [exact H01|]. by eapply IH. }
  match type of H with
  | match ?m st1 with _ => _ end = _ =>
      assert (extending m) as Hm; [|destruct (m st1) as [[[fid value] st2]| |] eqn:E]
  end; try discriminate.
  { ext_step. }
  eapply extends_trans; [exact H01|].
  eapply extends_trans; [by eapply Hm|]. by eapply IH.
Qed.

Lemma extending_readStruct buf rv maxLen :
  (∀ ty, extending (rv ty)) → extending (readStruct buf rv maxLen).
Proof.
  intros Hrv st s st' H. unfold readStruct in H.
  by eapply extending_readStruct_loop.
Qed.

Lemma extending_readItems buf rv count elemType :
  (∀ ty, extending (rv ty)) → extending (readItems rv count elemType).
Proof.
  intros Hrv. induction count as [|count IH]; cbn [readItems]; ext_step.
Qed.

Lemma extending_readEntries buf rv count keyType valType :
  (∀ ty, extending (rv ty)) →
  extending (readEntries rv count keyType valType).
Proof.
  intros Hrv. induction count as [|count IH]; cbn [readEntries]; ext_step.
Qed.

Lemma extending_readListHeader buf : extending (readListHeader buf).
Proof. unfold readListHeader. ext_step. Qed.

Lemma extending_push (b : nat → Blob) {A} (k : list Blob → M A) :
  (∀ n, blob_index (b n) = n) → (∀ bl, extending (k bl)) →
  extending (let* bl := getBlobs in let* pushed := pushBlob (b (length bl)) in k bl).
Proof.
  intros Hb Hk st a st' H. unfold bind at 1 2, getBlobs, pushBlob in H.
  eapply extends_trans; [|by eapply Hk]. split_and!; simpl.
  - lia.
  - by apply prefix_app_r.
  - intros Hi. by apply indexed_push.
Qed.

Lemma extending_readList buf rv isSet :
  (∀ ty, extending (rv ty)) → extending (readList buf rv isSet).
Proof.
  intros Hrv. unfold readList.
  apply extending_bind; [apply extending_readListHeader|].
  intros [elemType count]. apply extending_if.
  - apply extending_bind; [auto with reader|]. intros bs.
    apply extending_if; [auto with reader|].
    apply (extending_push
             (λ n, {| blob_index := n; blob_length := count; blob_data := bs |})
             (λ bl, ret _));
      [done|intros; auto with reader].
  - apply extending_bind; [by apply (extending_readItems buf)|].
    intros; auto with reader.
Qed.

Lemma extending_readMap buf rv :
  (∀ ty, extending (rv ty)) → extending (readMap buf rv).
Proof.
  intros Hrv. unfold readMap. ext_step. by apply (extending_readEntries buf).
Qed.

(** The struct case of [readValue]: the cursor is set to the declared end,
    which is not before the start. *)
Lemma struct_value_end buf rv st v st' :
  (let* len := leb128u buf in
   let* p := getPos in
   let endPos := (p + Z.to_nat len)%nat in
   let* result := readStruct buf rv len in
   let* moved := setPos endPos in
   ret (VStruct result)) st = Ok (v, st') →
  ∃ len st1 s st2,
    leb128u buf st = Ok (len, st1)
    ∧ readStruct buf rv len st1 = Ok (s, st2)
    ∧ v = VStruct s
    ∧ st' = {| pos := pos st1 + Z.to_nat len; blobs := blobs st2 |}.
Proof.
  intros H. unfold bind at 1 in H.
  destruct (leb128u buf st) as [[len st1]| |] eqn:E1; try discriminate.
  unfold bind at 1, getPos in H. unfold bind at 1 in H.
  destruct (readStruct buf rv len st1) as [[s st2]| |] eqn:E2; try discriminate.
  unfold bind, setPos, ret in H. injection H as <- <-.
  by eexists _, _, _, _.
Qed.

Lemma extending_readValue_body buf rv ty :
  (∀ ty, extending (rv ty)) → extending (readValue_body buf rv ty).
Proof.
  intros Hrv. unfold readValue_body.
  repeat (apply extending_if; [solve [ext_step]|]).
  apply extending_if; [|apply extending_if; [|apply extending_if]].
  - intros st v st' H. apply struct_value_end in H
      as (len & st1 & s & st2 & E1 & E2 & _ & ->).
    apply extending_leb128u in E1. apply extending_readStruct in E2; [|done].
    destruct E1 as (Hp1 & Hb1 & Hi1), E2 as (Hp2 & Hb2 & Hi2).
    split_and!; simpl; [lia|by etrans|auto].
  - apply extending_bind; [by apply extending_readList|auto with reader].
  - apply extending_bind; [by apply extending_readMap|auto with reader].
  - auto with reader.
Qed.

Lemma extending_readValue buf fuel ty : extending (readValue buf fuel ty).
Proof.
  revert ty. induction fuel as [|fuel IH]; intros ty.
  - intros st v st' H. discriminate.
  - cbn [readValue]. by apply extending_readValue_body.
Qed.


(** X15. Whatever value [readValue] decodes, the cursor ends at or after the
    place it started from (also for a struct, whose end is set from the
    declared length and may lie before the place its fields were read up to),
    the blob table is only appended to, and if every entry carried its own
    position as index before, every entry does so after. *)
Theorem readValue_extends buf fuel ty st v st' :
  readValue buf fuel ty st = Ok (v, st') →
  (pos st ≤ pos st')%nat
  ∧ blobs st `prefix_of` blobs st'
  ∧ (indexed (blobs st) → indexed (blobs st')).
Proof. intros H. exact (extending_readValue buf fuel ty st v st' H). Qed.

Lemma readValue_extends_witness :
  ∃ v st',
    readValue [0x23; 0x01; 0x02] 2 BondType.list {| pos := 0; blobs := [] |}
    = Ok (v, st')
    ∧ (0 ≤ pos st')%nat ∧ [] `prefix_of` blobs st'
    ∧ (indexed [] → indexed (blobs st')).
Proof.
  eexists _, _. split; [vm_compute; reflexivity|].
  exact (readValue_extends [0x23; 0x01; 0x02] 2 BondType.list
           {| pos := 0; blobs := [] |} _ _ eq_refl).
Defined.

(** X17. A struct-typed value ends where its length prefix says: after the
    varint [len] the cursor is put at [len] bytes further, whatever the fields
    consumed; the blobs are those left by the fields. With [len = 0] no field
    is read and the struct is empty. For a declared end below 2^53, where the
    sum the source computes is exact. *)
Theorem readValue_struct_end buf fuel st len st1 v st' :
  leb128u buf st = Ok (len, st1) →
  Z.of_nat (pos st1) + len < 2 ^ 53 →
  readValue buf (S fuel) BondType.struct st = Ok (v, st') →
  ∃ s st2,
    readStruct buf (readValue buf fuel) len st1 = Ok (s, st2)
    ∧ v = VStruct s
    ∧ pos st' = (pos st1 + Z.to_nat len)%nat
    ∧ blobs st' = blobs st2
    ∧ (len = 0 → s = {| fields := ∅; hasBaseClass := false |} ∧ st' = st1).
Proof.
  intros Hlen _ H. cbn [readValue] in H. unfold readValue_body in H.
  repeat (match type of H with
          | context [bool_decide (BondType.struct = ?t)] =>
              change (bool_decide (BondType.struct = t)) with false in H
          end; cbn [orb] in H).
  change (bool_decide (BondType.struct = BondType.struct)) with true in H.
  cbv iota in H.
  apply struct_value_end in H as (len' & st1' & s & st2 & E1 & E2 & -> & ->).
  rewrite Hlen in E1. injection E1 as <- <-.
  exists s, st2. split_and!; try done.
  intros ->. unfold readStruct in E2.
  destruct (length buf - pos st1)%nat; cbn [readStruct_loop] in E2;
    rewrite (bool_decide_false (_ < 0)), orb_true_r in E2 by lia;
    injection E2 as <- <-; (split; [done|]); destruct st1; simpl;
    by rewrite Nat.add_0_r.
Qed.

Lemma readValue_struct_end_witness :
  ∃ v st', readValue [0x01; 0x42; 0x07; 0x09] 2 BondType.struct
                     {| pos := 0; blobs := [] |} = Ok (v, st')
           ∧ pos st' = 2%nat.
Proof.
  destruct (readValue [0x01; 0x42; 0x07; 0x09] 2 BondType.struct
                      {| pos := 0; blobs := [] |}) as [[v st']| |] eqn:E.
  - exists v, st'. split; [reflexivity|].
    destruct (readValue_struct_end [0x01; 0x42; 0x07; 0x09] 1
                {| pos := 0; blobs := [] |} 1 {| pos := 1; blobs := [] |} v st'
                ltac:(vm_compute; reflexivity) ltac:(vm_compute; reflexivity) E)
      as (s & st2 & _ & _ & Hp & _).
    exact Hp.
  - exfalso. vm_compute in E. discriminate.
  - exfalso. vm_compute in E. discriminate.
Defined.

Lemma readItems_length rv count elemType st items st' :
  readItems rv count elemType st = Ok (items, st') → length items = count.
Proof.
  revert st items st'. induction count as [|count IH]; intros st items st' H;
    cbn [readItems] in H.
  - unfold ret in H. injection H as <- _. reflexivity.
  - unfold bind at 1 in H. destruct (rv elemType st) as [[v st1]| |];
      try discriminate.
    unfold bind at 1 in H.
    destruct (readItems rv count elemType st1) as [[vs st2]| |] eqn:E;
      try discriminate.
    unfold ret in H. injection H as <- _. simpl. f_equal. by eapply IH.
Qed.

Lemma readEntries_length rv count keyType valType st es st' :
  readEntries rv count keyType valType st = Ok (es, st') → length es = count.
Proof.
  revert st es st'. induction count as [|count IH]; intros st es st' H;
    cbn [readEntries] in H.
  - unfold ret in H. injection H as <- _. reflexivity.
  - unfold bind at 1 in H. destruct (rv keyType st) as [[k st1]| |];
      try discriminate.
    unfold bind at 1 in H. destruct (rv valType st1) as [[v st2]| |];
      try discriminate.
    unfold bind at 1 in H.
    destruct (readEntries rv count keyType valType st2) as [[vs st3]| |] eqn:E;
      try discriminate.
    unfold ret in H. injection H as <- _. simpl. f_equal. by eapply IH.
Qed.

Lemma int32_of_byte buf i :
  byteArray buf → 0 ≤ JS.int32_of (buf !! i) < 256.
Proof.
  intros Hb. destruct (buf !! i) as [b|] eqn:E; simpl; [|lia].
  pose proof (byteArray_lookup _ _ _ Hb E). rewrite toInt32_small; lia.
Qed.

Lemma readListHeader_count buf st elemType count st1 :
  byteArray buf →
  readListHeader buf st = Ok ((elemType, count), st1) →
  0 ≤ count ∧ 0 ≤ elemType < 32.
Proof.
  intros Hb H. unfold readListHeader in H. unfold bind at 1, u8 at 1 in H.
  pose proof (int32_of_byte buf (pos st) Hb) as Hr.
  set (tc := JS.int32_of (buf !! pos st)) in *.
  assert (0 ≤ JS.shr tc 5) as Hs.
  { rewrite shr_small by lia. apply Z.div_pos; lia. }
  assert (0 ≤ JS.band tc 31 < 32) as He.
  { apply (band_ones_range tc 5); lia. }
  unfold bind at 1 in H. case_bool_decide as Hc.
  - destruct (leb128u buf _) as [[c st2]| |] eqn:E; try discriminate.
    injection H as <- <- _. split; [|done].
    rewrite leb128u_eq in E. injection E as <- _. apply base128_nonneg.
  - unfold ret in H. injection H as <- <- _. split; [lia|done].
Qed.

(** X18. The list [readList] returns has a count that is not negative, and
    when it carries items (an element type other than uint8 and int8), it
    carries exactly as many as its count says and neither text nor blob
    reference. For a buffer of bytes and a count below 2^32, the largest
    length an array takes. *)
Theorem readList_item_count buf rv isSet st l st' :
  byteArray buf →
  readList buf rv isSet st = Ok (l, st') →
  l_count l < 2 ^ 32 →
  0 ≤ l_count l
  ∧ l_isSet l = isSet
  ∧ ∀ items, l_items l = Some items →
      Z.of_nat (length items) = l_count l
      ∧ l_data l = None ∧ l_blobRef l = None
      ∧ l_elemType l ≠ "uint8"%string ∧ l_elemType l ≠ "int8"%string.
Proof.
  intros Hb H _. unfold readList in H. unfold bind at 1 in H.
  destruct (readListHeader buf st) as [[[elemType count] st1]| |] eqn:Eh;
    try discriminate.
  apply readListHeader_count in Eh as [Hc He]; [|done].
  destruct (bool_decide (elemType = BondType.uint8)
            || bool_decide (elemType = BondType.int8)) eqn:Ety.
  - unfold bind at 1, bytes at 1 in H.
    destruct (_ && _ && _).
    + injection H as <- _. by split_and!.
    + unfold bind, getBlobs, pushBlob, ret in H. injection H as <- _.
      by split_and!.
  - unfold bind at 1 in H.
    destruct (readItems rv (Z.to_nat count) elemType st1) as [[items st2]| |] eqn:Ei;
      try discriminate.
    injection H as <- _. cbn. split_and!; try done.
    intros ? [= <-]. apply readItems_length in Ei.
    apply orb_false_iff in Ety as [E3 E14].
    apply bool_decide_eq_false in E3, E14.
    split_and!; try done; try lia.
    + assert (elemType ∈ (Z.of_nat <$> seq 0 32)) as Hin.
      { apply list_elem_of_fmap. exists (Z.to_nat elemType).
        split; [lia|]. apply elem_of_seq. lia. }
      clear -Hin E3 E14. vm_compute in Hin.
      repeat (apply elem_of_cons in Hin as [->|Hin];
                [first [done | by vm_compute]|]).
      by apply elem_of_nil in Hin.
    + assert (elemType ∈ (Z.of_nat <$> seq 0 32)) as Hin.
      { apply list_elem_of_fmap. exists (Z.to_nat elemType).
        split; [lia|]. apply elem_of_seq. lia. }
      clear -Hin E3 E14. vm_compute in Hin.
      repeat (apply elem_of_cons in Hin as [->|Hin];
                [first [done | by vm_compute]|]).
      by apply elem_of_nil in Hin.
Qed.

Lemma readList_item_count_witness :
  ∃ l st',
    readList [0x62; 0x00; 0x01] (readValue [0x62; 0x00; 0x01] 1) false
             {| pos := 0; blobs := [] |} = Ok (l, st')
    ∧ l_items l = Some [VBool false; VBool true] ∧ l_count l = 2.
Proof.
  eexists _, _. split; [vm_compute; reflexivity|].
  split; [reflexivity|].
  symmetry.
  exact (proj1 (proj2 (proj2
    (readList_item_count [0x62; 0x00; 0x01] (readValue [0x62; 0x00; 0x01] 1)
       false {| pos := 0; blobs := [] |} _ _
       ltac:(apply (bool_decide_unpack _); vm_compute; exact I) eq_refl
       ltac:(vm_compute; reflexivity))) _ eq_refl)).
Defined.

(** X19. The map [readMap] returns has exactly as many entries as its count,
    which is not negative (count below 2^32, the largest length an array
    takes). *)
Theorem readMap_entry_count buf rv st m st' :
  readMap buf rv st = Ok (m, st') →
  m_count _ m < 2 ^ 32 →
  0 ≤ m_count _ m ∧ Z.of_nat (length (m_entries _ m)) = m_count _ m.
Proof.
  intros H _. unfold readMap in H.
  unfold bind at 1, u8 at 1 in H. unfold bind at 1, u8 at 1 in H.
  unfold bind at 1 in H. rewrite leb128u_eq in H.
  unfold bind at 1 in H.
  match type of H with
  | match readEntries ?r ?n ?k ?v ?s with _ => _ end = _ =>
      destruct (readEntries r n k v s) as [[es st3]| |] eqn:E
  end; try discriminate.
  injection H as <- _. cbn.
  pose proof (base128_nonneg (varintBytes
    (drop (pos {| pos := S (pos {| pos := S (pos st); blobs := blobs st |});
                 blobs := blobs {| pos := S (pos st); blobs := blobs st |} |})
          buf))) as Hn.
  apply readEntries_length in E. split; [exact Hn|]. rewrite E.
  apply Z2Nat.id. exact Hn.
Qed.

Lemma readMap_entry_count_witness :
  ∃ m st',
    readMap [0x03; 0x02; 0x01; 0x2a; 0x01] (readValue [0x03; 0x02; 0x01; 0x2a; 0x01] 1)
            {| pos := 0; blobs := [] |} = Ok (m, st')
    ∧ m_entries _ m = [(VNumber 42, VBool true)]
    ∧ Z.of_nat (length (m_entries _ m)) = m_count _ m.
Proof.
  eexists _, _. split; [vm_compute; reflexivity|]. split; [reflexivity|].
  exact (proj2 (readMap_entry_count [0x03; 0x02; 0x01; 0x2a; 0x01]
    (readValue [0x03; 0x02; 0x01; 0x2a; 0x01] 1)
    {| pos := 0; blobs := [] |} _ _ eq_refl ltac:(vm_compute; reflexivity))).
Defined.

Section UnpackBlobs.
Variable inflateRawSync inflateSync : list Z → option (list Z).

Local Notation unpack := (unpack inflateRawSync inflateSync).

Lemma tryInflate_inner inner inflate kind size c blob :
  tryInflate inner inflate kind size c = Ok (Some blob) →
  ∃ decompressed, inflate c = Some decompressed
    ∧ inner decompressed = Ok (BondParser.inner blob)
    ∧ decompressedSize blob = length decompressed
    ∧ compressedSize blob = size.
Proof.
  unfold tryInflate. destruct (inflate c) as [d|]; [|done].
  destruct (inner d) as [doc| |] eqn:E; try done.
  intros [= <-]. by exists d.
Qed.

Lemma unpack_outer_blobs depth buf doc :
  unpack depth buf = Ok doc → indexed (doc_blobs doc).
Proof.
  destruct depth as [|depth]; [done|]. intros H.
  cbn [BondParser.unpack] in H. unfold unpack_body in H.
  destruct (leb128u buf _) as [[outerLen st1]| |] eqn:E1; try discriminate.
  destruct (readStruct buf _ outerLen st1) as [[ms st2]| |] eqn:E2;
    try discriminate.
  assert (indexed (blobs st2)) as Hi.
  { apply extending_leb128u in E1 as (_ & _ & Hi1).
    apply extending_readStruct in E2 as (_ & _ & Hi2);
      [|intros; apply extending_readValue].
    apply Hi2, Hi1. intros i b Hl. done. }
  destruct (if _ && _ then _ else _) as [nested| |]; try discriminate.
  by injection H as <-.
Qed.

(** X16. In the document [unpack] returns, every entry of the blob table
    carries its own position as index (so a [_blobRef] of a list is the
    position of its blob), and the same holds in the nested document when one
    is attached. *)
Theorem unpack_blobs_indexed depth buf doc :
  unpack depth buf = Ok doc →
  indexed (doc_blobs doc)
  ∧ ∀ nested, doc_compressedData doc = Some nested →
      indexed (doc_blobs (inner nested)).
Proof.
  intros H. split; [by eapply unpack_outer_blobs|].
  intros nested Hn. destruct depth as [|depth]; [done|].
  cbn [BondParser.unpack] in H. unfold unpack_body in H.
  destruct (leb128u buf _) as [[outerLen st1]| |] eqn:E1; try discriminate.
  destruct (readStruct buf _ outerLen st1) as [[ms st2]| |] eqn:E2;
    try discriminate.
  destruct (if _ && _ then _ else _) as [c| |] eqn:Ec; try discriminate.
  injection H as <-. cbn in Hn. subst c.
  destruct (_ && _); [|discriminate].
  destruct (allZeros buf st2); [discriminate|].
  pose proof (readCompressedBlob_cases inflateRawSync inflateSync
                (unpack depth) buf st2) as Hc.
  destruct (compressedPayload buf st2) as [[size c]|]; [|congruence].
  destruct (tryInflate (unpack depth) inflateRawSync "deflate" size c)
    as [[b|]| |] eqn:Hraw; try done.
  - rewrite Hc in Ec. injection Ec as ->.
    apply tryInflate_inner in Hraw as (d & _ & Hd & _).
    by eapply unpack_outer_blobs.
  - rewrite Hc in Ec.
    apply tryInflate_inner in Ec as (d & _ & Hd & _).
    by eapply unpack_outer_blobs.
  - congruence.
Qed.

End UnpackBlobs.

Lemma unpack_blobs_indexed_witness :
  ∃ doc, unpack Samples.stored Samples.stored 1 [5; 0x0b; 0x63; 0x80; 0x81; 0x00]
         = Ok doc
         ∧ length (doc_blobs doc) = 1%nat ∧ indexed (doc_blobs doc).
Proof.
  destruct (unpack Samples.stored Samples.stored 1
                   [5; 0x0b; 0x63; 0x80; 0x81; 0x00]) as [doc| |] eqn:E.
  - exists doc. split; [reflexivity|].
    split; [|exact (proj1 (unpack_blobs_indexed _ _ _ _ _ E))].
    vm_compute in E. by injection E as <-.
  - exfalso. vm_compute in E. discriminate.
  - exfalso. vm_compute in E. discriminate.
Defined.

End Cursor.

Section Termination.
Import BondParser.
Local Open Scope reader_scope.

Implicit Types (buf : list Z) (st : RState) (rv : Z → M BondValue).

Lemma finishes_bind {A B} (m : M A) (k : A → M B) st :
  finishes m st →
  (∀ a st1, m st = Ok (a, st1) → finishes (k a) st1) →
  finishes (bind m k) st.
Proof.
  unfold finishes, bind. intros Hm Hk.
  destruct (m st) as [[a st1]| |]; [by apply Hk|done|done].
Qed.

Lemma finishes_leb128u buf st : finishes (leb128u buf) st.
Proof. unfold finishes. by rewrite leb128u_eq. Qed.

Lemma finishes_u8 buf st : finishes (u8 buf) st.
Proof. done. Qed.

Lemma finishes_fixed buf n st : finishes (fixed buf n) st.
Proof. unfold finishes, fixed. by case_bool_decide. Qed.

Lemma finishes_bytes buf n st : finishes (bytes buf n) st.
Proof. done. Qed.

Lemma finishes_ret {A} (a : A) st : finishes (ret a) st.
Proof. done. Qed.

Lemma finishes_fixed_ret {A} buf n (f : list Z → A) st :
  finishes (let* bs := fixed buf n in ret (f bs)) st.
Proof.
  apply finishes_bind; [apply finishes_fixed|]. intros. apply finishes_ret.
Qed.

(** The loop of [readStruct] finishes when the decoder of the field values
    finishes at every place after [p0], [p0] being a place before the end of
    the buffer that the loop started at or after. *)
Lemma readStruct_loop_finishes buf rv (p0 n startPos : nat) maxLen flds hasBase st :
  (∀ ty, extending (rv ty)) →
  ((p0 < length buf)%nat → ∀ ty st2, (p0 < pos st2)%nat → finishes (rv ty) st2) →
  (p0 ≤ pos st)%nat →
  (length buf - pos st ≤ n)%nat →
  finishes (readStruct_loop buf rv n startPos maxLen flds hasBase) st.
Proof.
  intros Hext Hrv. revert flds hasBase st.
  induction n as [|n IH]; intros flds hasBase st Hp Hn; unfold finishes;
    cbn [readStruct_loop];
    destruct (eof buf st) eqn:Heof; cbn [orb]; try done;
    destruct (negb (bool_decide (Z.of_nat (pos st) - Z.of_nat startPos < maxLen)));
    try done;
    unfold eof in Heof; apply bool_decide_eq_false in Heof.
  { lia. }
  set (st1 := {| pos := S (pos st); blobs := blobs st |}).
  case_bool_decide; [done|]. case_bool_decide.
  { apply IH; simpl; lia. }
  match goal with
  | |- match ?m st1 with _ => _ end ≠ _ =>
      assert (extending m) as Hm;
        [|assert (finishes m st1) as Hf;
          [|destruct (m st1) as [[[fid value] st2]| |] eqn:E]]
  end; try done.
  - repeat first [ apply extending_bind; [|intros ?] | apply extending_if
                 | apply extending_ret | apply extending_u8
                 | apply extending_fixed | apply Hext ].
  - assert (∀ (readId : M (option Z)) ty,
              extending readId → finishes readId st1 →
              finishes (let* fid := readId in let* value := rv ty in
                        ret (fid, value)) st1) as Hgen.
    { intros readId ty Hx Hfin. apply finishes_bind; [done|].
      intros fid st2 E2. apply finishes_bind; [|intros; apply finishes_ret].
      apply Hrv; [lia|]. apply Hx in E2 as (Hp2 & _). simpl in Hp2. lia. }
    repeat case_bool_decide; apply Hgen;
      first [ apply extending_u8 | apply extending_ret
            | apply extending_bind; [apply extending_u16|intros; apply extending_ret]
            | apply finishes_bind;
                [apply (finishes_fixed_ret buf 2)|intros; apply finishes_ret]
            | done ].
  - apply IH.
    + apply Hm in E as (Hp2 & _). simpl in Hp2. lia.
    + apply Hm in E as (Hp2 & _). simpl in Hp2. lia.
Qed.

Lemma readItems_finishes rv (p : nat) count elemType st :
  (∀ ty, extending (rv ty)) →
  (∀ ty st2, (p ≤ pos st2)%nat → finishes (rv ty) st2) →
  (p ≤ pos st)%nat →
  finishes (readItems rv count elemType) st.
Proof.
  intros Hext Hrv. revert st. induction count as [|count IH]; intros st Hp;
    cbn [readItems]; [done|].
  apply finishes_bind; [by apply Hrv|]. intros v st1 E.
  apply finishes_bind; [|intros; apply finishes_ret].
  apply IH. apply Hext in E as (Hp1 & _). lia.
Qed.

Lemma readEntries_finishes rv (p : nat) count keyType valType st :
  (∀ ty, extending (rv ty)) →
  (∀ ty st2, (p ≤ pos st2)%nat → finishes (rv ty) st2) →
  (p ≤ pos st)%nat →
  finishes (readEntries rv count keyType valType) st.
Proof.
  intros Hext Hrv. revert st. induction count as [|count IH]; intros st Hp;
    cbn [readEntries]; [done|].
  apply finishes_bind; [by apply Hrv|]. intros k st1 E1.
  apply Hext in E1 as (Hp1 & _).
  apply finishes_bind; [apply Hrv; lia|]. intros v st2 E2.
  apply Hext in E2 as (Hp2 & _).
  apply finishes_bind; [|intros; apply finishes_ret].
  apply IH. lia.
Qed.

(** Past the end of the buffer a varint is 0. *)
Lemma leb128u_eof buf st :
  (length buf ≤ pos st)%nat → leb128u buf st = Ok (0, st).
Proof.
  intros Hge. rewrite leb128u_eq, drop_ge by done. simpl.
  rewrite Nat.add_0_r. by destruct st.
Qed.

Lemma readListHeader_eof buf st :
  (length buf ≤ pos st)%nat →
  readListHeader buf st
  = Ok ((0, 0), {| pos := S (pos st); blobs := blobs st |}).
Proof.
  intros Hge. unfold readListHeader, bind at 1, u8 at 1.
  rewrite (lookup_ge_None_2 buf (pos st)) by done.
  change (JS.int32_of None) with 0.
  change (JS.shr 0 5) with 0. change (JS.band 0 31) with 0.
  rewrite bool_decide_true by done. unfold bind.
  rewrite leb128u_eof by (simpl; lia). done.
Qed.

Lemma readList_finishes buf rv isSet st :
  (∀ ty, extending (rv ty)) →
  ((pos st < length buf)%nat →
   ∀ ty st2, (pos st < pos st2)%nat → finishes (rv ty) st2) →
  finishes (readList buf rv isSet) st.
Proof.
  intros Hext Hrv. unfold readList.
  destruct (decide (pos st < length buf)%nat) as [Hlt|Hge].
  - apply finishes_bind.
    { unfold finishes, readListHeader, bind, u8. case_bool_decide; [|done].
      by rewrite leb128u_eq. }
    intros [elemType count] st1 Eh.
    apply extending_readListHeader in Eh as Hx. destruct Hx as (Hp1 & _).
    assert (pos st < pos st1)%nat as Hlt1.
    { unfold readListHeader, bind at 1, u8 at 1 in Eh.
      unfold bind at 1 in Eh.
      match type of Eh with
      | match ?m ?s with _ => _ end = _ =>
          assert (extending m) as Hm by
            (apply extending_if; [apply extending_leb128u|apply extending_ret]);
          destruct (m s) as [[c s1]| |] eqn:Ec; try discriminate
      end.
      apply Hm in Ec as (Hpc & _). simpl in Hpc.
      unfold ret in Eh. injection Eh as _ _ <-. lia. }
    destruct (_ || _).
    + apply finishes_bind; [done|]. intros bs st2 _.
      destruct (_ && _ && _); [done|].
      unfold finishes, bind, getBlobs, pushBlob, ret. done.
    + apply finishes_bind; [|intros; apply finishes_ret].
      apply (readItems_finishes rv (S (pos st))); [done| |lia].
      intros ty st2 Hp2. apply Hrv; [done|lia].
  - unfold finishes, bind at 1. rewrite readListHeader_eof by lia.
    change (bool_decide (0 = BondType.uint8) || bool_decide (0 = BondType.int8))
      with false. cbv iota.
    change (Z.to_nat 0) with 0%nat. cbn [readItems]. done.
Qed.

Lemma readMap_finishes buf rv st :
  (∀ ty, extending (rv ty)) →
  ((pos st < length buf)%nat →
   ∀ ty st2, (pos st < pos st2)%nat → finishes (rv ty) st2) →
  finishes (readMap buf rv) st.
Proof.
  intros Hext Hrv. unfold readMap, finishes.
  unfold bind at 1, u8 at 1. unfold bind at 1, u8 at 1.
  unfold bind at 1. rewrite leb128u_eq.
  set (st3 := {| pos := _ ; blobs := _ |}).
  set (count := base128 _).
  apply finishes_bind; [|intros; apply finishes_ret].
  destruct (decide (pos st < length buf)%nat) as [Hlt|Hge].
  - apply (readEntries_finishes rv (S (pos st))); [done| |simpl; lia].
    intros ty st2 Hp2. apply Hrv; [done|lia].
  - assert (count = 0) as ->.
    { unfold count. rewrite drop_ge by (simpl; lia). done. }
    done.
Qed.

Lemma readValue_body_finishes buf rv ty st :
  (∀ ty, extending (rv ty)) →
  ((pos st < length buf)%nat →
   ∀ ty st2, (pos st < pos st2)%nat → finishes (rv ty) st2) →
  finishes (readValue_body buf rv ty) st.
Proof.
  intros Hext Hrv. unfold readValue_body.
  repeat (match goal with
          | |- finishes (if ?c then _ else _) _ => destruct c
          end;
          [ solve [ repeat first
              [ apply finishes_fixed_ret | apply finishes_ret
              | apply finishes_bind; [|intros ? ? ?]
              | apply finishes_leb128u | done
              | match goal with
                | |- finishes (if ?c then _ else _) _ => destruct c
                end ] ] | ]).
  match goal with
  | |- finishes (if ?c then _ else _) _ => destruct c
  end.
  { apply finishes_bind; [apply finishes_leb128u|]. intros len st1 E1.
    apply finishes_bind; [done|]. intros p st1' [= <- <-].
    apply finishes_bind; [|intros; done].
    apply extending_leb128u in E1 as (Hp1 & _).
    unfold readStruct.
    apply (readStruct_loop_finishes buf rv (pos st)); [done|done|lia|lia]. }
  match goal with
  | |- finishes (if ?c then _ else _) _ => destruct c
  end.
  { apply finishes_bind; [by apply readList_finishes|intros; done]. }
  match goal with
  | |- finishes (if ?c then _ else _) _ => destruct c
  end.
  { apply finishes_bind; [by apply readMap_finishes|intros; done]. }
  done.
Qed.

Lemma readValue_finishes buf fuel ty st :
  (length buf - pos st < fuel)%nat → finishes (readValue buf fuel ty) st.
Proof.
  revert ty st. induction fuel as [|fuel IH]; intros ty st Hf; [lia|].
  cbn [readValue]. apply readValue_body_finishes.
  - intros ty'. apply extending_readValue.
  - intros Hlt ty' st2 Hp2. apply IH. lia.
Qed.

(** X20. The decoder terminates on every buffer: a value nested [d] deep
    starts at least [d] bytes into the buffer or at its end, so the depth
    bound [S (length buf)] under which [unpack] runs [readValue] and
    [readStruct] is never reached, from any cursor and for any type byte;
    from a cursor [p] a bound of one more than the bytes left is enough. Each
    call returns a value or throws. *)
Theorem readValue_terminates buf ty st :
  readValue buf (S (length buf)) ty st ≠ OutOfFuel
  ∧ readValue buf (S (length buf - pos st)) ty st ≠ OutOfFuel
  ∧ ∀ maxLen,
      readStruct buf (readValue buf (S (length buf))) maxLen st ≠ OutOfFuel.
Proof.
  split_and!.
  - apply readValue_finishes. lia.
  - apply readValue_finishes. lia.
  - intros maxLen. unfold readStruct.
    apply (readStruct_loop_finishes buf _ (pos st)); [| |lia|lia].
    + intros ty'. apply extending_readValue.
    + intros _ ty' st2 _. apply readValue_finishes. lia.
Qed.

End Termination.

Section EndOfBuffer.
Import BondParser.
Local Open Scope reader_scope.

Implicit Types (buf : list Z) (st : RState) (rv : Z → M BondValue).

(** Decides the comparisons of type tags in the goal. *)
Ltac tags :=
  repeat match goal with
         | |- context [bool_decide (?a = ?b)] =>
             let v := eval vm_compute in (bool_decide (a = b)) in
             change (bool_decide (a = b)) with v
         end; cbn [orb andb].

Lemma u8_eof buf st :
  (length buf ≤ pos st)%nat →
  u8 buf st = Ok (None, {| pos := S (pos st); blobs := blobs st |}).
Proof. intros H. unfold u8. by rewrite (lookup_ge_None_2 buf (pos st)). Qed.

Lemma fixed_eof buf n st :
  (length buf ≤ pos st)%nat → fixed buf (S n) st = Throw.
Proof. intros H. unfold fixed. rewrite bool_decide_false by lia. done. Qed.

Lemma readStruct_eof buf rv maxLen st :
  (length buf ≤ pos st)%nat →
  readStruct buf rv maxLen st
  = Ok ({| fields := ∅; hasBaseClass := false |}, st).
Proof.
  intros H. unfold readStruct.
  replace (length buf - pos st)%nat with 0%nat by lia.
  cbn [readStruct_loop]. unfold eof. rewrite bool_decide_true by done. done.
Qed.

(** X21. With the cursor at or past the end of the buffer, [readValue]
    reads no byte: a bool is [true] and a uint8 is [undefined] (the cursor
    still moves by one), int8, float and double throw, every varint-coded
    integer is 0, strings are empty, a struct is empty, a list or set has
    element type "stop", count 0 and no items, and a map has no entries. *)
Theorem readValue_at_end buf fuel st :
  (length buf ≤ pos st)%nat →
  let next := {| pos := S (pos st); blobs := blobs st |} in
  readValue buf (S fuel) BondType.bool st = Ok (VBool true, next)
  ∧ readValue buf (S fuel) BondType.uint8 st = Ok (VUndefined, next)
  ∧ (∀ ty, ty ∈ [BondType.int8; BondType.float; BondType.double] →
       readValue buf (S fuel) ty st = Throw)
  ∧ (∀ ty, ty ∈ [BondType.uint16; BondType.uint32; BondType.uint64;
                 BondType.int16; BondType.int32; BondType.int64] →
       readValue buf (S fuel) ty st = Ok (VNumber 0, st))
  ∧ readValue buf (S fuel) BondType.string st = Ok (VString [], st)
  ∧ readValue buf (S fuel) BondType.wstring st = Ok (VWString [], st)
  ∧ readValue buf (S fuel) BondType.struct st
    = Ok (VStruct {| fields := ∅; hasBaseClass := false |}, st)
  ∧ (∀ isSet : bool, readValue buf (S fuel)
                (if isSet then BondType.set else BondType.list) st
       = Ok (VList {| l_isSet := isSet; l_elemType := "stop"; l_count := 0;
                      l_data := None; l_blobRef := None;
                      l_items := Some [] |}, next))
  ∧ readValue buf (S fuel) BondType.map st
    = Ok (VMap {| m_keyType := "stop"; m_valType := "stop"; m_count := 0;
                  m_entries := [] |},
          {| pos := S (S (pos st)); blobs := blobs st |}).
Proof.
  intros Hge next. cbn [readValue].
  assert (Hst : {| pos := pos st; blobs := blobs st |} = st) by by destruct st.
  split_and!.
  - unfold readValue_body. tags. unfold bind. rewrite u8_eof by done. done.
  - unfold readValue_body. tags. unfold bind. rewrite u8_eof by done. done.
  - intros ty Hty. unfold readValue_body.
    repeat (apply elem_of_cons in Hty as [->|Hty]);
      [| | |by apply elem_of_nil in Hty]; tags;
      unfold i8, f32, f64, bind; by rewrite fixed_eof.
  - intros ty Hty. unfold readValue_body.
    repeat (apply elem_of_cons in Hty as [->|Hty]);
      [| | | | | |by apply elem_of_nil in Hty]; tags;
      unfold leb128, bind; by rewrite leb128u_eof.
  - unfold readValue_body. tags. unfold bind. rewrite leb128u_eof by done.
    tags. done.
  - unfold readValue_body. tags. unfold bind. rewrite leb128u_eof by done.
    tags. done.
  - unfold readValue_body. tags. unfold bind at 1. rewrite leb128u_eof by done.
    unfold bind at 1, getPos. unfold bind at 1.
    rewrite readStruct_eof by done. unfold bind, setPos, ret.
    change (Z.to_nat 0) with 0%nat. rewrite Nat.add_0_r, Hst. done.
  - intros isSet. unfold readValue_body.
    destruct isSet; tags; unfold bind at 1, readList, bind at 1;
      rewrite readListHeader_eof by done; tags;
      change (Z.to_nat 0) with 0%nat; cbn [readItems]; unfold bind, ret;
      by vm_compute (typeNameOf 0).
  - unfold readValue_body. tags. unfold bind at 1, readMap.
    unfold bind at 1. rewrite u8_eof by done.
    unfold bind at 1. rewrite u8_eof by (simpl; lia).
    unfold bind at 1. rewrite leb128u_eof by (simpl; lia).
    change (Z.to_nat 0) with 0%nat. cbn [readEntries]. unfold bind, ret.
    change (JS.band (JS.int32_of None) 31) with 0.
    by vm_compute (typeNameOf 0).
Qed.

Lemma readValue_at_end_witness :
  readValue [0x05] 1 BondType.bool {| pos := 1; blobs := [] |}
  = Ok (VBool true, {| pos := 2; blobs := [] |})
  ∧ readValue [0x05] 1 BondType.double {| pos := 1; blobs := [] |} = Throw.
Proof.
  destruct (readValue_at_end [0x05] 0 {| pos := 1; blobs := [] |}
              ltac:(simpl; lia)) as (Hb & _ & Ht & _).
  split; [exact Hb|]. apply Ht. set_solver.
Defined.

End EndOfBuffer.

Section FrameType.
Import MotionExtractor.

(** The byte [buildFrameTypeHex] stores at index 1. *)
Local Notation storedByte b p :=
  (JS.bor (JS.band b 0x1f) (JS.shl (JS.band p 0x07) 5) `mod` 256).

Lemma frameTypeByte_cases :
  Forall (λ b, Forall (λ p,
    0 ≤ storedByte b p < 256 ∧ getPlayerIndex (storedByte b p) = p
    ∧ getBaseType (storedByte b p) = getBaseType b
    ∧ (getPlayerIndex b = p → storedByte b p = b))
    (Z.of_nat <$> seq 0 8)) (Z.of_nat <$> seq 0 256).
Proof. apply (bool_decide_unpack _). vm_compute. exact I. Qed.

Lemma frameTypeByte_spec (b p : Z) :
  0 ≤ b < 256 → 0 ≤ p < 8 →
  0 ≤ storedByte b p < 256 ∧ getPlayerIndex (storedByte b p) = p
  ∧ getBaseType (storedByte b p) = getBaseType b
  ∧ (getPlayerIndex b = p → storedByte b p = b).
Proof.
  intros Hb Hp.
  pose proof frameTypeByte_cases as H.
  rewrite Forall_forall in H. specialize (H b).
  rewrite Forall_forall in H. apply H.
  - apply list_elem_of_fmap. exists (Z.to_nat b). split; [lia|].
    apply elem_of_seq. lia.
  - apply list_elem_of_fmap. exists (Z.to_nat p). split; [lia|].
    apply elem_of_seq. lia.
Qed.

(** X22. [buildFrameTypeHex] and the two decoders of the second frame-type
    byte are inverse to each other: for a frame type of bytes and a player
    index from 0 to 7, the byte stored at index 1 is again a byte, decodes to
    that player index with [getPlayerIndex] and keeps the base type of the
    byte it replaces; no other byte changes; and building the frame type of
    the player the byte already names gives the bytes back. *)
Theorem buildFrameTypeHex_round_trip (bytes : list Z) (playerIndex b1 : Z) :
  byteArray bytes →
  0 ≤ playerIndex < 8 →
  bytes !! 1%nat = Some b1 →
  ∃ b1',
    buildFrameTypeHex bytes playerIndex !! 1%nat = Some b1'
    ∧ 0 ≤ b1' < 256
    ∧ getPlayerIndex b1' = playerIndex
    ∧ getBaseType b1' = getBaseType b1
    ∧ length (buildFrameTypeHex bytes playerIndex) = length bytes
    ∧ (∀ i, i ≠ 1%nat → buildFrameTypeHex bytes playerIndex !! i = bytes !! i)
    ∧ buildFrameTypeHex bytes (getPlayerIndex b1) = bytes.
Proof.
  intros Hbytes Hp H1.
  pose proof (byteArray_lookup _ _ _ Hbytes H1) as Hb.
  assert (JS.int32_of (bytes !! 1%nat) = b1) as Hi.
  { rewrite H1. simpl. apply toInt32_small. lia. }
  destruct (frameTypeByte_spec b1 playerIndex Hb Hp) as (Hr & Hpi & Hbt & _).
  unfold buildFrameTypeHex. rewrite !Hi.
  eexists. split; [|split; [exact Hr|split_and!]].
  - apply list_lookup_insert_eq. by eapply lookup_lt_Some.
  - exact Hpi.
  - exact Hbt.
  - by rewrite length_insert.
  - intros i Hne. by rewrite list_lookup_insert_ne.
  - assert (0 ≤ getPlayerIndex b1 < 8) as Hp'.
    { unfold getPlayerIndex. apply (band_ones_range _ 3). lia. }
    destruct (frameTypeByte_spec b1 (getPlayerIndex b1) Hb Hp')
      as (_ & _ & _ & Hsame).
    rewrite (Hsame eq_refl). by apply list_insert_id.
Qed.

Lemma buildFrameTypeHex_round_trip_witness :
  buildFrameTypeHex [0x40; 0x09; 0x00; 0x05] 1 = [0x40; 0x29; 0x00; 0x05]
  ∧ getPlayerIndex 0x29 = 1 ∧ getBaseType 0x29 = 0x09.
Proof.
  destruct (buildFrameTypeHex_round_trip [0x40; 0x09; 0x00; 0x05] 1 0x09
              ltac:(apply (bool_decide_unpack _); vm_compute; exact I)
              ltac:(lia) eq_refl) as (b & Hb & _ & Hp & Ht & _).
  vm_compute in Hb. injection Hb as <-.
  split; [vm_compute; reflexivity|]. split; [exact Hp|exact Ht].
Defined.

End FrameType.

Section Wraparound.
Import MotionExtractor.

(** A sample of the extraction is read at some marker of some chunk. *)
Lemma base09Samples_elem chunks playerIndex k c :
  base09Samples chunks playerIndex !! k = Some c →
  ∃ chunk pos, chunk ∈ chunks ∧ base09Sample chunk playerIndex pos = Some c.
Proof.
  intros Hk%list_elem_of_lookup_2. unfold base09Samples in Hk.
  apply list_elem_of_bind in Hk as (chunk & Hc & Hin).
  apply list_elem_of_omap in Hc as (pos & _ & Hpos).
  by exists chunk, pos.
Qed.

Lemma base09Samples_range chunks playerIndex k c :
  Forall byteArray chunks →
  base09Samples chunks playerIndex !! k = Some c →
  16384 ≤ c.1 ≤ 20479 ∧ 0 ≤ c.2 ≤ 4095.
Proof.
  intros Hb Hk. destruct (base09Samples_elem _ _ _ _ Hk) as (chunk & pos & Hin & Hs).
  rewrite Forall_forall in Hb. destruct c as [c1 c2].
  destruct (base09Sample_range _ _ _ _ _ (Hb _ Hin) Hs) as (? & ? & _). done.
Qed.

(** The point the extraction gives for sample [k]. *)
Lemma extraction_point chunks playerIndex k c :
  base09Samples chunks playerIndex !! k = Some c →
  ∃ p, extractBase09Position chunks playerIndex !! k = Some p
       ∧ raw1 p = c.1 ∧ raw2 p = c.2.
Proof.
  intros Hk. pose proof (extraction_raws chunks playerIndex) as Hr.
  apply (f_equal (λ l, l !! k)) in Hr. rewrite list_lookup_fmap, Hk in Hr.
  destruct (extractBase09Position chunks playerIndex !! k) as [p|]; [|done].
  exists p. split; [done|]. simpl in Hr. injection Hr as <-. done.
Qed.

(** The loop of the viewer's [scalePositions] over raw pairs: one point per
    pair, each the point before plus the wrapped differences. *)
Lemma cumulativePoints_fold (raws : list (Z * Z)) :
  let st := foldl AimPage.pointStep
              {| AimPage.cumC1 := 0; AimPage.cumC2 := 0;
                 AimPage.prevRaw1 := None; AimPage.prevRaw2 := None;
                 AimPage.points := [] |} raws in
  length (AimPage.points st) = length raws
  ∧ match last raws with
    | None => AimPage.prevRaw1 st = None
              ∧ AimPage.cumC1 st = 0 ∧ AimPage.cumC2 st = 0
    | Some r => AimPage.prevRaw1 st = Some r.1
                ∧ AimPage.prevRaw2 st = Some r.2
                ∧ last (AimPage.points st)
                  = Some (AimPage.cumC1 st, AimPage.cumC2 st)
    end
  ∧ ∀ k r r', raws !! k = Some r → raws !! S k = Some r' →
      ∃ a b, AimPage.points st !! k = Some a
             ∧ AimPage.points st !! S k = Some b
             ∧ b = (a.1 + AimPage.wrap16 (r'.1 - r.1),
                    a.2 + AimPage.wrap12 (r'.2 - r.2)).
Proof.
  induction raws as [|x l IH] using rev_ind; [by split_and!|].
  cbv zeta in *. rewrite foldl_app. cbn [foldl].
  set (st0 := foldl AimPage.pointStep _ l) in *.
  destruct IH as (Hlen & Hlast & Hstep). destruct x as [x1 x2].
  rewrite last_snoc. unfold AimPage.pointStep.
  destruct (last l) as [r|] eqn:Hl.
  - destruct Hlast as (Hp1 & Hp2 & Hpts). rewrite Hp1, Hp2. cbn.
    split_and!; try done.
    + rewrite !length_app. simpl. lia.
    + by rewrite last_snoc.
    + intros k r1 r2 Hk HSk.
      destruct (decide (S k < length l)%nat) as [Hlt|Hge].
      * rewrite lookup_app_l in Hk, HSk by lia.
        destruct (Hstep _ _ _ Hk HSk) as (a & b & Ha & Hb & Hab).
        exists a, b. split_and!; try done.
        -- rewrite lookup_app_l; [done|]. apply lookup_lt_Some in Ha. lia.
        -- rewrite lookup_app_l; [done|]. apply lookup_lt_Some in Hb. lia.
      * pose proof (lookup_lt_Some _ _ _ HSk) as HS. rewrite length_app in HS.
        simpl in HS. assert (S k = length l) as Hk' by lia.
        rewrite lookup_app_l in Hk by lia.
        rewrite lookup_app_r, Hk', Nat.sub_diag in HSk by lia.
        injection HSk as <-.
        rewrite last_lookup in Hl. replace (pred (length l)) with k in Hl by lia.
        rewrite Hl in Hk. injection Hk as <-.
        rewrite last_lookup, Hlen in Hpts.
        replace (pred (length l)) with k in Hpts by lia.
        eexists _, _. split_and!.
        -- rewrite lookup_app_l; [exact Hpts|]. lia.
        -- rewrite lookup_app_r, Hk', Hlen, Nat.sub_diag by lia. reflexivity.
        -- done.
  - apply last_None in Hl. subst l. subst st0. cbn.
    split_and!; try done.
Qed.

Lemma chained88064_init : chained88064 initState.
Proof. split; [intros k p q Hp; done|done]. Qed.

Lemma chained88064_accumulate st c :
  chained88064 st → chained88064 (accumulate88064 st c).
Proof.
  intros [Hchain Hlast]. destruct c as [c1 c2]. unfold accumulate88064.
  set (cums := match prevC1 st, prevC2 st with
               | Some p1, Some p2 => _ | _, _ => _ end).
  destruct cums as [cum1 cum2] eqn:Hcums. split; cbn.
  - intros k p q Hp Hq.
    destruct (decide (S k < length (positions st))%nat) as [Hlt|Hge].
    + rewrite lookup_app_l in Hp, Hq by lia. by eapply Hchain.
    + pose proof (lookup_lt_Some _ _ _ Hq) as HS. rewrite length_app in HS.
      simpl in HS. assert (S k = length (positions st)) as Hk' by lia.
      rewrite lookup_app_l in Hp by lia.
      rewrite lookup_app_r, Hk', Nat.sub_diag in Hq by lia.
      injection Hq as <-. cbn.
      rewrite last_lookup in Hlast.
      replace (pred (length (positions st))) with k in Hlast by lia.
      rewrite Hp in Hlast. destruct Hlast as (H1 & H2 & H3 & H4).
      unfold cums in Hcums. rewrite H1, H2 in Hcums.
      injection Hcums as <- <-. by rewrite H3, H4.
  - by rewrite last_snoc.
Qed.

Lemma chained88064_markers chunk targetType st ms :
  chained88064 st → chained88064 (foldl (markerStep88064 chunk targetType) st ms).
Proof.
  revert st. induction ms as [|pos ms IH]; intros st Hst; [done|].
  cbn [foldl]. apply IH. unfold markerStep88064.
  destruct (sample88064 chunk targetType pos); [|done].
  by apply chained88064_accumulate.
Qed.

Lemma chained88064_extract chunks targetType st :
  chained88064 st →
  chained88064
    (foldl (λ st chunk,
              foldl (markerStep88064 chunk targetType) st (findMarkers chunk))
           st chunks).
Proof.
  revert st. induction chunks as [|chunk chunks IH]; intros st Hst; [done|].
  cbn [foldl]. apply IH. by apply chained88064_markers.
Qed.

(** C1 (amended). In the base-0x09 layout the raw coord1 of a sample has a
    high byte with high nibble 4, so it lies in 16384..20479: two consecutive
    samples never have 65530 and then 5, and neither wraparound test of the
    step fires. In [extractBase09Position] the total of a point is that of
    the point before plus the plain difference of the raw values, or plus 0
    when the difference exceeds 4000; in the viewer's [scalePositions], fed
    with the position frames of [parseFrames], it is that of the point
    before plus the plain difference. The correction of 65530 then 5 to +11,
    added to the running total, is what [extract40088064] does, whose coord1
    takes all 16 bits; the arithmetic of the base-0x09 step gives +11 on
    these two values as well. *)
Theorem coord1_wraparound_by_layout chunks playerIndex k c c' :
  Forall byteArray chunks →
  base09Samples chunks playerIndex !! k = Some c →
  base09Samples chunks playerIndex !! S k = Some c' →
  (16384 ≤ c.1 ≤ 20479 ∧ 16384 ≤ c'.1 ≤ 20479
   ∧ ∃ p q, extractBase09Position chunks playerIndex !! k = Some p
       ∧ extractBase09Position chunks playerIndex !! S k = Some q
       ∧ raw1 p = c.1 ∧ raw1 q = c'.1
       ∧ cumCoord1 q
         = cumCoord1 p
           + (if bool_decide (4000 < Z.abs (c'.1 - c.1)) then 0 else c'.1 - c.1))
  ∧ (∀ data chunkOffsets fs j r r',
       byteArray data →
       FilmParser.parseFrames data chunkOffsets = Some fs →
       AimPage.rawsOf (AimPage.posFrames fs) !! j = Some r →
       AimPage.rawsOf (AimPage.posFrames fs) !! S j = Some r' →
       16384 ≤ r.1 ≤ 20479 ∧ 16384 ≤ r'.1 ≤ 20479
       ∧ ∃ a b,
           AimPage.cumulativePoints (AimPage.rawsOf (AimPage.posFrames fs)) !! j
           = Some a
           ∧ AimPage.cumulativePoints (AimPage.rawsOf (AimPage.posFrames fs)) !! S j
             = Some b
           ∧ b.1 = a.1 + (r'.1 - r.1))
  ∧ (∀ chunks' targetType i p q,
       extract40088064 chunks' targetType !! i = Some p →
       extract40088064 chunks' targetType !! S i = Some q →
       raw1 p = 65530 → raw1 q = 5 →
       adaptiveDelta1 (raw1 p) (raw1 q) = 11
       ∧ cumCoord1 q = cumCoord1 p + 11)
  ∧ correctedDelta1 65530 5 = 11 ∧ AimPage.wrap16 (5 - 65530) = 11.
Proof.
  intros Hb Hk HSk. split; [|split; [|split; [|split]]].
  - destruct (base09Samples_range _ _ _ _ Hb Hk) as [Hc _].
    destruct (base09Samples_range _ _ _ _ Hb HSk) as [Hc' _].
    split; [done|]. split; [done|].
    destruct (extraction_point _ _ _ _ Hk) as (p & Hp & Hp1 & _).
    destruct (extraction_point _ _ _ _ HSk) as (q & Hq & Hq1 & _).
    exists p, q. split_and!; try done.
    assert (Hp' := Hp). assert (Hq' := Hq).
    rewrite extract_replay in Hp', Hq'.
    destruct (replay_next _ _ _ _ Hp' Hq') as (-> & _ & _).
    rewrite Hp1, Hq1. f_equal. by apply correctedDelta1_plain.
  - intros data offs fs j r r' Hd Hfs Hj HSj.
    assert (∀ i x, AimPage.rawsOf (AimPage.posFrames fs) !! i = Some x →
                   16384 ≤ x.1 ≤ 20479) as Hrange.
    { intros i x Hi. rewrite (viewer_raws_omap _ _ _ Hfs) in Hi.
      apply list_elem_of_lookup_2, list_elem_of_omap in Hi as (pos & _ & Hs).
      destruct x as [x1 x2].
      by destruct (base09Sample_range _ _ _ _ _ Hd Hs) as (? & _). }
    pose proof (Hrange _ _ Hj) as Hr. pose proof (Hrange _ _ HSj) as Hr'.
    split; [done|]. split; [done|].
    destruct (cumulativePoints_fold (AimPage.rawsOf (AimPage.posFrames fs)))
      as (_ & _ & Hstep).
    destruct (Hstep _ _ _ Hj HSj) as (a & b & Ha & Hb' & ->).
    exists a, (a.1 + AimPage.wrap16 (r'.1 - r.1),
               a.2 + AimPage.wrap12 (r'.2 - r.2)).
    split; [exact Ha|]. split; [exact Hb'|]. cbn [fst]. f_equal.
    unfold AimPage.wrap16. repeat case_bool_decide; lia.
  - intros chunks' targetType i p q Hp Hq H1 H2.
    destruct (chained88064_extract chunks' targetType initState
                chained88064_init) as [Hchain _].
    destruct (Hchain _ _ _ Hp Hq) as [-> _]. rewrite H1, H2.
    split; reflexivity.
  - reflexivity.
  - reflexivity.
Qed.

(** Frames of the base-0x09 type whose coordinate bytes spell 65530 and 5
    are no samples: between the samples 16400 and 16410 they add nothing, in
    the CLI and in the viewer. *)
Lemma base09_skips_65530_then_5 :
  cell Samples.wrapBase09 30 = 0xff ∧ cell Samples.wrapBase09 31 = 0xfa
  ∧ cell Samples.wrapBase09 50 = 0x00 ∧ cell Samples.wrapBase09 51 = 0x05
  ∧ findMarkers Samples.wrapBase09 = [0; 20; 40; 60]%nat
  ∧ base09Sample Samples.wrapBase09 0 20 = None
  ∧ base09Sample Samples.wrapBase09 0 40 = None
  ∧ extractBase09Position [Samples.wrapBase09] 0
    = [ {| frame := 0; cumCoord1 := 0; cumCoord2 := 0;
           raw1 := 16400; raw2 := 288 |};
        {| frame := 1; cumCoord1 := 10; cumCoord2 := 0;
           raw1 := 16410; raw2 := 288 |} ]
  ∧ ∃ fs, FilmParser.parseFrames Samples.wrapBase09 [0] = Some fs
          ∧ length fs = 4%nat
          ∧ AimPage.cumulativePoints (AimPage.rawsOf (AimPage.posFrames fs))
            = [(0, 0); (10, 0)].
Proof.
  repeat (split; [vm_compute; reflexivity|]).
  eexists. split; [vm_compute; reflexivity|]. by vm_compute.
Qed.

Lemma coord1_wraparound_by_layout_witness :
  (∃ p q, extractBase09Position [Samples.threeFrames] 0 !! 0%nat = Some p
      ∧ extractBase09Position [Samples.threeFrames] 0 !! 1%nat = Some q
      ∧ cumCoord1 q = cumCoord1 p + 32)
  ∧ (∃ a b,
       AimPage.cumulativePoints
         (AimPage.rawsOf (AimPage.posFrames Samples.threeParsed)) !! 1%nat = Some a
       ∧ AimPage.cumulativePoints
           (AimPage.rawsOf (AimPage.posFrames Samples.threeParsed)) !! 2%nat = Some b
       ∧ b.1 = a.1 + 208)
  ∧ extract40088064 [Samples.wrap88064] "40088064"
    = [ {| frame := 0; cumCoord1 := 0; cumCoord2 := 0;
           raw1 := 65530; raw2 := 10 |};
        {| frame := 1; cumCoord1 := 11; cumCoord2 := 0;
           raw1 := 5; raw2 := 10 |} ]
  ∧ (∀ p q, extract40088064 [Samples.wrap88064] "40088064" !! 0%nat = Some p →
            extract40088064 [Samples.wrap88064] "40088064" !! 1%nat = Some q →
            cumCoord1 q = cumCoord1 p + 11).
Proof.
  destruct (coord1_wraparound_by_layout [Samples.threeFrames] 0 0
              (16400, 288) (16432, 293)
              ltac:(apply (bool_decide_unpack _); vm_compute; exact I)
              ltac:(vm_compute; reflexivity) ltac:(vm_compute; reflexivity))
    as ((_ & _ & p & q & Hp & Hq & _ & _ & Hcum) & Hview & H88 & _).
  split; [by exists p, q|]. split; [|split].
  - destruct (Hview Samples.threeFrames [0] Samples.threeParsed 1%nat
                (16432, 293) (16640, 4080)
                ltac:(apply (bool_decide_unpack _); vm_compute; exact I)
                ltac:(vm_compute; reflexivity) ltac:(vm_compute; reflexivity)
                ltac:(vm_compute; reflexivity))
      as (_ & _ & a & b & Ha & Hb & Hab).
    by exists a, b.
  - vm_compute. reflexivity.
  - intros p' q' Hp' Hq'.
    assert (raw1 p' = 65530) as H1.
    { vm_compute in Hp'. by injection Hp' as <-. }
    assert (raw1 q' = 5) as H2.
    { vm_compute in Hq'. by injection Hq' as <-. }
    exact (proj2 (H88 _ _ _ _ _ Hp' Hq' H1 H2)).
Defined.

End Wraparound.
